(** * Smart Elevator Control System: a shallow embedding and its properties

    The development follows the elevator part of [tic_tac_toe.js]: the
    classes [Passenger], [Elevator] and [ElevatorSystem].  JavaScript numbers
    that hold floors, counts, timers and weights are modelled as [Z]
    (integral kilograms), objects as records, the insertion-ordered [Set]
    of target floors as a duplicate-free list in insertion order, and the
    shared [pendingRequests] array as a list that is threaded through every
    method that mutates it.  [console.log] is modelled as a list of events
    appended to the system's [console]. *)

From Stdlib Require Import ZArith List Lia Bool String.
From stdpp Require Import base tactics option list numbers strings sets sorting.
Import ListNotations.

Local Open Scope Z_scope.

(** ** Constants *)

Inductive State := IDLE | MOVING | OPEN_DOOR | CLOSE_DOOR.
Inductive Dir := UP | DOWN | NONE.

#[global] Instance State_eq_dec : EqDecision State.
Proof. solve_decision. Defined.
#[global] Instance Dir_eq_dec : EqDecision Dir.
Proof. solve_decision. Defined.

(** ** Passenger *)

Record Passenger := mkPassenger {
  p_id : string;
  p_from : Z;
  p_to : Z;
  p_weight : Z
}.

#[global] Instance Passenger_eq_dec : EqDecision Passenger.
Proof. solve_decision. Defined.

(** [new Passenger(fromFloor, toFloor, weight = 70)]; the random [uuid()]
    is an input of the model. *)
Definition Passenger_new (uuid : string) (fromFloor toFloor : Z)
    (weight : option Z) : Passenger :=
  mkPassenger uuid fromFloor toFloor (default 70 weight).

(** ** The JavaScript [Set] of numbers, in insertion order *)

Module JSSet.
Definition t := list Z.
Definition empty : t := [].
Definition size (s : t) : Z := Z.of_nat (length s).
Definition has (x : Z) (s : t) : bool := bool_decide (x ∈ s).
Definition add (x : Z) (s : t) : t := if has x s then s else s ++ [x].
Definition delete (x : Z) (s : t) : t := filter (λ y, y ≠ x) s.
End JSSet.

(** ** Console events *)

Record Status := mkStatus {
  st_id : Z;
  st_floor : Z;
  st_state : State;
  st_direction : Dir;
  st_people : Z;
  st_weight : Z;
  st_targets : list Z
}.

Inductive LogEvent :=
| LogAlighted (el : Z) (count floor : Z)
| LogBoarded (el : Z) (floor dest weight : Z)
| LogInvalid (from to : Z)
| LogQueued (from to : Z)
| LogAssigned (passenger : string) (el : Z) (from to : Z)
| LogPendingAssigned (passenger : string) (el : Z)
| LogStatus (els : list Status) (pending : list (Z * Z)).

(** ** Elevator *)

Record Opts := mkOpts {
  opt_maxPeople : option Z;
  opt_maxWeight : option Z;
  opt_tickTimeMs : option Z;
  opt_tickMs : option Z
}.

(** [x || d] on an optional number: [undefined] and [0] are falsy. *)
Definition or_else (x : option Z) (d : Z) : Z :=
  match x with
  | Some v => if v =? 0 then d else v
  | None => d
  end.

(** The fields of the class; [logPrefix] is derived from [id]. *)
Record Elevator := mkElevator {
  el_id : Z;
  totalFloors : Z;
  currentFloor : Z;
  state : State;
  direction : Dir;
  maxPeople : Z;
  maxWeight : Z;
  passengers : list Passenger;
  targets : JSSet.t;
  doorTimer : Z;
  tickTimeMs : Z
}.

Definition Elevator_new (id total : Z) (opts : Opts) : Elevator :=
  {| el_id := id;
     totalFloors := total;
     currentFloor := 1;
     state := IDLE;
     direction := NONE;
     maxPeople := or_else (opt_maxPeople opts) 8;
     maxWeight := or_else (opt_maxWeight opts) 680;
     passengers := [];
     targets := JSSet.empty;
     doorTimer := 0;
     tickTimeMs := or_else (opt_tickTimeMs opts) 1000 |}.

(** Field updates. *)
Definition set_currentFloor (f : Z) (e : Elevator) : Elevator :=
  mkElevator (el_id e) (totalFloors e) f (state e) (direction e)
    (maxPeople e) (maxWeight e) (passengers e) (targets e) (doorTimer e)
    (tickTimeMs e).
Definition set_state (s : State) (e : Elevator) : Elevator :=
  mkElevator (el_id e) (totalFloors e) (currentFloor e) s (direction e)
    (maxPeople e) (maxWeight e) (passengers e) (targets e) (doorTimer e)
    (tickTimeMs e).
Definition set_direction (d : Dir) (e : Elevator) : Elevator :=
  mkElevator (el_id e) (totalFloors e) (currentFloor e) (state e) d
    (maxPeople e) (maxWeight e) (passengers e) (targets e) (doorTimer e)
    (tickTimeMs e).
Definition set_passengers (ps : list Passenger) (e : Elevator) : Elevator :=
  mkElevator (el_id e) (totalFloors e) (currentFloor e) (state e) (direction e)
    (maxPeople e) (maxWeight e) ps (targets e) (doorTimer e) (tickTimeMs e).
Definition set_targets (ts : JSSet.t) (e : Elevator) : Elevator :=
  mkElevator (el_id e) (totalFloors e) (currentFloor e) (state e) (direction e)
    (maxPeople e) (maxWeight e) (passengers e) ts (doorTimer e) (tickTimeMs e).
Definition set_doorTimer (t : Z) (e : Elevator) : Elevator :=
  mkElevator (el_id e) (totalFloors e) (currentFloor e) (state e) (direction e)
    (maxPeople e) (maxWeight e) (passengers e) (targets e) t (tickTimeMs e).

Definition occupancyCount (e : Elevator) : Z :=
  Z.of_nat (length (passengers e)).

(** [passengers.reduce((s, p) => s + p.weight, 0)] *)
Definition occupancyWeight (e : Elevator) : Z :=
  foldl (λ s p, s + p_weight p) 0 (passengers e).

Definition isFull (e : Elevator) : bool :=
  (maxPeople e <=? occupancyCount e) || (maxWeight e <=? occupancyWeight e).

Definition openDoorImmediately (e : Elevator) : Elevator :=
  set_doorTimer 2 (set_direction NONE (set_state OPEN_DOOR e)).

Definition addTarget (floor : Z) (e : Elevator) : Elevator :=
  if (floor <? 1) || (totalFloors e <? floor) then e
  else
    let e1 := set_targets (JSSet.add floor (targets e)) e in
    match state e1 with
    | IDLE =>
        if currentFloor e1 =? floor then openDoorImmediately e1
        else set_direction (if currentFloor e1 <? floor then UP else DOWN)
               (set_state MOVING e1)
    | _ => e1
    end.

(** [closestTarget]: the accumulator is [(best, bestDist)], [None] standing
    for [(null, Infinity)]. *)
Definition closer (cur : Z) (acc : option (Z * Z)) (t : Z) : option (Z * Z) :=
  let d := Z.abs (cur - t) in
  match acc with
  | None => Some (t, d)
  | Some (_, bestDist) => if d <? bestDist then Some (t, d) else acc
  end.

Definition closestTarget (e : Elevator) : Z :=
  if JSSet.size (targets e) =? 0 then currentFloor e
  else
    match foldl (closer (currentFloor e)) None (targets e) with
    | Some (best, _) => best
    | None => currentFloor e (* not reached: the set is not empty *)
    end.

Definition handleAlightings (e : Elevator) : Elevator * list LogEvent :=
  match passengers e with
  | [] => (e, [])
  | _ =>
      let before := Z.of_nat (length (passengers e)) in
      let e' := set_passengers
                  (filter (λ p, p_to p ≠ currentFloor e) (passengers e)) e in
      let after := Z.of_nat (length (passengers e')) in
      (e', if before =? after then []
           else [LogAlighted (el_id e) (before - after) (currentFloor e)])
  end.

Definition reqDirOf (req : Passenger) : Dir :=
  if p_from req <? p_to req then UP else DOWN.

(** The three statements of the [// board] branch. *)
Definition board (req : Passenger) (e : Elevator) : Elevator :=
  set_targets (JSSet.add (p_to req) (targets e))
    (set_passengers (passengers e ++ [req]) e).

(** The loop of [handleBoardings]: [n] is [i + 1] for the loop variable [i],
    which runs from [pendingRequests.length - 1] down to [0]. *)
Fixpoint boardingLoop (n : nat) (e : Elevator) (pending : list Passenger)
    (log : list LogEvent) : Elevator * list Passenger * list LogEvent :=
  match n with
  | O => (e, pending, log)
  | S i =>
      match pending !! i with
      | None => (e, pending, log) (* not reached: [i < pending.length] *)
      | Some req =>
          if negb (p_from req =? currentFloor e) then
            boardingLoop i e pending log
          else if bool_decide (state e = OPEN_DOOR) then
            if bool_decide (direction e = NONE)
               || bool_decide (direction e = reqDirOf req)
               || (JSSet.size (targets e) =? 0)
            then
              let willBeFull := maxPeople e <? occupancyCount e + 1 in
              let willBeOverweight :=
                maxWeight e <? occupancyWeight e + p_weight req in
              if negb willBeFull && negb willBeOverweight then
                boardingLoop i (board req e) (delete i pending)
                  (log ++ [LogBoarded (el_id e) (currentFloor e) (p_to req)
                             (p_weight req)])
              else if isFull e then (e, pending, log)
              else boardingLoop i e pending log
            else boardingLoop i e pending log
          else boardingLoop i e pending log
      end
  end.

Definition handleBoardings (e : Elevator) (pending : list Passenger)
    : Elevator * list Passenger * list LogEvent :=
  boardingLoop (length pending) e pending [].

Definition stepTick (e : Elevator) (pendingRequests : list Passenger)
    : Elevator * list Passenger * list LogEvent :=
  match state e with
  | IDLE =>
      if 0 <? JSSet.size (targets e) then
        let floor := closestTarget e in
        if negb (floor =? currentFloor e) then
          (set_state MOVING
             (set_direction (if currentFloor e <? floor then UP else DOWN) e),
           pendingRequests, [])
        else (openDoorImmediately e, pendingRequests, [])
      else (e, pendingRequests, [])
  | MOVING =>
      let e1 :=
        match direction e with
        | UP => if currentFloor e <? totalFloors e
                then set_currentFloor (currentFloor e + 1) e else e
        | DOWN => if 1 <? currentFloor e
                  then set_currentFloor (currentFloor e - 1) e else e
        | NONE => e
        end in
      if JSSet.has (currentFloor e1) (targets e1) then
        (set_doorTimer 2
           (set_state OPEN_DOOR
              (set_targets (JSSet.delete (currentFloor e1) (targets e1)) e1)),
         pendingRequests, [])
      else (e1, pendingRequests, [])
  | OPEN_DOOR =>
      let '(e1, log1) := handleAlightings e in
      let '(e2, pending', log2) := handleBoardings e1 pendingRequests in
      let e3 := set_doorTimer (doorTimer e2 - 1) e2 in
      (if doorTimer e3 <=? 0 then set_state CLOSE_DOOR e3 else e3,
       pending', log1 ++ log2)
  | CLOSE_DOOR =>
      if 0 <? JSSet.size (targets e) then
        let next := closestTarget e in
        (set_state MOVING
           (set_direction (if currentFloor e <? next then UP else DOWN) e),
         pendingRequests, [])
      else (set_direction NONE (set_state IDLE e), pendingRequests, [])
  end.

Definition status (e : Elevator) : Status :=
  {| st_id := el_id e;
     st_floor := currentFloor e;
     st_state := state e;
     st_direction := direction e;
     st_people := occupancyCount e;
     st_weight := occupancyWeight e;
     st_targets := merge_sort Z.le (targets e) |}.

(** ** ElevatorSystem *)

(** The fields of the class, with the console the methods write to; the
    interval handle [tickHandle] of the driver is left out. *)
Record ElevatorSystem := mkSystem {
  elevators : list Elevator;
  sys_totalFloors : Z;
  pendingRequests : list Passenger;
  tickMs : Z;
  tickCount : Z;
  console : list LogEvent
}.

Definition set_elevators (els : list Elevator) (s : ElevatorSystem) :=
  mkSystem els (sys_totalFloors s) (pendingRequests s) (tickMs s)
    (tickCount s) (console s).
Definition set_pendingRequests (q : list Passenger) (s : ElevatorSystem) :=
  mkSystem (elevators s) (sys_totalFloors s) q (tickMs s) (tickCount s)
    (console s).
Definition set_tickCount (n : Z) (s : ElevatorSystem) :=
  mkSystem (elevators s) (sys_totalFloors s) (pendingRequests s) (tickMs s) n
    (console s).
Definition log (evs : list LogEvent) (s : ElevatorSystem) :=
  mkSystem (elevators s) (sys_totalFloors s) (pendingRequests s) (tickMs s)
    (tickCount s) (console s ++ evs).

(** [new ElevatorSystem(numElevators = 3, totalFloors = 10, opts = {})]:
    elevators [1 .. numElevators] are built in a loop; nothing is checked. *)
Definition ElevatorSystem_new (numElevators totalFloors : option Z)
    (opts : Opts) : ElevatorSystem :=
  let n := default 3 numElevators in
  let total := default 10 totalFloors in
  {| elevators := (λ i, Elevator_new i total opts) <$> seqZ 1 n;
     sys_totalFloors := total;
     pendingRequests := [];
     tickMs := or_else (opt_tickMs opts) 1000;
     tickCount := 0;
     console := [] |}.

(** A JavaScript call either returns a value or throws. *)
Inductive Completion (A : Type) :=
| Returns (a : A)
| Throws.
Arguments Returns {A} a.
Arguments Throws {A}.

(** The constructor call seen as a completion: the constructor bodies hold
    no [throw] and no validation, so every call returns. *)
Definition construct (numElevators totalFloors : option Z) (opts : Opts)
    : Completion ElevatorSystem :=
  Returns (ElevatorSystem_new numElevators totalFloors opts).

(** The score computed in the body of both assignment loops. *)
Definition score (el : Elevator) (reqFloor : Z) (reqDir : Dir) : Z :=
  let dist := Z.abs (currentFloor el - reqFloor) in
  let score := dist * 10 in
  let score :=
    if (currentFloor el =? reqFloor)
       && (bool_decide (state el = IDLE) || bool_decide (state el = OPEN_DOOR)
           || bool_decide (state el = CLOSE_DOOR))
    then score - 1000 else score in
  let score :=
    if bool_decide (state el = MOVING) then
      if (bool_decide (direction el = UP) && (currentFloor el <=? reqFloor)
          && bool_decide (reqDir = UP))
         || (bool_decide (direction el = DOWN) && (reqFloor <=? currentFloor el)
             && bool_decide (reqDir = DOWN))
      then score - 200 else score + 50
    else score in
  if bool_decide (state el = IDLE) then score - 50 else score.

(** [score < bestScore], with [None] for [Infinity]. *)
Definition improves (score : Z) (best : option (nat * Z)) : bool :=
  match best with
  | None => true
  | Some (_, bestScore) => score <? bestScore
  end.

(** The [for (const el of this.elevators)] loop of [tryAssignElevator]; the
    accumulator is [(bestElevator, bestScore)], an elevator being named by
    its position [i] in [this.elevators]. *)
Fixpoint assignScan (passenger : Passenger) (els : list Elevator) (i : nat)
    (best : option (nat * Z)) : option (nat * Z) :=
  match els with
  | [] => best
  | el :: rest =>
      if isFull el then assignScan passenger rest (S i) best
      else
        let score := score el (p_from passenger) (reqDirOf passenger) in
        if maxWeight el <? p_weight passenger + occupancyWeight el then
          assignScan passenger rest (S i) best
        else if improves score best then
          assignScan passenger rest (S i) (Some (i, score))
        else assignScan passenger rest (S i) best
  end.

(** The loop of [tryAssignElevatorDirect]: both exclusions come first. *)
Fixpoint assignScanDirect (passenger : Passenger) (els : list Elevator)
    (i : nat) (best : option (nat * Z)) : option (nat * Z) :=
  match els with
  | [] => best
  | el :: rest =>
      if isFull el then assignScanDirect passenger rest (S i) best
      else if maxWeight el <? p_weight passenger + occupancyWeight el then
        assignScanDirect passenger rest (S i) best
      else
        let score := score el (p_from passenger) (reqDirOf passenger) in
        if improves score best then
          assignScanDirect passenger rest (S i) (Some (i, score))
        else assignScanDirect passenger rest (S i) best
  end.

(** Both methods return the chosen elevator (its position) or [null]. *)
Definition tryAssignElevator (passenger : Passenger) (s : ElevatorSystem)
    : ElevatorSystem * option nat :=
  match assignScan passenger (elevators s) 0%nat None with
  | Some (best, _) =>
      (set_pendingRequests (pendingRequests s ++ [passenger])
         (set_elevators
            (alter (addTarget (p_from passenger)) best (elevators s)) s),
       Some best)
  | None => (s, None)
  end.

Definition tryAssignElevatorDirect (passenger : Passenger) (s : ElevatorSystem)
    : ElevatorSystem * option nat :=
  match assignScanDirect passenger (elevators s) 0%nat None with
  | Some (best, _) =>
      (set_elevators
         (alter (addTarget (p_from passenger)) best (elevators s)) s,
       Some best)
  | None => (s, None)
  end.

Definition elevatorId (s : ElevatorSystem) (i : nat) : Z :=
  default 0 (el_id <$> elevators s !! i).

Definition requestElevator (uuid : string) (from to : Z) (weight : option Z)
    (s : ElevatorSystem) : ElevatorSystem :=
  if (from <? 1) || (sys_totalFloors s <? from) || (to <? 1)
     || (sys_totalFloors s <? to) || (from =? to)
  then log [LogInvalid from to] s
  else
    let passenger := Passenger_new uuid from to weight in
    match tryAssignElevator passenger s with
    | (s1, None) =>
        log [LogQueued from to]
          (set_pendingRequests (pendingRequests s1 ++ [passenger]) s1)
    | (s1, Some assigned) =>
        log [LogAssigned (p_id passenger) (elevatorId s1 assigned) from to] s1
    end.

(** [pendingRequests.findIndex((p) => p.id === id)] *)
Fixpoint findIndex (id : string) (q : list Passenger) : option nat :=
  match q with
  | [] => None
  | p :: rest =>
      if bool_decide (p_id p = id) then Some 0%nat
      else S <$> findIndex id rest
  end.

(** The loop of [releasePendingToIdleElevators], [n] being [i + 1]. *)
Fixpoint releaseLoop (n : nat) (s : ElevatorSystem) : ElevatorSystem :=
  match n with
  | O => s
  | S i =>
      match pendingRequests s !! i with
      | None => s (* not reached: [i < pendingRequests.length] *)
      | Some req =>
          match tryAssignElevatorDirect req s with
          | (s1, Some _) =>
              match findIndex (p_id req) (pendingRequests s1) with
              | Some idx =>
                  releaseLoop i
                    (set_pendingRequests (delete idx (pendingRequests s1)) s1)
              | None => releaseLoop i s1
              end
          | (s1, None) => releaseLoop i s1
          end
      end
  end.

Definition releasePendingToIdleElevators (s : ElevatorSystem) : ElevatorSystem :=
  releaseLoop (length (pendingRequests s)) s.

(** The first loop of [tick], [n] being [i + 1]. *)
Fixpoint assignPendingLoop (n : nat) (s : ElevatorSystem) : ElevatorSystem :=
  match n with
  | O => s
  | S i =>
      match pendingRequests s !! i with
      | None => s (* not reached: the queue keeps its length in this loop *)
      | Some req =>
          match tryAssignElevatorDirect req s with
          | (s1, Some assigned) =>
              assignPendingLoop i
                (log [LogPendingAssigned (p_id req) (elevatorId s1 assigned)] s1)
          | (s1, None) => assignPendingLoop i s1
          end
      end
  end.

(** The second loop of [tick]: every elevator steps once, each one against
    the queue as the elevators before it left it. *)
Fixpoint stepElevators (els : list Elevator) (pending : list Passenger)
    : list Elevator * list Passenger * list LogEvent :=
  match els with
  | [] => ([], pending, [])
  | el :: rest =>
      let '(el', pending1, log1) := stepTick el pending in
      let '(rest', pending2, log2) := stepElevators rest pending1 in
      (el' :: rest', pending2, log1 ++ log2)
  end.

Definition stepPhase (s : ElevatorSystem) : ElevatorSystem :=
  let '(els, pending, evs) := stepElevators (elevators s) (pendingRequests s) in
  log evs (set_pendingRequests pending (set_elevators els s)).

Definition snapshot (s : ElevatorSystem) : LogEvent :=
  LogStatus (status <$> elevators s)
    ((λ r, (p_from r, p_to r)) <$> pendingRequests s).

Definition logStatus (s : ElevatorSystem) : ElevatorSystem :=
  log [snapshot s] s.

Definition tick (s : ElevatorSystem) : ElevatorSystem :=
  let s0 := set_tickCount (tickCount s + 1) s in
  let s1 := assignPendingLoop (length (pendingRequests s0)) s0 in
  let s2 := stepPhase s1 in
  let s3 := logStatus s2 in
  if Z.rem (tickCount s3) 10 =? 0 then releasePendingToIdleElevators s3
  else s3.

(** ** Runs of the system *)

Inductive Op :=
| Request (uuid : string) (from to : Z) (weight : option Z)
| Tick.

Definition apply_op (s : ElevatorSystem) (o : Op) : ElevatorSystem :=
  match o with
  | Request uuid from to weight => requestElevator uuid from to weight s
  | Tick => tick s
  end.

Definition run (s : ElevatorSystem) (ops : list Op) : ElevatorSystem :=
  foldl apply_op s ops.


(** * Tic-tac-toe with the diagonal lock rule

    The first part of [tic_tac_toe.js].  A JavaScript string is modelled as
    a [string], read as its sequence of code units in the Latin-1 range;
    [undefined] and [null] are [None], an index that [indexOf] does not find
    (-1) is [None] as well.  The answers that [ask] returns are the input of
    the model, in the order in which the program asks for them, and what it
    prints with [console.log] is collected as a list of lines. *)

From Stdlib Require Import Ascii NArith.

Module TicTacToe.

Definition rows : list string := ["A"; "B"; "C"].
Definition cols : list string := ["1"; "2"; "3"].

Abbreviation Board := (list (list string)).

Definition makeEmptyBoard : Board :=
  [ ["_"; "_"; "_"];
    ["_"; "_"; "_"];
    ["_"; "_"; "_"] ].

(** [board[r][c]].  The boards of the program have three rows, so that
    [board[r]] is an array for the indices it is read at; an index that is
    out of range in its row reads [undefined]. *)
Definition cell (board : Board) (r c : nat) : option string :=
  row ← board !! r; row !! c.

(** [board[r][c] = symbol] *)
Definition place (r c : nat) (symbol : string) (board : Board) : Board :=
  alter (<[c := symbol]>) r board.

(** ** Strings *)

(** [toUpperCase] on one code unit: the letters a-z, and the Latin-1
    letters with an upper-case form in Latin-1, move down by 32.  (The three
    remaining code units with an upper-case form, 181, 223 and 255, leave
    Latin-1 in JavaScript and are kept here; in neither case is the result
    a row letter or a column digit.) *)
Definition upperUnit (a : ascii) : ascii :=
  let n := N_of_ascii a in
  if ((97 <=? n) && (n <=? 122)
      || (224 <=? n) && (n <=? 254) && negb (n =? 247))%N
  then ascii_of_N (n - 32) else a.

Fixpoint toUpperCase (s : string) : string :=
  match s with
  | EmptyString => EmptyString
  | String a s' => String (upperUnit a) (toUpperCase s')
  end.

(** The class [\s] of regular expressions, in Latin-1: tab, line feed,
    vertical tab, form feed, carriage return, space and no-break space. *)
Definition isSpace (a : ascii) : bool :=
  let n := N_of_ascii a in
  ((9 <=? n) && (n <=? 13) || (n =? 32) || (n =? 160))%N.

(** [input.replace(/\s+/g, '')] *)
Fixpoint removeSpaces (s : string) : string :=
  match s with
  | EmptyString => EmptyString
  | String a s' =>
      if isSpace a then removeSpaces s' else String a (removeSpaces s')
  end.

(** [list.indexOf(x)] *)
Fixpoint indexOf (x : string) (l : list string) : option nat :=
  match l with
  | [] => None
  | y :: l' => if bool_decide (y = x) then Some 0%nat else S <$> indexOf x l'
  end.

Definition coordToIndex (coord : string) : option (nat * nat) :=
  if (String.length coord <? 2)%nat || (2 <? String.length coord)%nat then None
  else
    match coord with
    | String c0 (String c1 _) =>
        let rowChar := toUpperCase (String c0 EmptyString) in
        let colChar := String c1 EmptyString in
        match indexOf rowChar rows, indexOf colChar cols with
        | Some r, Some c => Some (r, c)
        | _, _ => None
        end
    | _ => None
    end.

(** ** The board *)

Definition playerHasCell (board : Board) (playerSymbol : string) (r c : nat)
  : bool :=
  bool_decide (cell board r c = Some playerSymbol).

(** The two loops return at the first row, then at the first column, that
    is complete. *)
Definition checkWin (board : Board) (symbol : string) : bool :=
  let own r c := bool_decide (cell board r c = Some symbol) in
  existsb (λ r, own r 0%nat && own r 1%nat && own r 2%nat) (seq 0 3)
  || existsb (λ c, own 0%nat c && own 1%nat c && own 2%nat c) (seq 0 3)
  || own 0%nat 0%nat && own 1%nat 1%nat && own 2%nat 2%nat
  || own 0%nat 2%nat && own 1%nat 1%nat && own 2%nat 0%nat.

Definition isBoardFull (board : Board) : bool :=
  forallb (λ r,
    forallb (λ c, negb (bool_decide (cell board r c = Some "_"))) (seq 0 3))
    (seq 0 3).

(** ** Players *)

Record Player := mkPlayer {
  name : string;
  symbol : string
}.

(** What the program prints, one constructor for each message; the lines
    that [printBoard] prints for a board are one [BoardPrinted]. *)
Inductive Line :=
| Banner
| NameEmpty
| SymbolNotSingle
| SymbolReserved
| SymbolTaken (sym : string)
| NameTaken (name : string)
| Registered (p1 p2 : Player)
| BoardPrinted (board : Board)
| InvalidCoordinate
| CenterLocked (sym : string)
| CellFilled
| Blank
| LockTriggered (p : Player)
| Wins (p : Player)
| Draw
| GameOver.

(** The first loop of [registerPlayers]: each round takes two answers. *)
Fixpoint registerFirst (answers : list string) (out : list Line)
  : option (Player * list string * list Line) :=
  match answers with
  | name1 :: sym1 :: rest =>
      if bool_decide (name1 = "") then
        registerFirst rest (out ++ [NameEmpty])
      else if bool_decide (sym1 = "") || negb (String.length sym1 =? 1)%nat then
        registerFirst rest (out ++ [SymbolNotSingle])
      else if bool_decide (sym1 = "_") then
        registerFirst rest (out ++ [SymbolReserved])
      else Some (mkPlayer name1 sym1, rest, out)
  | _ => None
  end.

(** The second loop. *)
Fixpoint registerSecond (p1 : Player) (answers : list string) (out : list Line)
  : option (Player * list string * list Line) :=
  match answers with
  | name2 :: sym2 :: rest =>
      if bool_decide (name2 = "") then
        registerSecond p1 rest (out ++ [NameEmpty])
      else if bool_decide (sym2 = "") || negb (String.length sym2 =? 1)%nat then
        registerSecond p1 rest (out ++ [SymbolNotSingle])
      else if bool_decide (sym2 = "_") then
        registerSecond p1 rest (out ++ [SymbolReserved])
      else if bool_decide (sym2 = symbol p1) then
        registerSecond p1 rest (out ++ [SymbolTaken sym2])
      else if bool_decide (name2 = name p1) then
        registerSecond p1 rest (out ++ [NameTaken name2])
      else Some (mkPlayer name2 sym2, rest, out)
  | _ => None
  end.

(** [registerPlayers]: the two players, the answers that are left and the
    lines printed; [None] when the answers end before both are registered. *)
Definition registerPlayers (answers : list string)
  : option (Player * Player * list string * list Line) :=
  match registerFirst answers [Banner] with
  | Some (p1, rest, out) =>
      match registerSecond p1 rest out with
      | Some (p2, rest', out') =>
          Some (p1, p2, rest', out' ++ [Registered p1 p2])
      | None => None
      end
  | None => None
  end.

(** ** The game *)

(** The variables of [main]. *)
Record Game := mkGame {
  board : Board;
  currentPlayer : Player;
  otherPlayer : Player;
  gameEnded : bool;
  centerLockedBy : option string;
  console : list Line
}.

Definition set_board (b : Board) (g : Game) : Game :=
  mkGame b (currentPlayer g) (otherPlayer g) (gameEnded g) (centerLockedBy g)
    (console g).

Definition set_centerLockedBy (l : option string) (g : Game) : Game :=
  mkGame (board g) (currentPlayer g) (otherPlayer g) (gameEnded g) l
    (console g).

Definition set_gameEnded (b : bool) (g : Game) : Game :=
  mkGame (board g) (currentPlayer g) (otherPlayer g) b (centerLockedBy g)
    (console g).

Definition swapPlayers (g : Game) : Game :=
  mkGame (board g) (otherPlayer g) (currentPlayer g) (gameEnded g)
    (centerLockedBy g) (console g).

Definition say (lines : list Line) (g : Game) : Game :=
  mkGame (board g) (currentPlayer g) (otherPlayer g) (gameEnded g)
    (centerLockedBy g) (console g ++ lines).

(** The state of [main] when it enters its loop. *)
Definition start (p1 p2 : Player) (out : list Line) : Game :=
  say [BoardPrinted makeEmptyBoard]
    (mkGame makeEmptyBoard p1 p2 false None out).

(** [centerLockedBy && centerLockedBy !== currentPlayer.symbol]: the empty
    string is as false as [null]. *)
Definition lockedForOther (g : Game) : bool :=
  match centerLockedBy g with
  | Some s =>
      negb (bool_decide (s = "")) &&
      negb (bool_decide (s = symbol (currentPlayer g)))
  | None => false
  end.

(** One round of the loop of [main], on the answer [input]. *)
Definition turn (input : string) (g : Game) : Game :=
  let coord := toUpperCase (removeSpaces input) in
  match coordToIndex coord with
  | None => say [InvalidCoordinate] g
  | Some (r, c) =>
      if (r =? 1)%nat && (c =? 1)%nat && lockedForOther g then
        say [CenterLocked (default "" (centerLockedBy g))] g
      else if negb (bool_decide (cell (board g) r c = Some "_")) then
        say [CellFilled] g
      else
        let sym := symbol (currentPlayer g) in
        let b := place r c sym (board g) in
        let g1 := say [Blank; BoardPrinted b] (set_board b g) in
        let hasA1 := playerHasCell b sym 0 0 in
        let hasC3 := playerHasCell b sym 2 2 in
        let hasA3 := playerHasCell b sym 0 2 in
        let hasC1 := playerHasCell b sym 2 0 in
        let g2 :=
          if bool_decide (cell b 1%nat 1%nat = Some "_")
             && (hasA1 && hasC3 || hasA3 && hasC1)
          then say [LockTriggered (currentPlayer g)]
                 (set_centerLockedBy (Some sym) g1)
          else g1 in
        if checkWin b sym then
          say [Wins (currentPlayer g)] (set_gameEnded true g2)
        else if isBoardFull b then
          say [Draw] (set_gameEnded true g2)
        else swapPlayers g2
  end.

(** The loop of [main]: rounds are played until the game has ended; when
    the answers end first, the program waits in the state reached. *)
Fixpoint play (inputs : list string) (g : Game) : Game :=
  if gameEnded g then g
  else
    match inputs with
    | [] => g
    | input :: rest => play rest (turn input g)
    end.

(** [main] on the answers given: [None] while the registration is not
    complete; the last line is printed once the loop is left. *)
Definition main (answers : list string) : option Game :=
  match registerPlayers answers with
  | Some (p1, p2, rest, out) =>
      let g := play rest (start p1 p2 out) in
      Some (if gameEnded g then say [GameOver] g else g)
  | None => None
  end.

End TicTacToe.

(** * Specification-level definitions *)

Definition elevator_of (r : Elevator * list Passenger * list LogEvent) :=
  r.1.1.
Definition queue_of (r : Elevator * list Passenger * list LogEvent) :=
  r.1.2.

(** *** Submission and construction *)

Definition invalid_request (s : ElevatorSystem) (from to : Z) : Prop :=
  from < 1 ∨ sys_totalFloors s < from ∨ to < 1 ∨ sys_totalFloors s < to
  ∨ from = to.

(** The configuration the specification calls malformed. *)
Definition malformed (floors : option Z) (opts : Opts) : Prop :=
  default 10 floors ≤ 0
  ∨ (∃ v, opt_maxPeople opts = Some v ∧ v ≤ 0)
  ∨ (∃ v, opt_maxWeight opts = Some v ∧ v ≤ 0).

Definition rejects_malformed : Prop :=
  ∀ numElevators floors opts,
    malformed floors opts →
    construct numElevators floors opts = Throws.

(** *** Motion, as the specification words it *)

(** A MOVING elevator's floor changes by one, upwards for UP and downwards
    for DOWN. *)
Definition moves_one_floor (e : Elevator) (pending : list Passenger) : Prop :=
  state e = MOVING →
  let e' := elevator_of (stepTick e pending) in
  (direction e = UP ∧ currentFloor e' = currentFloor e + 1)
  ∨ (direction e = DOWN ∧ currentFloor e' = currentFloor e - 1).

Definition floor_in_range (e : Elevator) : Prop :=
  1 ≤ currentFloor e ≤ totalFloors e.

(** The fields that boarding and target assignment leave alone. *)
Definition same_cabin (e e' : Elevator) : Prop :=
  el_id e' = el_id e ∧ totalFloors e' = totalFloors e
  ∧ currentFloor e' = currentFloor e
  ∧ maxPeople e' = maxPeople e ∧ maxWeight e' = maxWeight e.

(** *** Boarding, as the specification words it *)

(** The direction test of a candidate: the elevator has no direction, or
    the candidate travels in the elevator's direction, or the elevator has
    no targets. *)
Definition direction_admits (e : Elevator) (req : Passenger) : Prop :=
  direction e = NONE ∨ direction e = reqDirOf req ∨ targets e = [].

(** The capacity test: one more passenger and the candidate's weight stay
    within the limits. *)
Definition fits (e : Elevator) (req : Passenger) : Prop :=
  occupancyCount e + 1 ≤ maxPeople e
  ∧ occupancyWeight e + p_weight req ≤ maxWeight e.

#[global] Instance direction_admits_dec e req : Decision (direction_admits e req).
Proof. unfold direction_admits. apply _. Defined.

#[global] Instance fits_dec e req : Decision (fits e req).
Proof. unfold fits. apply _. Defined.

(** [Boarding e q e' q' admitted]: scanning the queue [q] from its last
    entry to its first takes the elevator [e] to [e'], leaves the queue
    [q'] and admits the requests [admitted], in this order. *)
Inductive Boarding
  : Elevator → list Passenger → Elevator → list Passenger → list Passenger → Prop :=
| Boarding_done e :
    Boarding e [] e [] []
| Boarding_other_floor e q r e' q' adm :
    p_from r ≠ currentFloor e →
    Boarding e q e' q' adm →
    Boarding e (q ++ [r]) e' (q' ++ [r]) adm
| Boarding_admit e q r e' q' adm :
    p_from r = currentFloor e →
    direction_admits e r → fits e r →
    Boarding (board r e) q e' q' adm →
    Boarding e (q ++ [r]) e' q' (r :: adm)
| Boarding_other_direction e q r e' q' adm :
    p_from r = currentFloor e →
    ¬ direction_admits e r →
    Boarding e q e' q' adm →
    Boarding e (q ++ [r]) e' (q' ++ [r]) adm
| Boarding_no_room e q r e' q' adm :
    p_from r = currentFloor e →
    direction_admits e r → ¬ fits e r → isFull e = false →
    Boarding e q e' q' adm →
    Boarding e (q ++ [r]) e' (q' ++ [r]) adm
| Boarding_full e q r :
    p_from r = currentFloor e →
    direction_admits e r → ¬ fits e r → isFull e = true →
    Boarding e (q ++ [r]) e (q ++ [r]) [].

(** *** Occupancy *)

Definition weight_of (ps : list Passenger) : Z :=
  foldl (λ s p, s + p_weight p) 0 ps.

Definition within_capacity (e : Elevator) : Prop :=
  0 ≤ occupancyCount e ≤ maxPeople e ∧ 0 ≤ occupancyWeight e ≤ maxWeight e.

Definition nonneg_weight (p : Passenger) : Prop := 0 ≤ p_weight p.

(** Within capacity, carrying passengers of non-negative weight. *)
Definition capacity_inv (e : Elevator) : Prop :=
  occupancyCount e ≤ maxPeople e
  ∧ occupancyWeight e ≤ maxWeight e
  ∧ Forall nonneg_weight (passengers e).

(** *** Invariants of a run *)

(** A property of every elevator together with one of every queued request. *)
Definition system_inv (I : Elevator → Prop) (Q : Passenger → Prop)
    (s : ElevatorSystem) : Prop :=
  Forall I (elevators s) ∧ Forall Q (pendingRequests s).

(** The request an operation submits satisfies [Q]. *)
Definition op_submits (Q : Passenger → Prop) (o : Op) : Prop :=
  match o with
  | Request uuid from to weight => Q (Passenger_new uuid from to weight)
  | Tick => True
  end.

(** *** Assignment, as the specification words it *)

(** An elevator is a candidate for the request when it is not full and the
    request's weight still fits. *)
Definition eligible (r : Passenger) (e : Elevator) : Prop :=
  isFull e = false ∧ p_weight r + occupancyWeight e ≤ maxWeight e.

Definition at_origin_with_doors (r : Passenger) (e : Elevator) : Prop :=
  currentFloor e = p_from r
  ∧ (state e = IDLE ∨ state e = OPEN_DOOR ∨ state e = CLOSE_DOOR).

Definition moving_toward (r : Passenger) (e : Elevator) : Prop :=
  (direction e = UP ∧ currentFloor e ≤ p_from r ∧ reqDirOf r = UP)
  ∨ (direction e = DOWN ∧ p_from r ≤ currentFloor e ∧ reqDirOf r = DOWN).

#[global] Instance at_origin_with_doors_dec r e :
  Decision (at_origin_with_doors r e).
Proof. unfold at_origin_with_doors. apply _. Defined.

#[global] Instance moving_toward_dec r e : Decision (moving_toward r e).
Proof. unfold moving_toward. apply _. Defined.

(** The score of the specification: ten per floor of distance, minus 1000
    at the origin floor in IDLE, OPEN_DOOR or CLOSE_DOOR, minus 200 when
    MOVING toward the origin in the request's direction and plus 50 when
    MOVING otherwise, minus 50 when IDLE. *)
Definition score_spec (r : Passenger) (e : Elevator) : Z :=
  10 * Z.abs (currentFloor e - p_from r)
  - (if decide (at_origin_with_doors r e) then 1000 else 0)
  + (if decide (state e = MOVING)
     then if decide (moving_toward r e) then -200 else 50
     else 0)
  - (if decide (state e = IDLE) then 50 else 0).

(** The elevator at position [i] is eligible, no eligible elevator has a
    lower score, and every eligible elevator before it has a higher one. *)
Definition first_best (r : Passenger) (els : list Elevator) (i : nat) : Prop :=
  ∃ e, els !! i = Some e ∧ eligible r e
       ∧ ∀ j e', els !! j = Some e' → eligible r e' →
                 score_spec r e ≤ score_spec r e'
                 ∧ ((j < i)%nat → score_spec r e < score_spec r e').

(** The state of an assignment loop after the elevators [seen]. *)
Definition scan_best (r : Passenger) (seen : list Elevator)
    (best : option (nat * Z)) : Prop :=
  match best with
  | None => ∀ j e, seen !! j = Some e → ¬ eligible r e
  | Some (k, sc) =>
      first_best r seen k ∧ ∃ e, seen !! k = Some e ∧ sc = score_spec r e
  end.

(** *** The phases of a tick, as the specification words them *)

(** One direct assignment attempt, on the elevators alone: the winner, if
    any, receives the origin floor as a target. *)
Definition attempt (r : Passenger) (els : list Elevator) : list Elevator :=
  match assignScanDirect r els 0%nat None with
  | Some (best, _) => alter (addTarget (p_from r)) best els
  | None => els
  end.

(** [Stepped els q els' q']: every elevator of [els], in order, has made one
    [stepTick] against the queue as left by the elevators before it. *)
Inductive Stepped
  : list Elevator → list Passenger → list Elevator → list Passenger → Prop :=
| Stepped_nil q :
    Stepped [] q [] q
| Stepped_cons el rest q el' q1 evs rest' q2 :
    stepTick el q = (el', q1, evs) →
    Stepped rest q1 rest' q2 →
    Stepped (el :: rest) q (el' :: rest') q2.

(** [Sweep els q els' q']: the periodic sweep over the queue [q], from its
    last entry to its first; a request for which an elevator wins the
    assignment leaves the queue, the others stay. *)
Inductive Sweep
  : list Elevator → list Passenger → list Elevator → list Passenger → Prop :=
| Sweep_done els :
    Sweep els [] els []
| Sweep_assigned els q r i els' q' :
    first_best r els i →
    Sweep (alter (addTarget (p_from r)) i els) q els' q' →
    Sweep els (q ++ [r]) els' q'
| Sweep_kept els q r els' q' :
    (∀ e, e ∈ els → ¬ eligible r e) →
    Sweep els q els' q' →
    Sweep els (q ++ [r]) els' (q' ++ [r]).

(** *** Scenarios *)

(** Scenario A of the specification: one elevator, three floors, eight
    people, 680 kg; one request from floor 1 to floor 3. *)
Definition scenarioA_opts : Opts := mkOpts (Some 8) (Some 680) None None.

Definition scenarioA : ElevatorSystem :=
  requestElevator "a" 1 3 (Some 70)
    (ElevatorSystem_new (Some 1) (Some 3) scenarioA_opts).

(** Its elevator after the doors have closed at floor 1. *)
Definition closing_at_ground : Elevator :=
  default (Elevator_new 1 3 scenarioA_opts)
    (head (elevators (run scenarioA [Tick; Tick]))).

(** One tick later: it leaves floor 1 downwards, floor 1 being still its
    nearest target. *)
Definition departing_ground : Elevator :=
  default (Elevator_new 1 3 scenarioA_opts)
    (head (elevators (run scenarioA [Tick; Tick; Tick]))).

(** On its way up, at floor 1 of 3. *)
Definition going_up : Elevator :=
  default (Elevator_new 1 3 scenarioA_opts)
    (head (elevators (run scenarioA
                        [Tick; Tick; Tick; Tick; Tick; Tick; Tick]))).

(** Scenario B of the specification: one elevator for one passenger, two
    requests from floor 1. *)
Definition scenarioB : ElevatorSystem :=
  requestElevator "q" 1 2 None
    (requestElevator "p" 1 3 None
       (ElevatorSystem_new (Some 1) (Some 3) (mkOpts (Some 1) None None None))).

(** Its elevator with the doors open at floor 1, and the two requests. *)
Definition single_cabin : Elevator :=
  openDoorImmediately (Elevator_new 1 3 (mkOpts (Some 1) None None None)).

Definition two_waiting : list Passenger :=
  [Passenger_new "p" 1 3 None; Passenger_new "q" 1 2 None].

(** A configuration without floors and with negative limits. *)
Definition malformed_opts : Opts := mkOpts (Some (-1)) (Some (-5)) None None.

Definition floorless : ElevatorSystem :=
  ElevatorSystem_new (Some 2) (Some 0) malformed_opts.

(** A run in which a request of weight -5 is submitted and boards. *)
Definition negative_weight_run : ElevatorSystem :=
  run (ElevatorSystem_new (Some 1) (Some 3) scenarioA_opts)
    [Request "n" 1 3 (Some (-5)); Tick].

(** The first requests of the script's entry point, with ticks between. *)
Definition sample_system : ElevatorSystem :=
  ElevatorSystem_new (Some 3) (Some 12) (mkOpts None None None (Some 700)).

Definition sample_ops : list Op :=
  [Request "a" 1 7 (Some 60); Tick; Request "b" 3 9 (Some 70); Tick; Tick;
   Request "c" 10 2 (Some 80); Tick; Tick; Tick; Tick].

(** * Further definitions: the elevator over several ticks *)

(** [n] ticks of one elevator, the queue being handed from tick to tick. *)
Fixpoint stepTicks (n : nat) (e : Elevator) (q : list Passenger)
    : Elevator * list Passenger :=
  match n with
  | O => (e, q)
  | S k => stepTicks k (elevator_of (stepTick e q)) (queue_of (stepTick e q))
  end.

(** What each state says about the direction, the targets and the door
    timer. *)
Definition state_inv (e : Elevator) : Prop :=
  match state e with
  | IDLE => direction e = NONE ∧ targets e = [] ∧ doorTimer e = 0
  | MOVING => direction e ≠ NONE ∧ doorTimer e = 0
  | OPEN_DOOR => 1 ≤ doorTimer e ≤ 2
  | CLOSE_DOOR => doorTimer e = 0
  end.

(** The destination of every passenger is a target, unless the doors are
    open at that destination. *)
Definition dest_inv (e : Elevator) : Prop :=
  ∀ p, p ∈ passengers e →
       p_to p ∈ targets e ∨ (p_to p = currentFloor e ∧ state e = OPEN_DOOR).

(** The elevator of scenario A when its doors open at floor 3, the
    passenger for floor 3 aboard. *)
Definition arrived_top : Elevator :=
  default (Elevator_new 1 3 scenarioA_opts)
    (head (elevators (run scenarioA (replicate 9 Tick)))).

(** The elevator [e] as it opens its doors on reaching the target floor
    [t]: the branch [if (this.targets.has(this.currentFloor))] of MOVING. *)
Definition arrive (t : Z) (e : Elevator) : Elevator :=
  set_doorTimer 2
    (set_state OPEN_DOOR
       (set_targets (JSSet.delete t (targets e)) (set_currentFloor t e))).

(** * Further definitions: the system over a run *)

(** An elevator that is MOVING at the boundary in its direction of travel
    (or without a direction), the floor it stands at not being a target. *)
Definition stalled (e : Elevator) : Prop :=
  state e = MOVING
  ∧ (currentFloor e ∉ targets e)
  ∧ ((direction e = UP ∧ totalFloors e ≤ currentFloor e)
     ∨ (direction e = DOWN ∧ currentFloor e ≤ 1)
     ∨ direction e = NONE).

Definition at_rest (e : Elevator) : Prop :=
  (state e = IDLE ∧ targets e = []) ∨ stalled e.

(** The requests the system holds: the queue, then the passengers of every
    elevator. *)
Definition holding (s : ElevatorSystem) : list Passenger :=
  pendingRequests s ++ concat (passengers <$> elevators s).

(** The requests built by the valid and invalid submissions of a run. *)
Definition submitted (ops : list Op) : list Passenger :=
  omap (λ o, match o with
             | Request uuid from to weight =>
                 Some (Passenger_new uuid from to weight)
             | Tick => None
             end) ops.

(** What never changes about an elevator. *)
Definition configuration (e : Elevator) : Z * Z * Z * Z :=
  (el_id e, totalFloors e, maxPeople e, maxWeight e).

(** One request from floor 2 to floor 3 in a building with one elevator,
    five ticks on: the passenger is aboard, the elevator is at floor 1,
    MOVING with direction DOWN, its targets being floors 2 and 3. *)
Definition stranded : ElevatorSystem :=
  run (requestElevator "a" 2 3 None
         (ElevatorSystem_new (Some 1) (Some 3) scenarioA_opts))
    (replicate 5 Tick).

(** Scenario B nine ticks on: one request still waits, the elevator is
    empty again. *)
Definition waiting_with_room : ElevatorSystem :=
  run scenarioB (replicate 9 Tick).

(** A request of a building with [tf] floors: origin and destination are
    floors of the building, and differ. *)
Definition valid_request (tf : Z) (p : Passenger) : Prop :=
  1 ≤ p_from p ≤ tf ∧ 1 ≤ p_to p ≤ tf ∧ p_from p ≠ p_to p.

(** An elevator of a building with [tf] floors: its targets are floors of
    the building, each held once, and its passengers are requests of the
    building. *)
Definition building_inv (tf : Z) (e : Elevator) : Prop :=
  totalFloors e = tf
  ∧ NoDup (targets e)
  ∧ Forall (λ t, 1 ≤ t ≤ tf) (targets e)
  ∧ Forall (valid_request tf) (passengers e).

(** The requests of a queue that wait at the floor of the elevator. *)
Definition waiting_here (e : Elevator) (q : list Passenger) : list Passenger :=
  filter (λ r, p_from r = currentFloor e) q.

(** ** Tic-tac-toe *)

(** The coordinate of a cell as it is written: "A1" to "C3". *)
Definition coordinate (r c : nat) : option string :=
  a ← TicTacToe.rows !! r; d ← TicTacToe.cols !! c; Some (a +:+ d).

(** What [registerPlayers] asks of two players. *)
Definition registered (p1 p2 : TicTacToe.Player) : Prop :=
  TicTacToe.name p1 ≠ "" ∧ TicTacToe.name p2 ≠ ""
  ∧ TicTacToe.name p1 ≠ TicTacToe.name p2
  ∧ String.length (TicTacToe.symbol p1) = 1%nat
  ∧ String.length (TicTacToe.symbol p2) = 1%nat
  ∧ TicTacToe.symbol p1 ≠ "_" ∧ TicTacToe.symbol p2 ≠ "_"
  ∧ TicTacToe.symbol p1 ≠ TicTacToe.symbol p2.

(** The game that [main] has reached on the answers given, with the
    players in the order of their registration. *)
Definition game_of (answers : list string) (p1 p2 : TicTacToe.Player)
    (g : TicTacToe.Game) : Prop :=
  ∃ rest out, TicTacToe.registerPlayers answers = Some (p1, p2, rest, out)
              ∧ TicTacToe.main answers = Some g.

Definition three_by_three (b : TicTacToe.Board) : Prop :=
  length b = 3%nat ∧ Forall (λ row, length row = 3%nat) b.

(** The number of cells that hold a symbol. *)
Definition count (s : string) (b : TicTacToe.Board) : nat :=
  length (filter (λ x, x = s) (concat b)).

(** The eight lines of the board. *)
Definition lines : list (list (nat * nat)) :=
  [ [(0, 0); (0, 1); (0, 2)]; [(1, 0); (1, 1); (1, 2)]; [(2, 0); (2, 1); (2, 2)];
    [(0, 0); (1, 0); (2, 0)]; [(0, 1); (1, 1); (2, 1)]; [(0, 2); (1, 2); (2, 2)];
    [(0, 0); (1, 1); (2, 2)]; [(0, 2); (1, 1); (2, 0)] ]%nat.

Definition three_in_line (b : TicTacToe.Board) (s : string) : Prop :=
  ∃ l, l ∈ lines ∧ ∀ r c, (r, c) ∈ l → TicTacToe.cell b r c = Some s.

Definition full (b : TicTacToe.Board) : Prop :=
  ∀ r c, (r < 3)%nat → (c < 3)%nat → TicTacToe.cell b r c ≠ Some "_".

(** Both ends of a diagonal. *)
Definition diagonal_ends (b : TicTacToe.Board) (s : string) : Prop :=
  (TicTacToe.cell b 0 0 = Some s ∧ TicTacToe.cell b 2 2 = Some s)
  ∨ (TicTacToe.cell b 0 2 = Some s ∧ TicTacToe.cell b 2 0 = Some s).

(** The players of the game are the two registered ones, the board is
    three by three and holds nothing but their symbols, and a lock names
    one of them. *)
Definition game_inv (p1 p2 : TicTacToe.Player) (g : TicTacToe.Game) : Prop :=
  ((TicTacToe.currentPlayer g = p1 ∧ TicTacToe.otherPlayer g = p2)
   ∨ (TicTacToe.currentPlayer g = p2 ∧ TicTacToe.otherPlayer g = p1))
  ∧ three_by_three (TicTacToe.board g)
  ∧ (∀ r c s, TicTacToe.cell (TicTacToe.board g) r c = Some s →
              s = "_" ∨ s = TicTacToe.symbol p1 ∨ s = TicTacToe.symbol p2)
  ∧ (∀ t, TicTacToe.centerLockedBy g = Some t →
          t = TicTacToe.symbol p1 ∨ t = TicTacToe.symbol p2).

(** A game in which the first player takes both ends of a diagonal, the
    second is refused the centre, and the first wins on the last column. *)
Definition sample_game : list string :=
  ["Ann"; "X"; "Bob"; "O"; "a1"; "b1"; "c3"; "b2"; "c1"; "a3"; " a 2"; "b3"].

(** A game that ends with a full board. *)
Definition drawn_game : list string :=
  ["Ann"; "X"; "Bob"; "O";
   "b2"; "a1"; "a2"; "c2"; "b1"; "b3"; "a3"; "c1"; "c3"].

Definition ann : TicTacToe.Player := TicTacToe.mkPlayer "Ann" "X".
Definition bob : TicTacToe.Player := TicTacToe.mkPlayer "Bob" "O".

(** Where the two games end. *)
Definition sample_end : TicTacToe.Game :=
  default (TicTacToe.start ann bob []) (TicTacToe.main sample_game).

Definition drawn_end : TicTacToe.Game :=
  default (TicTacToe.start ann bob []) (TicTacToe.main drawn_game).

(** The game of Ann and Bob after Ann has taken A1. *)
Definition opening : TicTacToe.Game :=
  TicTacToe.play ["a1"]
    (TicTacToe.start ann bob [TicTacToe.Banner; TicTacToe.Registered ann bob]).

(** The players move in turn, the first registered first: who is on the
    move, or has moved last when the game has ended, follows from the number
    of cells of each. *)
Definition alternation (p1 p2 : TicTacToe.Player) (g : TicTacToe.Game)
  : Prop :=
  let n1 := count (TicTacToe.symbol p1) (TicTacToe.board g) in
  let n2 := count (TicTacToe.symbol p2) (TicTacToe.board g) in
  if TicTacToe.gameEnded g
  then TicTacToe.currentPlayer g = p1 ∧ n1 = S n2
       ∨ TicTacToe.currentPlayer g = p2 ∧ n1 = n2
  else TicTacToe.currentPlayer g = p1 ∧ n1 = n2
       ∨ TicTacToe.currentPlayer g = p2 ∧ n1 = S n2.

(** The game has ended exactly when the board shows why, and only the
    player who moved last can have a line. *)
Definition decided (g : TicTacToe.Game) : Prop :=
  let b := TicTacToe.board g in
  ¬ three_in_line b (TicTacToe.symbol (TicTacToe.otherPlayer g))
  ∧ (TicTacToe.gameEnded g = true
     ↔ three_in_line b (TicTacToe.symbol (TicTacToe.currentPlayer g))
       ∨ full b).

(** A lock is held by a player with both ends of a diagonal, and the centre
    is then empty or that player's. *)
Definition lock_sound (g : TicTacToe.Game) : Prop :=
  ∀ t, TicTacToe.centerLockedBy g = Some t →
       diagonal_ends (TicTacToe.board g) t
       ∧ (TicTacToe.cell (TicTacToe.board g) 1 1 = Some "_"
          ∨ TicTacToe.cell (TicTacToe.board g) 1 1 = Some t).

(** While the centre is empty, a player with both ends of a diagonal means
    that the centre is locked. *)
Definition lock_complete (p1 p2 : TicTacToe.Player) (g : TicTacToe.Game)
  : Prop :=
  TicTacToe.cell (TicTacToe.board g) 1 1 = Some "_" →
  ∀ p, p = p1 ∨ p = p2 →
       diagonal_ends (TicTacToe.board g) (TicTacToe.symbol p) →
       ∃ t, TicTacToe.centerLockedBy g = Some t.

(** * Properties *)

(** Case analysis on the tests of a method body. *)
Ltac case_ifs :=
  repeat match goal with
         | |- context [if ?b then _ else _] => destruct b
         end.

(** The same, innermost test first, keeping the outcome of each test. *)
Ltac case_inner_ifs :=
  repeat match goal with
         | |- context [if ?b then _ else _] =>
             lazymatch b with
             | context [if _ then _ else _] => fail
             | _ => destruct b eqn:?
             end
         end.

(** ** Submission *)

Lemma invalid_request_test s from to :
  invalid_request s from to ↔
  (from <? 1) || (sys_totalFloors s <? from) || (to <? 1)
  || (sys_totalFloors s <? to) || (from =? to) = true.
Proof.
  unfold invalid_request.
  rewrite !orb_true_iff, !Z.ltb_lt, Z.eqb_eq. tauto.
Qed.

(** C6: a submission with a floor outside [1, totalFloors] or with equal
    origin and destination only writes the notice on the console; the
    elevators (targets, passengers, floors, states), the pending queue and
    the tick counter are the ones before the call. *)
Theorem requestElevator_invalid_no_change uuid from to weight s :
  invalid_request s from to →
  let s' := requestElevator uuid from to weight s in
  elevators s' = elevators s
  ∧ pendingRequests s' = pendingRequests s
  ∧ sys_totalFloors s' = sys_totalFloors s
  ∧ tickCount s' = tickCount s
  ∧ console s' = console s ++ [LogInvalid from to].
Proof.
  intros Hinv. apply invalid_request_test in Hinv.
  unfold requestElevator. rewrite Hinv. simpl. auto.
Qed.

Lemma requestElevator_invalid_no_change_witness :
  let s := ElevatorSystem_new (Some 1) (Some 3) scenarioA_opts in
  invalid_request s 2 2
  ∧ pendingRequests (requestElevator "c" 2 2 (Some 70) s) = pendingRequests s.
Proof.
  assert (H : invalid_request
                (ElevatorSystem_new (Some 1) (Some 3) scenarioA_opts) 2 2)
    by (unfold invalid_request; lia).
  split; [exact H|].
  exact (proj1 (proj2 (requestElevator_invalid_no_change "c" 2 2 (Some 70) _ H))).
Defined.

Lemma tryAssignElevator_pending passenger s :
  pendingRequests (tryAssignElevator passenger s).1 =
  match (tryAssignElevator passenger s).2 with
  | Some _ => pendingRequests s ++ [passenger]
  | None => pendingRequests s
  end.
Proof.
  unfold tryAssignElevator.
  destruct (assignScan passenger (elevators s) 0 None) as [[best sc]|];
    reflexivity.
Qed.

(** C7: a valid submission appends the new request to the pending queue
    once, at its end, both when an elevator won the assignment and when
    none did; nothing is taken out of the queue. *)
Theorem requestElevator_valid_appends_once uuid from to weight s :
  1 ≤ from ≤ sys_totalFloors s →
  1 ≤ to ≤ sys_totalFloors s →
  from ≠ to →
  pendingRequests (requestElevator uuid from to weight s)
  = pendingRequests s ++ [Passenger_new uuid from to weight].
Proof.
  intros Hf Ht Hne. unfold requestElevator.
  assert (Hv : (from <? 1) || (sys_totalFloors s <? from) || (to <? 1)
               || (sys_totalFloors s <? to) || (from =? to) = false).
  { rewrite !orb_false_iff, !Z.ltb_ge, Z.eqb_neq. lia. }
  rewrite Hv.
  pose proof (tryAssignElevator_pending (Passenger_new uuid from to weight) s)
    as Hq.
  destruct (tryAssignElevator (Passenger_new uuid from to weight) s)
    as [s1 [assigned|]] eqn:Hassign; simpl in *.
  - exact Hq.
  - rewrite Hq. reflexivity.
Qed.

Lemma requestElevator_valid_appends_once_witness :
  pendingRequests scenarioA = [Passenger_new "a" 1 3 (Some 70)].
Proof.
  apply (requestElevator_valid_appends_once "a" 1 3 (Some 70)
           (ElevatorSystem_new (Some 1) (Some 3) scenarioA_opts));
    simpl; lia.
Defined.

(** Without any elevator no assignment succeeds, and the request is queued
    all the same. *)
Lemma request_queued_without_elevator :
  let s := ElevatorSystem_new (Some 0) (Some 3) scenarioA_opts in
  (tryAssignElevator (Passenger_new "a" 1 3 None) s).2 = None
  ∧ pendingRequests (requestElevator "a" 1 3 None s)
    = [Passenger_new "a" 1 3 None].
Proof. split; vm_compute; reflexivity. Qed.

(** ** Construction *)

(** Against C9 as stated:
    [new ElevatorSystem(2, 0, {maxPeople: -1, maxWeight: -5})] returns a
    system with two elevators at floor 1 of a building without floors. *)
Lemma construct_accepts_malformed :
  malformed (Some 0) malformed_opts
  ∧ construct (Some 2) (Some 0) malformed_opts = Returns floorless
  ∧ length (elevators floorless) = 2%nat
  ∧ Forall (λ e, currentFloor e = 1 ∧ totalFloors e = 0
                 ∧ maxPeople e = -1 ∧ maxWeight e = -5) (elevators floorless)
  ∧ ¬ rejects_malformed.
Proof.
  assert (Hm : malformed (Some 0) malformed_opts) by (left; simpl; lia).
  split; [exact Hm|]. split; [reflexivity|]. split; [reflexivity|].
  split; [repeat constructor|].
  intros H. specialize (H (Some 2) (Some 0) malformed_opts Hm). discriminate H.
Qed.

Lemma length_seqZ_fmap {A} (f : Z → A) m n :
  length (f <$> seqZ m n) = Z.to_nat n.
Proof. rewrite length_fmap. apply length_seqZ. Qed.

(** C9, as the code has it: construction checks nothing and never rejects.
    Every call returns a system with [numElevators] idle, empty elevators at
    floor 1 (none when the number is not positive), an empty queue and tick
    count 0; the floor count is taken as given, and each capacity limit is
    the option's value, or the default (8 people, 680 kg) when the option is
    absent or zero. *)
Theorem construct_never_rejects numElevators floors opts :
  ∃ s, construct numElevators floors opts = Returns s
       ∧ length (elevators s) = Z.to_nat (default 3 numElevators)
       ∧ sys_totalFloors s = default 10 floors
       ∧ pendingRequests s = []
       ∧ tickCount s = 0
       ∧ Forall (λ e, totalFloors e = default 10 floors
                      ∧ maxPeople e = or_else (opt_maxPeople opts) 8
                      ∧ maxWeight e = or_else (opt_maxWeight opts) 680
                      ∧ currentFloor e = 1 ∧ state e = IDLE
                      ∧ direction e = NONE
                      ∧ passengers e = [] ∧ targets e = [])
           (elevators s).
Proof.
  eexists. split; [reflexivity|]. simpl.
  split; [apply length_seqZ_fmap|].
  repeat split.
  apply Forall_fmap, Forall_true. intros i. simpl. auto 10.
Qed.

(** ** The state machine of one elevator *)

Lemma closer_fold_some cur ts t d :
  ∃ b bd, foldl (closer cur) (Some (t, d)) ts = Some (b, bd)
          ∧ (b = t ∨ b ∈ ts).
Proof.
  revert t d. induction ts as [|x ts IH]; intros t d; simpl.
  - exists t, d. auto.
  - destruct (Z.abs (cur - x) <? d).
    + destruct (IH x (Z.abs (cur - x))) as (b & bd & Hb & Hin).
      exists b, bd. split; [exact Hb|]. right.
      destruct Hin as [Heq|Hin]; [subst b; left | by right].
    + destruct (IH t d) as (b & bd & Hb & Hin).
      exists b, bd. split; [exact Hb|].
      destruct Hin as [Heq|Hin]; [by left | right; by right].
Qed.

Lemma closestTarget_elem e :
  targets e ≠ [] → closestTarget e ∈ targets e.
Proof.
  intros Hne. unfold closestTarget, JSSet.size.
  destruct (targets e) as [|t ts] eqn:Hts; [done|].
  assert (Hsz : (Z.of_nat (length (t :: ts)) =? 0) = false)
    by (apply Z.eqb_neq; simpl; lia).
  rewrite Hsz.
  simpl.
  destruct (closer_fold_some (currentFloor e) ts t
              (Z.abs (currentFloor e - t))) as (b & bd & Hfold & Hin).
  rewrite Hfold.
  destruct Hin as [Heq|Hin]; [subst b; left | by right].
Qed.

Lemma size_pos_iff (ts : JSSet.t) : (0 <? JSSet.size ts) = true ↔ ts ≠ [].
Proof.
  unfold JSSet.size. rewrite Z.ltb_lt.
  destruct ts; simpl; split; intros; try done; lia.
Qed.

(** C10: in CLOSE_DOOR with a non-empty target set whose nearest target is
    the current floor, the tick sets the direction to DOWN and the state to
    MOVING; the doors are not reopened, the floor, the targets and the queue
    stay as they are, and the current floor is still among the targets. *)
Theorem stepTick_close_door_departs_down e pending :
  state e = CLOSE_DOOR →
  targets e ≠ [] →
  closestTarget e = currentFloor e →
  let e' := elevator_of (stepTick e pending) in
  stepTick e pending = (set_state MOVING (set_direction DOWN e), pending, [])
  ∧ state e' = MOVING ∧ direction e' = DOWN
  ∧ currentFloor e' = currentFloor e
  ∧ targets e' = targets e
  ∧ currentFloor e' ∈ targets e'.
Proof.
  intros Hst Hne Hnear.
  assert (Hstep : stepTick e pending
                  = (set_state MOVING (set_direction DOWN e), pending, [])).
  { unfold stepTick. rewrite Hst.
    apply size_pos_iff in Hne as ->. rewrite Hnear, Z.ltb_irrefl. reflexivity. }
  simpl. unfold elevator_of. rewrite Hstep. simpl.
  repeat split. rewrite <- Hnear. apply closestTarget_elem.
  intros Hnil. apply size_pos_iff in Hnil; [done|]. by apply size_pos_iff.
Qed.

Lemma stepTick_close_door_departs_down_witness :
  state closing_at_ground = CLOSE_DOOR
  ∧ targets closing_at_ground = [1; 3]
  ∧ currentFloor closing_at_ground = 1
  ∧ direction (elevator_of (stepTick closing_at_ground [])) = DOWN.
Proof.
  repeat (split; [vm_compute; reflexivity|]).
  apply (stepTick_close_door_departs_down closing_at_ground []);
    vm_compute; congruence.
Defined.

(** Against C2 as stated: in scenario A, three ticks after the request, the
    elevator is MOVING with direction DOWN at floor 1, and the next tick
    leaves it at floor 1. *)
Lemma moving_down_at_ground_floor_stalls :
  elevators (run scenarioA [Tick; Tick; Tick]) = [departing_ground]
  ∧ state departing_ground = MOVING
  ∧ direction departing_ground = DOWN
  ∧ currentFloor departing_ground = 1
  ∧ currentFloor (elevator_of (stepTick departing_ground [])) = 1
  ∧ ¬ moves_one_floor departing_ground [].
Proof.
  repeat (split; [vm_compute; reflexivity|]).
  intros H.
  destruct (H ltac:(vm_compute; reflexivity)) as [[Hup _]|[_ Hfloor]].
  - vm_compute in Hup. discriminate Hup.
  - vm_compute in Hfloor. discriminate Hfloor.
Qed.

Lemma currentFloor_after_arrival e1 :
  currentFloor
    (if JSSet.has (currentFloor e1) (targets e1) then
       set_doorTimer 2
         (set_state OPEN_DOOR
            (set_targets (JSSet.delete (currentFloor e1) (targets e1)) e1))
     else e1) = currentFloor e1.
Proof. destruct (JSSet.has _ _); reflexivity. Qed.

Lemma stepTick_moving_floor e pending :
  state e = MOVING →
  currentFloor (elevator_of (stepTick e pending)) =
  match direction e with
  | UP => if currentFloor e <? totalFloors e then currentFloor e + 1
          else currentFloor e
  | DOWN => if 1 <? currentFloor e then currentFloor e - 1
            else currentFloor e
  | NONE => currentFloor e
  end.
Proof.
  intros Hst. unfold stepTick, elevator_of. rewrite Hst.
  match goal with
  | |- currentFloor (if JSSet.has (currentFloor ?x) _ then _ else _).1.1 = _ =>
      pose proof (currentFloor_after_arrival x) as Hx
  end.
  destruct (JSSet.has _ _); simpl in *;
    destruct (direction e); simpl;
    case_ifs; reflexivity.
Qed.

(** C2, as the code has it: a tick of a MOVING elevator raises the floor by
    one when the direction is UP and the floor is below [totalFloors],
    lowers it by one when the direction is DOWN and the floor is above 1,
    and leaves the floor where it is at the boundary in the direction of
    travel (or without a direction). *)
Theorem stepTick_moving_one_floor_or_stall e pending :
  state e = MOVING →
  let e' := elevator_of (stepTick e pending) in
  (direction e = UP → currentFloor e < totalFloors e →
   currentFloor e' = currentFloor e + 1)
  ∧ (direction e = DOWN → 1 < currentFloor e →
     currentFloor e' = currentFloor e - 1)
  ∧ (direction e = UP → totalFloors e ≤ currentFloor e →
     currentFloor e' = currentFloor e)
  ∧ (direction e = DOWN → currentFloor e ≤ 1 →
     currentFloor e' = currentFloor e)
  ∧ (direction e = NONE → currentFloor e' = currentFloor e)
  ∧ totalFloors e' = totalFloors e.
Proof.
  intros Hst e'. subst e'.
  rewrite (stepTick_moving_floor e pending Hst).
  repeat split; try (intros Hd; rewrite Hd; intros; try reflexivity).
  - apply Z.ltb_lt in H as ->. reflexivity.
  - apply Z.ltb_lt in H as ->. reflexivity.
  - apply Z.ltb_ge in H as ->. reflexivity.
  - apply Z.ltb_ge in H as ->. reflexivity.
  - unfold stepTick, elevator_of. rewrite Hst.
    destruct (direction e); simpl;
      case_ifs; reflexivity.
Qed.

Lemma stepTick_moving_one_floor_or_stall_witness :
  state going_up = MOVING ∧ direction going_up = UP
  ∧ currentFloor (elevator_of (stepTick going_up [])) = currentFloor going_up + 1.
Proof.
  split; [vm_compute; reflexivity|]. split; [vm_compute; reflexivity|].
  apply (stepTick_moving_one_floor_or_stall going_up []); vm_compute; reflexivity.
Defined.

(** ** Boarding *)

Lemma boardingLoop_log n : ∀ e q log,
  boardingLoop n e q log =
  let '(e', q', evs) := boardingLoop n e q [] in (e', q', log ++ evs).
Proof.
  induction n as [|i IH]; intros e q log; simpl.
  - by rewrite app_nil_r.
  - destruct (q !! i) as [req|]; [|by rewrite app_nil_r].
    case_inner_ifs; simpl;
      try (by rewrite app_nil_r); try apply IH.
    rewrite (IH _ _ (log ++ _)), (IH _ _ [_]).
    destruct (boardingLoop i _ _ []) as [[e' q'] evs].
    by rewrite <- app_assoc.
Qed.

Lemma size_zero_iff (ts : JSSet.t) : (JSSet.size ts =? 0) = true ↔ ts = [].
Proof.
  unfold JSSet.size. rewrite Z.eqb_eq.
  destruct ts; simpl; split; intros; try done; lia.
Qed.

Lemma direction_admits_test e req :
  bool_decide (direction e = NONE)
  || bool_decide (direction e = reqDirOf req)
  || (JSSet.size (targets e) =? 0) = true
  ↔ direction_admits e req.
Proof.
  unfold direction_admits.
  rewrite !orb_true_iff, !bool_decide_eq_true, size_zero_iff. tauto.
Qed.

Lemma fits_test e req :
  negb (maxPeople e <? occupancyCount e + 1)
  && negb (maxWeight e <? occupancyWeight e + p_weight req) = true
  ↔ fits e req.
Proof.
  unfold fits.
  rewrite andb_true_iff, !negb_true_iff, !Z.ltb_ge. tauto.
Qed.

Section BoardingStep.
Context (i : nat) (e : Elevator) (q : list Passenger) (log : list LogEvent)
        (req : Passenger).
Hypothesis Hreq : q !! i = Some req.

Lemma boardingLoop_other_floor :
  p_from req ≠ currentFloor e →
  boardingLoop (S i) e q log = boardingLoop i e q log.
Proof.
  intros Hne. cbn [boardingLoop]. rewrite Hreq.
  apply Z.eqb_neq in Hne as ->. reflexivity.
Qed.

Lemma boardingLoop_other_direction :
  ¬ direction_admits e req →
  boardingLoop (S i) e q log = boardingLoop i e q log.
Proof.
  intros Hdir. cbn [boardingLoop]. rewrite Hreq.
  rewrite <- direction_admits_test in Hdir.
  apply not_true_is_false in Hdir. rewrite Hdir.
  destruct (negb _); [done|]. by destruct (bool_decide (state e = _)).
Qed.

Hypothesis Hfloor : p_from req = currentFloor e.
Hypothesis Hopen : state e = OPEN_DOOR.
Hypothesis Hdir : direction_admits e req.

Lemma boardingLoop_admit :
  fits e req →
  boardingLoop (S i) e q log =
  boardingLoop i (board req e) (delete i q)
    (log ++ [LogBoarded (el_id e) (currentFloor e) (p_to req) (p_weight req)]).
Proof.
  intros Hfit. cbn [boardingLoop]. rewrite Hreq.
  apply Z.eqb_eq in Hfloor as ->. cbn [negb].
  rewrite bool_decide_eq_true_2 by done.
  apply direction_admits_test in Hdir as ->.
  apply fits_test in Hfit as ->. reflexivity.
Qed.

Lemma boardingLoop_no_room :
  ¬ fits e req → isFull e = false →
  boardingLoop (S i) e q log = boardingLoop i e q log.
Proof.
  intros Hfit Hfull. cbn [boardingLoop]. rewrite Hreq.
  apply Z.eqb_eq in Hfloor as ->. cbn [negb].
  rewrite bool_decide_eq_true_2 by done.
  apply direction_admits_test in Hdir as ->.
  rewrite <- fits_test in Hfit. apply not_true_is_false in Hfit as ->.
  by rewrite Hfull.
Qed.

Lemma boardingLoop_full :
  ¬ fits e req → isFull e = true →
  boardingLoop (S i) e q log = (e, q, log).
Proof.
  intros Hfit Hfull. cbn [boardingLoop]. rewrite Hreq.
  apply Z.eqb_eq in Hfloor as ->. cbn [negb].
  rewrite bool_decide_eq_true_2 by done.
  apply direction_admits_test in Hdir as ->.
  rewrite <- fits_test in Hfit. apply not_true_is_false in Hfit as ->.
  by rewrite Hfull.
Qed.
End BoardingStep.

(** Entries behind the scanned part of the queue stay where they are. *)
Lemma boardingLoop_app n : ∀ e q suffix log,
  (n ≤ length q)%nat →
  boardingLoop n e (q ++ suffix) log =
  let '(e', q', evs) := boardingLoop n e q log in (e', q' ++ suffix, evs).
Proof.
  induction n as [|i IH]; intros e q suffix log Hlen; [done|].
  cbn [boardingLoop].
  rewrite lookup_app_l by lia.
  destruct (q !! i) as [req|] eqn:Hreq; [|done].
  assert (Hdel : delete i (q ++ suffix) = delete i q ++ suffix).
  { rewrite !delete_take_drop, take_app_le, drop_app_le by lia.
    by rewrite app_assoc. }
  assert (Hlen' : (i ≤ length (delete i q))%nat).
  { rewrite length_delete by eauto. lia. }
  case_inner_ifs; try done; try (apply IH; lia).
  rewrite Hdel. apply IH. lia.
Qed.

Lemma JSSet_add_elem x s : x ∈ JSSet.add x s.
Proof.
  unfold JSSet.add, JSSet.has. case_bool_decide; [done|].
  apply elem_of_app. right. by apply list_elem_of_singleton.
Qed.

Lemma JSSet_add_mono x y s : y ∈ s → y ∈ JSSet.add x s.
Proof.
  intros Hy. unfold JSSet.add. destruct (JSSet.has x s); [done|].
  apply elem_of_app. by left.
Qed.

Lemma handleBoardings_snoc e q r :
  handleBoardings e (q ++ [r]) = boardingLoop (S (length q)) e (q ++ [r]) [].
Proof. unfold handleBoardings. by rewrite length_app, Nat.add_1_r. Qed.

Lemma boardingLoop_keep_last e q r :
  boardingLoop (length q) e (q ++ [r]) [] =
  let '(e', q', evs) := handleBoardings e q in (e', q' ++ [r], evs).
Proof. by apply boardingLoop_app. Qed.

Lemma handleBoardings_refines q : ∀ e,
  state e = OPEN_DOOR →
  ∃ adm, Boarding e q (elevator_of (handleBoardings e q))
           (queue_of (handleBoardings e q)) adm.
Proof.
  induction q as [|r q IH] using rev_ind; intros e Hopen.
  - exists []. apply Boarding_done.
  - rewrite handleBoardings_snoc.
    assert (Hreq : (q ++ [r]) !! length q = Some r)
      by apply list_lookup_middle, eq_refl.
    destruct (decide (p_from r = currentFloor e)) as [Hfloor|Hfloor];
      [destruct (decide (direction_admits e r)) as [Hdir|Hdir];
       [destruct (decide (fits e r)) as [Hfit|Hfit];
        [|destruct (isFull e) eqn:Hfull]|]|].
    + rewrite (boardingLoop_admit _ _ _ _ _ Hreq) by done.
      rewrite boardingLoop_log.
      replace (delete (length q) (q ++ [r])) with q
        by (rewrite delete_middle; by rewrite app_nil_r).
      destruct (IH (board r e) Hopen) as [adm Hadm].
      fold (handleBoardings (board r e) q).
      destruct (handleBoardings (board r e) q) as [[e' q'] evs].
      exists (r :: adm). by apply Boarding_admit.
    + rewrite (boardingLoop_full _ _ _ _ _ Hreq) by done.
      exists []. by apply Boarding_full.
    + rewrite (boardingLoop_no_room _ _ _ _ _ Hreq) by done.
      rewrite boardingLoop_keep_last.
      destruct (IH e Hopen) as [adm Hadm].
      destruct (handleBoardings e q) as [[e' q'] evs].
      exists adm. by apply Boarding_no_room.
    + rewrite (boardingLoop_other_direction _ _ _ _ _ Hreq) by done.
      rewrite boardingLoop_keep_last.
      destruct (IH e Hopen) as [adm Hadm].
      destruct (handleBoardings e q) as [[e' q'] evs].
      exists adm. by apply Boarding_other_direction.
    + rewrite (boardingLoop_other_floor _ _ _ _ _ Hreq) by done.
      rewrite boardingLoop_keep_last.
      destruct (IH e Hopen) as [adm Hadm].
      destruct (handleBoardings e q) as [[e' q'] evs].
      exists adm. by apply Boarding_other_floor.
Qed.

(** What a scan leaves behind, read off its derivation. *)
Lemma Boarding_outcome e q e' q' adm :
  Boarding e q e' q' adm →
  passengers e' = passengers e ++ adm
  ∧ q ≡ₚ q' ++ adm
  ∧ q' `sublist_of` q
  ∧ (∀ t, t ∈ targets e → t ∈ targets e')
  ∧ Forall (λ r, p_to r ∈ targets e') adm
  ∧ Forall (λ r, p_from r = currentFloor e) adm
  ∧ same_cabin e e'
  ∧ state e' = state e ∧ direction e' = direction e
  ∧ doorTimer e' = doorTimer e.
Proof.
  unfold same_cabin.
  induction 1 as [e|e q r e' q' adm Hfl _ IH|e q r e' q' adm Hfl Hd Hf _ IH
                 |e q r e' q' adm Hfl Hd _ IH|e q r e' q' adm Hfl Hd Hf Hfull _ IH
                 |e q r Hfl Hd Hf Hfull].
  - rewrite app_nil_r. repeat split; auto.
  - destruct IH as (Hp & Hq & Hsub & Ht & Hto & Hfrom & Hcab & Hrest).
    repeat split; try tauto.
    + rewrite Hq. rewrite <- !app_assoc. apply Permutation_app_head,
        Permutation_app_comm.
    + by apply sublist_app.
  - destruct IH as (Hp & Hq & Hsub & Ht & Hto & Hfrom & Hcab & Hrest).
    simpl in *. repeat split; try tauto.
    + rewrite Hp. by rewrite <- app_assoc.
    + rewrite Hq. rewrite <- app_assoc.
      apply Permutation_app_head. symmetry. apply Permutation_cons_append.
    + transitivity q; [done|]. by apply sublist_inserts_r.
    + intros t Hin. by apply Ht, JSSet_add_mono.
    + constructor; [|done]. apply Ht, JSSet_add_elem.
    + constructor; [done|]. tauto.
  - destruct IH as (Hp & Hq & Hsub & Ht & Hto & Hfrom & Hcab & Hrest).
    repeat split; try tauto.
    + rewrite Hq. rewrite <- !app_assoc. apply Permutation_app_head,
        Permutation_app_comm.
    + by apply sublist_app.
  - destruct IH as (Hp & Hq & Hsub & Ht & Hto & Hfrom & Hcab & Hrest).
    repeat split; try tauto.
    + rewrite Hq. rewrite <- !app_assoc. apply Permutation_app_head,
        Permutation_app_comm.
    + by apply sublist_app.
  - rewrite !app_nil_r. repeat split; auto.
Qed.





(** Scenario B: the later request boards, the earlier one stays queued. *)
Lemma scenarioB_boarding :
  passengers (elevator_of (handleBoardings single_cabin two_waiting))
  = [Passenger_new "q" 1 2 None]
  ∧ queue_of (handleBoardings single_cabin two_waiting)
    = [Passenger_new "p" 1 3 None].
Proof. split; vm_compute; reflexivity. Qed.

(** ** Occupancy *)

Lemma foldl_weight_acc ps : ∀ a,
  foldl (λ s p, s + p_weight p) a ps = a + weight_of ps.
Proof.
  unfold weight_of.
  induction ps as [|p ps IH]; intros a; simpl; [lia|].
  rewrite (IH (a + p_weight p)), (IH (0 + p_weight p)). lia.
Qed.

Lemma weight_of_cons p ps : weight_of (p :: ps) = p_weight p + weight_of ps.
Proof. unfold weight_of at 1. simpl. rewrite foldl_weight_acc. lia. Qed.

Lemma weight_of_app ps qs : weight_of (ps ++ qs) = weight_of ps + weight_of qs.
Proof.
  induction ps as [|p ps IH]; simpl; [done|].
  rewrite !weight_of_cons, IH. lia.
Qed.

Lemma weight_of_nonneg ps : Forall nonneg_weight ps → 0 ≤ weight_of ps.
Proof.
  induction 1 as [|p ps Hp _ IH]; [done|].
  rewrite weight_of_cons. unfold nonneg_weight in Hp. lia.
Qed.

Lemma weight_of_filter (P : Passenger → Prop) `{∀ p, Decision (P p)} ps :
  Forall nonneg_weight ps → weight_of (filter P ps) ≤ weight_of ps.
Proof.
  induction 1 as [|p ps Hp _ IH]; [done|].
  rewrite filter_cons. unfold nonneg_weight in Hp.
  destruct (decide (P p)); rewrite !weight_of_cons; lia.
Qed.

Lemma occupancyWeight_board r e :
  occupancyWeight (board r e) = occupancyWeight e + p_weight r.
Proof.
  unfold occupancyWeight. simpl. rewrite foldl_app. reflexivity.
Qed.

Lemma occupancyCount_board r e :
  occupancyCount (board r e) = occupancyCount e + 1.
Proof. unfold occupancyCount. simpl. rewrite length_app. simpl. lia. Qed.

(** No admission takes the elevator over a limit it respected. *)
Lemma Boarding_capacity e q e' q' adm :
  Boarding e q e' q' adm →
  (occupancyCount e ≤ maxPeople e → occupancyCount e' ≤ maxPeople e')
  ∧ (occupancyWeight e ≤ maxWeight e → occupancyWeight e' ≤ maxWeight e').
Proof.
  induction 1 as [e|e q r e' q' adm Hfl _ IH|e q r e' q' adm Hfl Hd Hf _ IH
                 |e q r e' q' adm Hfl Hd _ IH|e q r e' q' adm Hfl Hd Hf Hfull _ IH
                 |e q r Hfl Hd Hf Hfull]; try tauto.
  destruct Hf as [Hcount Hweight].
  rewrite occupancyCount_board, occupancyWeight_board in IH.
  simpl in IH. split; intros _; apply IH; lia.
Qed.

Lemma handleBoardings_closed e q :
  state e ≠ OPEN_DOOR → handleBoardings e q = (e, q, []).
Proof.
  intros Hst. unfold handleBoardings.
  assert (Hloop : ∀ n l, boardingLoop n e q l = (e, q, l)).
  { induction n as [|i IH]; intros l; [done|]. cbn [boardingLoop].
    destruct (q !! i); [|done].
    rewrite bool_decide_eq_false_2 by done.
    destruct (negb _); apply IH. }
  apply Hloop.
Qed.

Lemma handleBoardings_capacity e q :
  let e' := elevator_of (handleBoardings e q) in
  (occupancyCount e ≤ maxPeople e → occupancyCount e' ≤ maxPeople e')
  ∧ (occupancyWeight e ≤ maxWeight e → occupancyWeight e' ≤ maxWeight e').
Proof.
  destruct (decide (state e = OPEN_DOOR)) as [Hopen|Hclosed].
  - destruct (handleBoardings_refines q e Hopen) as [adm Hadm].
    eapply Boarding_capacity, Hadm.
  - rewrite handleBoardings_closed by done. simpl. tauto.
Qed.

(** ** One tick of one elevator *)

Lemma handleAlightings_fields e :
  let e1 := (handleAlightings e).1 in
  passengers e1 = filter (λ p, p_to p ≠ currentFloor e) (passengers e)
  ∧ same_cabin e e1
  ∧ state e1 = state e ∧ direction e1 = direction e
  ∧ targets e1 = targets e ∧ doorTimer e1 = doorTimer e.
Proof.
  unfold handleAlightings, same_cabin.
  destruct (passengers e) as [|p ps] eqn:Hps; simpl; auto 10.
Qed.

(** A tick with the doors open: passengers alight, the queue is scanned by
    [Boarding], the door timer runs down. *)
Lemma stepTick_open_door e q :
  state e = OPEN_DOOR →
  let e' := elevator_of (stepTick e q) in
  ∃ e2 adm,
    Boarding (handleAlightings e).1 q e2 (queue_of (stepTick e q)) adm
    ∧ passengers e' = passengers e2 ∧ targets e' = targets e2
    ∧ same_cabin e2 e' ∧ direction e' = direction e2
    ∧ doorTimer e' = doorTimer e2 - 1
    ∧ state e' = (if doorTimer e2 - 1 <=? 0 then CLOSE_DOOR else OPEN_DOOR).
Proof.
  intros Hopen.
  pose proof (handleAlightings_fields e) as (_ & _ & Hst1 & _).
  unfold stepTick, elevator_of, queue_of. rewrite Hopen.
  destruct (handleAlightings e) as [e1 log1]. simpl in Hst1.
  assert (Hopen1 : state e1 = OPEN_DOOR) by congruence.
  destruct (handleBoardings_refines q e1 Hopen1) as [adm Hadm].
  pose proof (Boarding_outcome _ _ _ _ _ Hadm) as Hout.
  unfold elevator_of, queue_of in Hadm, Hout.
  destruct (handleBoardings e1 q) as [[e2 q'] log2]. simpl in *.
  exists e2, adm. split; [exact Hadm|].
  assert (Hst2 : state e2 = OPEN_DOOR) by (destruct Hout; intuition congruence).
  unfold same_cabin.
  destruct (doorTimer e2 - 1 <=? 0); simpl; rewrite ?Hst2; auto 10.
Qed.

Lemma stepTick_queue_other e q :
  state e ≠ OPEN_DOOR → queue_of (stepTick e q) = q.
Proof.
  intros Hst. unfold stepTick, queue_of.
  destruct (state e); try done;
    case_ifs; reflexivity.
Qed.

Lemma stepTick_queue_sublist e q : queue_of (stepTick e q) `sublist_of` q.
Proof.
  destruct (decide (state e = OPEN_DOOR)) as [Hopen|Hother].
  - destruct (stepTick_open_door e q Hopen) as (e2 & adm & Hscan & _).
    apply Boarding_outcome in Hscan. tauto.
  - by rewrite stepTick_queue_other.
Qed.

(** The fixed fields of an elevator, and how far a tick moves it. *)
Lemma stepTick_cabin e q :
  let e' := elevator_of (stepTick e q) in
  el_id e' = el_id e ∧ totalFloors e' = totalFloors e
  ∧ maxPeople e' = maxPeople e ∧ maxWeight e' = maxWeight e
  ∧ (currentFloor e' = currentFloor e
     ∨ (currentFloor e' = currentFloor e + 1 ∧ currentFloor e < totalFloors e)
     ∨ (currentFloor e' = currentFloor e - 1 ∧ 1 < currentFloor e)).
Proof.
  destruct (state e) eqn:Hst.
  - unfold stepTick, elevator_of. rewrite Hst.
    case_ifs; simpl; auto 10.
  - pose proof (stepTick_moving_floor e q Hst) as Hfloor.
    cbv zeta. rewrite Hfloor.
    assert (Hfix : el_id (elevator_of (stepTick e q)) = el_id e
                   ∧ totalFloors (elevator_of (stepTick e q)) = totalFloors e
                   ∧ maxPeople (elevator_of (stepTick e q)) = maxPeople e
                   ∧ maxWeight (elevator_of (stepTick e q)) = maxWeight e).
    { unfold stepTick, elevator_of. rewrite Hst.
      destruct (direction e); simpl;
        case_ifs; simpl; auto. }
    destruct Hfix as (-> & -> & -> & ->). repeat split.
    destruct (direction e); [| |by left].
    + destruct (currentFloor e <? totalFloors e) eqn:Hlt; [|by left].
      apply Z.ltb_lt in Hlt. right. left. done.
    + destruct (1 <? currentFloor e) eqn:Hlt; [|by left].
      apply Z.ltb_lt in Hlt. right. right. done.
  - destruct (stepTick_open_door e q Hst) as (e2 & adm & Hscan & _ & _ & Hcab & _).
    apply Boarding_outcome in Hscan.
    pose proof (handleAlightings_fields e) as (_ & Hcab1 & _).
    unfold same_cabin in *. cbv zeta in *.
    destruct Hscan as (_ & _ & _ & _ & _ & _ & Hcab2 & _).
    intuition congruence.
  - unfold stepTick, elevator_of. rewrite Hst.
    case_ifs; simpl; auto 10.
Qed.

Lemma addTarget_cabin floor e :
  same_cabin e (addTarget floor e)
  ∧ passengers (addTarget floor e) = passengers e.
Proof.
  unfold addTarget, same_cabin.
  destruct (_ || _); [auto 10|]. simpl.
  destruct (state e); simpl; auto 10.
  destruct (currentFloor e =? floor); simpl; auto 10.
Qed.

Lemma stepTick_floor_in_range e q :
  floor_in_range e → floor_in_range (elevator_of (stepTick e q)).
Proof.
  unfold floor_in_range.
  pose proof (stepTick_cabin e q) as (_ & Htot & _ & _ & Hfloor).
  cbv zeta in *. rewrite Htot. lia.
Qed.

Lemma addTarget_floor_in_range floor e :
  floor_in_range e → floor_in_range (addTarget floor e).
Proof.
  unfold floor_in_range.
  pose proof (addTarget_cabin floor e) as [(_ & Htot & Hfloor & _) _].
  rewrite Htot, Hfloor. done.
Qed.

Lemma Forall_sublist {A} (P : A → Prop) (l1 l2 : list A) :
  l1 `sublist_of` l2 → Forall P l2 → Forall P l1.
Proof.
  induction 1 as [|x l1 l2 _ IH|x l1 l2 _ IH]; intros Hall; [done| |].
  - apply Forall_cons in Hall as [Hx Hall]. constructor; auto.
  - apply Forall_cons in Hall as [_ Hall]. auto.
Qed.

Lemma stepTick_passengers_other e q :
  state e ≠ OPEN_DOOR → passengers (elevator_of (stepTick e q)) = passengers e.
Proof.
  intros Hst. unfold stepTick, elevator_of.
  destruct (state e); try done; destruct (direction e);
    case_ifs; reflexivity.
Qed.

Lemma stepTick_capacity_inv e q :
  capacity_inv e → Forall nonneg_weight q →
  capacity_inv (elevator_of (stepTick e q)).
Proof.
  intros (Hcount & Hweight & Hpos) Hq.
  pose proof (stepTick_cabin e q) as (_ & _ & HmaxP & HmaxW & _).
  cbv zeta in *. unfold capacity_inv.
  destruct (decide (state e = OPEN_DOOR)) as [Hopen|Hother].
  - destruct (stepTick_open_door e q Hopen)
      as (e2 & adm & Hscan & Hpass & _ & Hcab & _).
    pose proof (handleAlightings_fields e) as (Hpass1 & Hcab1 & _).
    pose proof (Boarding_capacity _ _ _ _ _ Hscan) as [Hc2 Hw2].
    pose proof (Boarding_outcome _ _ _ _ _ Hscan)
      as (Hpass2 & Hperm & _ & _ & _ & _ & Hcab2 & _).
    cbv zeta in *. unfold same_cabin in *.
    set (e1 := (handleAlightings e).1) in *.
    assert (Hpos1 : Forall nonneg_weight (passengers e1))
      by (rewrite Hpass1; eapply Forall_sublist, Hpos; apply sublist_filter).
    assert (Hc1 : occupancyCount e1 ≤ maxPeople e1).
    { unfold occupancyCount in *. rewrite Hpass1.
      pose proof (length_filter (λ p, p_to p ≠ currentFloor e) (passengers e)).
      destruct Hcab1 as (_ & _ & _ & -> & _). lia. }
    assert (Hw1 : occupancyWeight e1 ≤ maxWeight e1).
    { unfold occupancyWeight in *. rewrite Hpass1.
      pose proof (weight_of_filter (λ p, p_to p ≠ currentFloor e) _ Hpos)
        as Hle. unfold weight_of in Hle.
      destruct Hcab1 as (_ & _ & _ & _ & ->). lia. }
    assert (Hadm : Forall nonneg_weight adm).
    { rewrite Hperm in Hq. by apply Forall_app in Hq as [_ Hq]. }
    unfold occupancyCount, occupancyWeight in *.
    rewrite Hpass.
    destruct Hcab as (_ & _ & _ & -> & ->).
    split; [auto|]. split; [auto|].
    rewrite Hpass2. by apply Forall_app.
  - unfold occupancyCount, occupancyWeight in *.
    rewrite stepTick_passengers_other, HmaxP, HmaxW by done. auto.
Qed.

Lemma addTarget_capacity_inv floor e :
  capacity_inv e → capacity_inv (addTarget floor e).
Proof.
  unfold capacity_inv, occupancyCount, occupancyWeight.
  pose proof (addTarget_cabin floor e) as [(_ & _ & _ & -> & ->) ->]. done.
Qed.

Lemma capacity_inv_within e : capacity_inv e → within_capacity e.
Proof.
  intros (Hcount & Hweight & Hpos). unfold within_capacity.
  pose proof (weight_of_nonneg _ Hpos) as Hw.
  unfold weight_of in Hw. unfold occupancyCount, occupancyWeight in *. lia.
Qed.

(** ** Invariants along a run *)

Section SystemInvariant.
Variable I : Elevator → Prop.
Variable Q : Passenger → Prop.
Hypothesis I_addTarget : ∀ floor e, I e → I (addTarget floor e).
Hypothesis I_stepTick :
  ∀ e q, I e → Forall Q q → I (elevator_of (stepTick e q)).

Lemma tryAssignElevatorDirect_inv r s :
  system_inv I Q s → system_inv I Q (tryAssignElevatorDirect r s).1.
Proof.
  intros [Hels Hq]. unfold tryAssignElevatorDirect.
  destruct (assignScanDirect _ _ _ _) as [[best sc]|]; [|done].
  split; [|done]. simpl. apply Forall_alter; auto.
Qed.

Lemma tryAssignElevator_inv r s :
  Q r → system_inv I Q s → system_inv I Q (tryAssignElevator r s).1.
Proof.
  intros Hr [Hels Hq]. unfold tryAssignElevator.
  destruct (assignScan _ _ _ _) as [[best sc]|]; [|done].
  split; simpl.
  - apply Forall_alter; auto.
  - apply Forall_app. auto.
Qed.

Lemma requestElevator_inv uuid from to weight s :
  Q (Passenger_new uuid from to weight) →
  system_inv I Q s → system_inv I Q (requestElevator uuid from to weight s).
Proof.
  intros Hr Hs. unfold requestElevator.
  destruct (_ || _); [exact Hs|].
  pose proof (tryAssignElevator_inv _ s Hr Hs) as [Hels Hq].
  destruct (tryAssignElevator _ s) as [s1 [assigned|]]; simpl in *.
  - by split.
  - split; [done|]. apply Forall_app. auto.
Qed.

Lemma assignPendingLoop_inv n : ∀ s,
  system_inv I Q s → system_inv I Q (assignPendingLoop n s).
Proof.
  induction n as [|i IH]; intros s Hs; [done|]. simpl.
  destruct (pendingRequests s !! i) as [req|]; [|done].
  pose proof (tryAssignElevatorDirect_inv req s Hs) as Hs1.
  destruct (tryAssignElevatorDirect req s) as [s1 [assigned|]];
    apply IH; exact Hs1.
Qed.

Lemma releaseLoop_inv n : ∀ s,
  system_inv I Q s → system_inv I Q (releaseLoop n s).
Proof.
  induction n as [|i IH]; intros s Hs; [done|]. simpl.
  destruct (pendingRequests s !! i) as [req|]; [|done].
  pose proof (tryAssignElevatorDirect_inv req s Hs) as Hs1.
  destruct (tryAssignElevatorDirect req s) as [s1 [assigned|]];
    [|by apply IH].
  destruct (findIndex _ _) as [idx|]; apply IH; [|done].
  destruct Hs1 as [Hels Hq]. split; [done|]. by apply Forall_delete.
Qed.

Lemma stepElevators_inv els : ∀ q,
  Forall I els → Forall Q q →
  Forall I (stepElevators els q).1.1 ∧ Forall Q (stepElevators els q).1.2.
Proof.
  induction els as [|el rest IH]; intros q Hels Hq; [done|]. simpl.
  apply Forall_cons in Hels as [Hel Hrest].
  pose proof (I_stepTick el q Hel Hq) as Hel'.
  pose proof (stepTick_queue_sublist el q) as Hsub.
  unfold elevator_of, queue_of in *.
  destruct (stepTick el q) as [[el' q1] log1]. simpl in *.
  destruct (IH q1 Hrest (Forall_sublist _ _ _ Hsub Hq)) as [Hrest' Hq'].
  destruct (stepElevators rest q1) as [[rest' q2] log2]. simpl in *.
  split; [by constructor | done].
Qed.

Lemma tick_inv s : system_inv I Q s → system_inv I Q (tick s).
Proof.
  intros Hs. unfold tick.
  set (s0 := set_tickCount (tickCount s + 1) s).
  assert (Hs0 : system_inv I Q s0) by exact Hs.
  pose proof (assignPendingLoop_inv (length (pendingRequests s0)) s0 Hs0)
    as [Hels1 Hq1].
  set (s1 := assignPendingLoop _ s0) in *.
  assert (Hs3 : system_inv I Q (logStatus (stepPhase s1))).
  { unfold stepPhase.
    pose proof (stepElevators_inv _ _ Hels1 Hq1) as Hstep.
    destruct (stepElevators _ _) as [[els q] evs]. exact Hstep. }
  destruct (_ =? 0); [|exact Hs3].
  by apply releaseLoop_inv.
Qed.

Lemma run_inv ops : ∀ s,
  system_inv I Q s → Forall (op_submits Q) ops → system_inv I Q (run s ops).
Proof.
  unfold run.
  induction ops as [|o ops IH]; intros s Hs Hops; [done|]. simpl.
  apply Forall_cons in Hops as [Ho Hops].
  apply IH; [|done].
  destruct o as [uuid from to weight|]; simpl.
  - by apply requestElevator_inv.
  - by apply tick_inv.
Qed.
End SystemInvariant.

Lemma ElevatorSystem_new_Forall (P : Elevator → Prop) numElevators floors opts :
  (∀ i, P (Elevator_new i (default 10 floors) opts)) →
  Forall P (elevators (ElevatorSystem_new numElevators floors opts)).
Proof. intros HP. simpl. apply Forall_fmap, Forall_true. intros i. apply HP. Qed.

(** A MOVING elevator has a direction, in every run from construction. *)
Lemma moving_has_direction numElevators floors opts ops :
  Forall (λ e, state e = MOVING → direction e ≠ NONE)
    (elevators (run (ElevatorSystem_new numElevators floors opts) ops)).
Proof.
  apply (run_inv (λ e, state e = MOVING → direction e ≠ NONE) (λ _, True)).
  - intros floor e He. unfold addTarget.
    destruct (_ || _); [done|]. simpl.
    destruct (state e) eqn:Hst; simpl; try (rewrite Hst; done).
    destruct (currentFloor e =? floor); simpl; [done|].
    by destruct (currentFloor e <? floor).
  - intros e q He _.
    destruct (state e) eqn:Hst.
    + unfold stepTick, elevator_of. rewrite Hst.
      case_ifs; simpl; try done. by rewrite Hst.
    + unfold stepTick, elevator_of. rewrite Hst.
      destruct (direction e) eqn:Hdir; [| |by destruct He];
        case_ifs; simpl; try done; by rewrite Hdir.
    + destruct (stepTick_open_door e q Hst) as (e2 & adm & _ & _ & _ & _ & _ & _ & ->).
      by destruct (_ <=? _).
    + unfold stepTick, elevator_of. rewrite Hst.
      case_ifs; simpl; done.
  - split; [|done]. apply ElevatorSystem_new_Forall. intros i. done.
  - apply Forall_true. by intros [].
Qed.

(** Against C8 as stated: in a building configured with no floor the
    elevators stand at floor 1, above [totalFloors], at construction and
    after every tick. *)
Lemma floorless_building_out_of_range :
  Forall (λ e, currentFloor e = 1 ∧ totalFloors e = 0) (elevators floorless)
  ∧ Forall (λ e, ¬ floor_in_range e) (elevators floorless)
  ∧ Forall (λ e, ¬ floor_in_range e) (elevators (run floorless [Tick; Tick])).
Proof.
  split; [repeat constructor|].
  split; vm_compute; repeat constructor; intros [_ H]; by apply H.
Qed.

(** C8, as the code has it: every elevator is built at floor 1; a tick of
    an elevator whose floor is within [1, totalFloors] leaves it within
    [1, totalFloors]; so in a system built with at least one floor every
    elevator is within [1, totalFloors] after any sequence of submissions
    and ticks. *)
Theorem currentFloor_stays_in_range numElevators floors opts ops :
  1 ≤ default 10 floors →
  Forall (λ e, currentFloor e = 1)
    (elevators (ElevatorSystem_new numElevators floors opts))
  ∧ (∀ e q, 1 ≤ currentFloor e ≤ totalFloors e →
            1 ≤ currentFloor (elevator_of (stepTick e q))
              ≤ totalFloors (elevator_of (stepTick e q)))
  ∧ Forall (λ e, 1 ≤ currentFloor e ≤ totalFloors e)
      (elevators (run (ElevatorSystem_new numElevators floors opts) ops)).
Proof.
  intros Hfloors. split; [|split].
  - by apply ElevatorSystem_new_Forall.
  - apply stepTick_floor_in_range.
  - apply (run_inv floor_in_range (λ _, True)).
    + apply addTarget_floor_in_range.
    + intros e q He _. by apply stepTick_floor_in_range.
    + split; [|done].
      apply ElevatorSystem_new_Forall. intros i.
      unfold floor_in_range. simpl. lia.
    + apply Forall_true. by intros [].
Qed.

Lemma currentFloor_stays_in_range_witness :
  Forall (λ e, 1 ≤ currentFloor e ≤ totalFloors e)
    (elevators (run sample_system sample_ops)).
Proof.
  refine (proj2 (proj2 (currentFloor_stays_in_range (Some 3) (Some 12)
                          (mkOpts None None None (Some 700)) sample_ops _))).
  simpl. lia.
Defined.

(** Against C1 as stated: a request of negative weight is accepted and
    boards, and the total weight of the elevator is then below zero; an
    elevator built with a negative limit holds more than the limit from the
    start. *)
Lemma negative_weight_breaks_capacity :
  (∃ e, elevators negative_weight_run = [e]
        ∧ occupancyCount e = 1
        ∧ occupancyWeight e = -5
        ∧ maxPeople e = 8 ∧ maxWeight e = 680
        ∧ ¬ within_capacity e)
  ∧ Forall (λ e, ¬ within_capacity e) (elevators floorless).
Proof.
  split.
  - eexists. split; [vm_compute; reflexivity|].
    repeat (split; [vm_compute; reflexivity|]).
    intros [_ [Hw _]]. vm_compute in Hw. by apply Hw.
  - vm_compute. repeat constructor; intros [[_ H] _]; by apply H.
Qed.

(** C1, as the code has it: when the configured limits are not negative and
    no submitted weight is negative, every elevator holds between 0 and
    [maxPeople] passengers and between 0 and [maxWeight] of weight after any
    sequence of submissions and ticks; and a boarding step never takes the
    number of passengers above [maxPeople] nor the weight above [maxWeight]
    when they were not above before. *)
Theorem occupancy_within_capacity numElevators floors opts ops :
  0 ≤ or_else (opt_maxPeople opts) 8 →
  0 ≤ or_else (opt_maxWeight opts) 680 →
  Forall (op_submits (λ p, 0 ≤ p_weight p)) ops →
  Forall (λ e, 0 ≤ occupancyCount e ≤ maxPeople e
               ∧ 0 ≤ occupancyWeight e ≤ maxWeight e)
    (elevators (run (ElevatorSystem_new numElevators floors opts) ops))
  ∧ (∀ e q,
       let e' := elevator_of (handleBoardings e q) in
       (occupancyCount e ≤ maxPeople e → occupancyCount e' ≤ maxPeople e')
       ∧ (occupancyWeight e ≤ maxWeight e →
          occupancyWeight e' ≤ maxWeight e')).
Proof.
  intros HmaxP HmaxW Hops. split; [|apply handleBoardings_capacity].
  eapply Forall_impl; [|apply capacity_inv_within].
  apply (run_inv capacity_inv nonneg_weight).
  - apply addTarget_capacity_inv.
  - apply stepTick_capacity_inv.
  - split; [|done].
    apply ElevatorSystem_new_Forall. intros i.
    unfold capacity_inv, occupancyCount, occupancyWeight. simpl. auto.
  - exact Hops.
Qed.

Lemma occupancy_within_capacity_witness :
  Forall (λ e, 0 ≤ occupancyCount e ≤ maxPeople e
               ∧ 0 ≤ occupancyWeight e ≤ maxWeight e)
    (elevators (run sample_system sample_ops)).
Proof.
  refine (proj1 (occupancy_within_capacity (Some 3) (Some 12)
                   (mkOpts None None None (Some 700)) sample_ops _ _ _)).
  - simpl. lia.
  - simpl. lia.
  - unfold sample_ops. repeat constructor; simpl; lia.
Defined.

(** ** Assignment *)

Lemma bool_eq_true_iff (b1 b2 : bool) : (b1 = true ↔ b2 = true) → b1 = b2.
Proof. destruct b1, b2; intuition congruence. Qed.

Lemma at_origin_with_doors_test r e :
  (currentFloor e =? p_from r)
  && (bool_decide (state e = IDLE) || bool_decide (state e = OPEN_DOOR)
      || bool_decide (state e = CLOSE_DOOR))
  = bool_decide (at_origin_with_doors r e).
Proof.
  apply bool_eq_true_iff. unfold at_origin_with_doors.
  rewrite andb_true_iff, !orb_true_iff, !bool_decide_eq_true, Z.eqb_eq. tauto.
Qed.

Lemma moving_toward_test r e :
  (bool_decide (direction e = UP) && (currentFloor e <=? p_from r)
   && bool_decide (reqDirOf r = UP))
  || (bool_decide (direction e = DOWN) && (p_from r <=? currentFloor e)
      && bool_decide (reqDirOf r = DOWN))
  = bool_decide (moving_toward r e).
Proof.
  apply bool_eq_true_iff. unfold moving_toward.
  rewrite orb_true_iff, !andb_true_iff, !bool_decide_eq_true, !Z.leb_le. tauto.
Qed.

Lemma score_score_spec r e :
  score e (p_from r) (reqDirOf r) = score_spec r e.
Proof.
  unfold score, score_spec.
  rewrite at_origin_with_doors_test, moving_toward_test.
  rewrite !decide_bool_decide.
  destruct (bool_decide (at_origin_with_doors r e)),
    (bool_decide (state e = MOVING)), (bool_decide (moving_toward r e)),
    (bool_decide (state e = IDLE)); lia.
Qed.

Lemma eligible_tests r e :
  eligible r e ↔
  isFull e = false ∧ (maxWeight e <? p_weight r + occupancyWeight e) = false.
Proof. unfold eligible. rewrite Z.ltb_ge. tauto. Qed.

Lemma scan_best_skip r seen best el :
  ¬ eligible r el → scan_best r seen best → scan_best r (seen ++ [el]) best.
Proof.
  intros Hno. destruct best as [[k sc]|]; simpl.
  - intros [(e & Hk & He & Hmin) (e0 & Hk0 & Hsc)]. split.
    + exists e. split; [by apply lookup_app_l_Some|]. split; [done|].
      intros j e' Hj He'. apply lookup_snoc_Some in Hj as [[_ Hj]|[_ <-]].
      * by apply (Hmin j).
      * done.
    + exists e0. split; [by apply lookup_app_l_Some | done].
  - intros Hnone j e Hj. apply lookup_snoc_Some in Hj as [[_ Hj]|[_ <-]].
    + by apply (Hnone j).
    + done.
Qed.

Lemma scan_best_take r seen best el :
  eligible r el → improves (score_spec r el) best = true →
  scan_best r seen best →
  scan_best r (seen ++ [el]) (Some (length seen, score_spec r el)).
Proof.
  intros Hel Himp Hbest. simpl.
  assert (Hlast : (seen ++ [el]) !! length seen = Some el)
    by apply list_lookup_middle, eq_refl.
  split; [|by exists el]. exists el. split; [done|]. split; [done|].
  intros j e' Hj He'. apply lookup_snoc_Some in Hj as [[Hlt Hj]|[-> <-]].
  - destruct best as [[k sc]|]; simpl in *.
    + destruct Hbest as [(e & Hk & He & Hmin) (e0 & Hk0 & ->)].
      apply Z.ltb_lt in Himp.
      assert (e0 = e) as -> by congruence.
      destruct (Hmin j e' Hj He') as [Hle _]. lia.
    + by destruct (Hbest j e' Hj).
  - split; [lia|]. lia.
Qed.

Lemma scan_best_keep r seen best el :
  eligible r el → improves (score_spec r el) best = false →
  scan_best r seen best → scan_best r (seen ++ [el]) best.
Proof.
  intros Hel Himp Hbest. destruct best as [[k sc]|]; [|done]. simpl in *.
  destruct Hbest as [(e & Hk & He & Hmin) (e0 & Hk0 & ->)].
  assert (e0 = e) as -> by congruence.
  apply Z.ltb_ge in Himp.
  pose proof (lookup_lt_Some _ _ _ Hk) as Hklt.
  split.
  - exists e. split; [by apply lookup_app_l_Some|]. split; [done|].
    intros j e' Hj He'. apply lookup_snoc_Some in Hj as [[_ Hj]|[-> <-]].
    + by apply (Hmin j).
    + split; [done|]. lia.
  - exists e. split; [by apply lookup_app_l_Some | done].
Qed.

Lemma assignScanDirect_scan_best r els : ∀ seen best,
  scan_best r seen best →
  scan_best r (seen ++ els) (assignScanDirect r els (length seen) best).
Proof.
  induction els as [|el rest IH]; intros seen best Hbest.
  - by rewrite app_nil_r.
  - rewrite cons_middle, app_assoc. cbn [assignScanDirect].
    replace (S (length seen)) with (length (seen ++ [el]))
      by (rewrite length_app; simpl; lia).
    rewrite score_score_spec.
    destruct (isFull el) eqn:Hfull.
    { apply IH, scan_best_skip; [|done]. intros [Hf _]. congruence. }
    destruct (maxWeight el <? p_weight r + occupancyWeight el) eqn:Hw.
    { apply IH, scan_best_skip; [|done].
      intros Hel. apply eligible_tests in Hel as [_ Hel]. congruence. }
    assert (Hel : eligible r el) by (by apply eligible_tests).
    destruct (improves (score_spec r el) best) eqn:Himp.
    + apply IH. by apply (scan_best_take r seen best).
    + apply IH. by apply scan_best_keep.
Qed.

Lemma assignScan_Direct r els : ∀ i best,
  assignScan r els i best = assignScanDirect r els i best.
Proof.
  induction els as [|el rest IH]; intros i best; [done|]. simpl.
  rewrite !IH. reflexivity.
Qed.

(** What one direct attempt does to the elevators. *)
Lemma attempt_outcome r els :
  match assignScanDirect r els 0%nat None with
  | Some (i, _) =>
      first_best r els i ∧ attempt r els = alter (addTarget (p_from r)) i els
  | None => (∀ e, e ∈ els → ¬ eligible r e) ∧ attempt r els = els
  end.
Proof.
  unfold attempt.
  pose proof (assignScanDirect_scan_best r els [] None) as Hscan.
  simpl in Hscan.
  destruct (assignScanDirect r els 0 None) as [[best sc]|]; simpl.
  - split; [|done]. apply Hscan. intros j e Hj. done.
  - split; [|done].
    intros e He. apply list_elem_of_lookup in He as [j Hj].
    eapply Hscan; [|exact Hj]. intros j' e' Hj'. done.
Qed.

Lemma tryAssignElevatorDirect_attempt r s :
  (tryAssignElevatorDirect r s).1 = set_elevators (attempt r (elevators s)) s
  ∧ (tryAssignElevatorDirect r s).2
    = fst <$> assignScanDirect r (elevators s) 0%nat None.
Proof.
  unfold tryAssignElevatorDirect, attempt.
  destruct (assignScanDirect r (elevators s) 0 None) as [[best sc]|];
    simpl; [done|]. by destruct s.
Qed.

(** C4: both assignment methods pass over every elevator that is full or
    that the request's weight would overload, and choose among the others
    the first elevator, in the order of [this.elevators], whose score
    [score_spec] is minimal; the chosen elevator receives the origin floor
    as a target, and no elevator is chosen only when none is eligible. *)
Theorem assignment_picks_first_best r s :
  (tryAssignElevator r s).2 = (tryAssignElevatorDirect r s).2
  ∧ elevators (tryAssignElevator r s).1
    = elevators (tryAssignElevatorDirect r s).1
  ∧ match (tryAssignElevatorDirect r s).2 with
    | Some i =>
        first_best r (elevators s) i
        ∧ elevators (tryAssignElevatorDirect r s).1
          = alter (addTarget (p_from r)) i (elevators s)
    | None =>
        (∀ e, e ∈ elevators s → ¬ eligible r e)
        ∧ elevators (tryAssignElevatorDirect r s).1 = elevators s
    end.
Proof.
  pose proof (attempt_outcome r (elevators s)) as Hout.
  unfold tryAssignElevator, tryAssignElevatorDirect, attempt in *.
  rewrite assignScan_Direct.
  destruct (assignScanDirect r (elevators s) 0 None) as [[best sc]|]; simpl.
  - destruct Hout as [Hbest _]. auto.
  - destruct Hout as [Hnone _]. auto.
Qed.

(** Three idle elevators at floor 1 tie on a request from floor 1; the first
    one is chosen. *)
Lemma tie_goes_to_first_elevator :
  let s := ElevatorSystem_new (Some 3) (Some 5) scenarioA_opts in
  let r := Passenger_new "a" 1 4 None in
  Forall (λ e, score_spec r e = -1050) (elevators s)
  ∧ (tryAssignElevator r s).2 = Some 0%nat
  ∧ (tryAssignElevatorDirect r s).2 = Some 0%nat.
Proof.
  split; [repeat constructor|]. split; vm_compute; reflexivity.
Qed.

(** ** The phases of a tick *)

Lemma attempt_passengers r els :
  passengers <$> attempt r els = passengers <$> els.
Proof.
  unfold attempt.
  destruct (assignScanDirect r els 0 None) as [[best sc]|]; [|done].
  rewrite (list_fmap_alter passengers _ id).
  - apply list_alter_id. done.
  - apply Forall_true. intros e. apply addTarget_cabin.
Qed.

Lemma foldl_attempt_passengers rs : ∀ els,
  passengers <$> foldl (λ els r, attempt r els) els rs = passengers <$> els.
Proof.
  induction rs as [|r rs IH]; intros els; [done|]. simpl.
  by rewrite IH, attempt_passengers.
Qed.

(** The first loop of a tick tries every queued request, last to first,
    and leaves the queue as it is. *)
Lemma assignPendingLoop_spec n : ∀ s,
  (n ≤ length (pendingRequests s))%nat →
  pendingRequests (assignPendingLoop n s) = pendingRequests s
  ∧ elevators (assignPendingLoop n s)
    = foldl (λ els r, attempt r els) (elevators s)
        (reverse (take n (pendingRequests s)))
  ∧ tickCount (assignPendingLoop n s) = tickCount s.
Proof.
  induction n as [|i IH]; intros s Hlen; [done|].
  cbn [assignPendingLoop].
  destruct (lookup_lt_is_Some_2 (pendingRequests s) i) as [req Hreq]; [lia|].
  rewrite Hreq, (take_S_r _ _ _ Hreq), reverse_snoc. simpl.
  destruct (tryAssignElevatorDirect_attempt req s) as [Hs1 _].
  destruct (tryAssignElevatorDirect req s) as [s1 [assigned|]];
    simpl in Hs1; subst s1.
  - destruct (IH (log [LogPendingAssigned (p_id req)
                         (elevatorId (set_elevators
                                        (attempt req (elevators s)) s)
                            assigned)]
                    (set_elevators (attempt req (elevators s)) s)))
      as (Hq & Hels & Htick); [simpl; lia|].
    rewrite Hq, Hels, Htick. done.
  - destruct (IH (set_elevators (attempt req (elevators s)) s))
      as (Hq & Hels & Htick); [simpl; lia|].
    rewrite Hq, Hels, Htick. done.
Qed.

Lemma assignPendingLoop_console n : ∀ s,
  ∃ evs, console (assignPendingLoop n s) = console s ++ evs.
Proof.
  induction n as [|i IH]; intros s; [exists []; by rewrite app_nil_r|].
  cbn [assignPendingLoop].
  destruct (pendingRequests s !! i) as [req|];
    [|exists []; by rewrite app_nil_r].
  destruct (tryAssignElevatorDirect_attempt req s) as [Hs1 _].
  destruct (tryAssignElevatorDirect req s) as [s1 [assigned|]];
    simpl in Hs1; subst s1.
  - destruct (IH (log [LogPendingAssigned (p_id req)
                         (elevatorId (set_elevators
                                        (attempt req (elevators s)) s)
                            assigned)]
                    (set_elevators (attempt req (elevators s)) s)))
      as [evs Hevs].
    rewrite Hevs. simpl. rewrite <- app_assoc. eauto.
  - destruct (IH (set_elevators (attempt req (elevators s)) s)) as [evs Hevs].
    rewrite Hevs. simpl. eauto.
Qed.

Lemma stepElevators_Stepped els : ∀ q,
  Stepped els q (stepElevators els q).1.1 (stepElevators els q).1.2.
Proof.
  induction els as [|el rest IH]; intros q; [constructor|]. simpl.
  destruct (stepTick el q) as [[el' q1] evs1] eqn:Hstep.
  specialize (IH q1).
  destruct (stepElevators rest q1) as [[rest' q2] evs2]. simpl in *.
  econstructor; eauto.
Qed.

(** A request that leaves the queue during an elevator's tick is among that
    elevator's passengers afterwards. *)
Lemma stepTick_removed_boards el q r :
  r ∈ q → r ∈ queue_of (stepTick el q)
          ∨ r ∈ passengers (elevator_of (stepTick el q)).
Proof.
  intros Hr.
  destruct (decide (state el = OPEN_DOOR)) as [Hopen|Hother].
  - destruct (stepTick_open_door el q Hopen)
      as (e2 & adm & Hscan & Hpass & _).
    apply Boarding_outcome in Hscan as (Hp2 & Hperm & _).
    rewrite Hperm in Hr. apply elem_of_app in Hr as [Hr|Hr]; [by left|].
    right. cbv zeta in Hpass. rewrite Hpass, Hp2. apply elem_of_app. by right.
  - left. by rewrite stepTick_queue_other.
Qed.

Lemma Stepped_removed_boards els q els' q' :
  Stepped els q els' q' →
  ∀ r, r ∈ q → r ∉ q' → ∃ e, e ∈ els' ∧ r ∈ passengers e.
Proof.
  induction 1 as [q|el rest q el' q1 evs rest' q2 Hstep _ IH];
    intros r Hin Hout; [done|].
  pose proof (stepTick_removed_boards el q r Hin) as Hcase.
  unfold queue_of, elevator_of in Hcase. rewrite Hstep in Hcase. simpl in Hcase.
  destruct Hcase as [Hq1|Hboard].
  - destruct (IH r Hq1 Hout) as (e & He & Hr).
    exists e. split; [by right | done].
  - exists el'. split; [by left | done].
Qed.

Lemma findIndex_fresh id q : ∀ r suffix,
  id ∉ p_id <$> q → p_id r = id →
  findIndex id (q ++ r :: suffix) = Some (length q).
Proof.
  induction q as [|p q IH]; intros r suffix Hfresh Hid; simpl.
  - by rewrite bool_decide_eq_true_2.
  - rewrite fmap_cons in Hfresh. apply not_elem_of_cons in Hfresh as [Hne Hq].
    rewrite bool_decide_eq_false_2 by done.
    by rewrite (IH r suffix Hq Hid).
Qed.

(** The sweep loop over the first [length q] entries of the queue, when the
    identifiers of these entries are pairwise different. *)
Lemma releaseLoop_Sweep q : ∀ s suffix,
  pendingRequests s = q ++ suffix →
  NoDup (p_id <$> q) →
  ∃ q', Sweep (elevators s) q (elevators (releaseLoop (length q) s)) q'
        ∧ pendingRequests (releaseLoop (length q) s) = q' ++ suffix
        ∧ console (releaseLoop (length q) s) = console s
        ∧ tickCount (releaseLoop (length q) s) = tickCount s.
Proof.
  induction q as [|r q IH] using rev_ind; intros s suffix Hpend Hids.
  - exists []. simpl. split; [constructor | done].
  - rewrite length_app, Nat.add_1_r. cbn [releaseLoop].
    rewrite <- app_assoc in Hpend. simpl in Hpend.
    assert (Hreq : pendingRequests s !! length q = Some r)
      by (rewrite Hpend; apply list_lookup_middle, eq_refl).
    rewrite Hreq.
    rewrite fmap_app in Hids. apply NoDup_app in Hids as (Hq & Hfresh & _).
    assert (Hr : p_id r ∉ p_id <$> q).
    { intros Hin. apply (Hfresh _ Hin). simpl. by left. }
    pose proof (attempt_outcome r (elevators s)) as Hout.
    destruct (tryAssignElevatorDirect_attempt r s) as [Hs1 Hwin].
    destruct (tryAssignElevatorDirect r s) as [s1 won].
    simpl in Hs1, Hwin. subst s1 won.
    destruct (assignScanDirect r (elevators s) 0 None) as [[i sc]|]; simpl.
    + destruct Hout as [Hbest Hatt].
      rewrite Hpend, (findIndex_fresh _ _ r suffix Hr eq_refl), delete_middle.
      destruct (IH (set_pendingRequests (q ++ suffix)
                      (set_elevators (attempt r (elevators s)) s)) suffix
                  eq_refl Hq) as (q' & Hsweep & Hq' & Hcon & Htick).
      exists q'. split; [|done].
      eapply Sweep_assigned; [exact Hbest|]. rewrite <- Hatt. exact Hsweep.
    + destruct Hout as [Hnone Hatt]. rewrite Hatt.
      replace (set_elevators (elevators s) s) with s by (by destruct s).
      destruct (IH s (r :: suffix) Hpend Hq)
        as (q' & Hsweep & Hq' & Hcon & Htick).
      exists (q' ++ [r]). split; [by apply Sweep_kept|].
      rewrite <- app_assoc. done.
Qed.

Lemma releasePendingToIdleElevators_Sweep s :
  NoDup (p_id <$> pendingRequests s) →
  Sweep (elevators s) (pendingRequests s)
    (elevators (releasePendingToIdleElevators s))
    (pendingRequests (releasePendingToIdleElevators s)).
Proof.
  intros Hids. unfold releasePendingToIdleElevators.
  destruct (releaseLoop_Sweep (pendingRequests s) s [])
    as (q' & Hsweep & Hq' & _); [by rewrite app_nil_r | done |].
  rewrite Hq', app_nil_r. exact Hsweep.
Qed.

Lemma releaseLoop_console n : ∀ s,
  console (releaseLoop n s) = console s
  ∧ tickCount (releaseLoop n s) = tickCount s.
Proof.
  induction n as [|i IH]; intros s; [done|]. cbn [releaseLoop].
  destruct (pendingRequests s !! i) as [req|]; [|done].
  destruct (tryAssignElevatorDirect_attempt req s) as [Hs1 _].
  destruct (tryAssignElevatorDirect req s) as [s1 [won|]];
    simpl in Hs1; subst s1.
  - destruct (findIndex _ _) as [idx|]; rewrite !(proj1 (IH _)),
      !(proj2 (IH _)); done.
  - rewrite !(proj1 (IH _)), !(proj2 (IH _)); done.
Qed.

(** C5: the order of a tick.  [s1] is the system after the assignment pass:
    every queued request, last to first, has had one direct attempt, whose
    winner, if any, receives the origin floor as a target; passenger lists
    and the queue are the ones before.  [s2] is the system after every
    elevator has made one step against the queue; a request that left the
    queue in this phase is a passenger of an elevator.  The snapshot of
    [s2] is then the last entry written on the console.  When the new tick
    count is not a multiple of ten nothing more happens; when it is, the
    sweep runs on [s2]: with pairwise different request identifiers it is
    [Sweep], which removes from the queue the requests whose assignment
    succeeded. *)
Theorem tick_phases s :
  ∃ s1 s2,
    pendingRequests s1 = pendingRequests s
    ∧ elevators s1
      = foldl (λ els r, attempt r els) (elevators s)
          (reverse (pendingRequests s))
    ∧ passengers <$> elevators s1 = passengers <$> elevators s
    ∧ Stepped (elevators s1) (pendingRequests s1)
        (elevators s2) (pendingRequests s2)
    ∧ (∀ r, r ∈ pendingRequests s1 → r ∉ pendingRequests s2 →
            ∃ e, e ∈ elevators s2 ∧ r ∈ passengers e)
    ∧ (∃ evs, console s2 = console s ++ evs)
    ∧ console (tick s) = console s2 ++ [snapshot s2]
    ∧ tickCount (tick s) = tickCount s + 1
    ∧ (Z.rem (tickCount s + 1) 10 ≠ 0 →
       elevators (tick s) = elevators s2
       ∧ pendingRequests (tick s) = pendingRequests s2)
    ∧ (Z.rem (tickCount s + 1) 10 = 0 →
       NoDup (p_id <$> pendingRequests s2) →
       Sweep (elevators s2) (pendingRequests s2)
         (elevators (tick s)) (pendingRequests (tick s))).
Proof.
  set (s0 := set_tickCount (tickCount s + 1) s).
  set (s1 := assignPendingLoop (length (pendingRequests s0)) s0).
  destruct (assignPendingLoop_spec (length (pendingRequests s0)) s0)
    as (Hq1 & Hels1 & Htick1); [done|].
  fold s1 in Hq1, Hels1, Htick1. rewrite take_ge in Hels1 by done.
  exists s1, (stepPhase s1).
  pose proof (stepElevators_Stepped (elevators s1) (pendingRequests s1))
    as Hstep.
  assert (Hphase : elevators (stepPhase s1)
                   = (stepElevators (elevators s1) (pendingRequests s1)).1.1
                   ∧ pendingRequests (stepPhase s1)
                     = (stepElevators (elevators s1) (pendingRequests s1)).1.2
                   ∧ tickCount (stepPhase s1) = tickCount s1).
  { unfold stepPhase. by destruct (stepElevators _ _) as [[els q] evs]. }
  destruct Hphase as (Hels2 & Hq2 & Htick2).
  rewrite <- Hels2, <- Hq2 in Hstep.
  split; [exact Hq1|]. split; [exact Hels1|].
  split; [rewrite Hels1; apply foldl_attempt_passengers|].
  split; [exact Hstep|].
  split; [by apply (Stepped_removed_boards _ _ _ _ Hstep)|].
  split.
  { destruct (assignPendingLoop_console (length (pendingRequests s0)) s0)
      as [evs1 Hcon1]. fold s1 in Hcon1.
    unfold stepPhase. destruct (stepElevators _ _) as [[els q] evs2]. simpl.
    exists (evs1 ++ evs2). rewrite Hcon1. simpl. by rewrite app_assoc. }
  assert (Htick : tick s
                  = if Z.rem (tickCount s + 1) 10 =? 0
                    then releasePendingToIdleElevators (logStatus (stepPhase s1))
                    else logStatus (stepPhase s1)).
  { unfold tick. fold s0. fold s1. simpl. by rewrite Htick2, Htick1. }
  rewrite Htick.
  destruct (Z.eqb_spec (Z.rem (tickCount s + 1) 10) 0) as [Hten|Hten].
  - unfold releasePendingToIdleElevators at 1 2.
    rewrite (proj1 (releaseLoop_console _ _)),
      (proj2 (releaseLoop_console _ _)). simpl.
    rewrite Htick2, Htick1.
    split; [done|]. split; [done|]. split; [done|].
    intros _ Hids.
    apply (releasePendingToIdleElevators_Sweep (logStatus (stepPhase s1))).
    exact Hids.
  - simpl. rewrite Htick2, Htick1.
    split; [done|]. split; [done|]. split; [done|]. done.
Qed.

(** Scenario B, ten ticks on: the sweep of the tenth tick takes the request
    that was still waiting out of the queue, and it is in no elevator. *)
Lemma sweep_drops_waiting_request :
  pendingRequests (run scenarioB (replicate 9 Tick))
  = [Passenger_new "p" 1 3 None]
  ∧ pendingRequests (run scenarioB (replicate 10 Tick)) = []
  ∧ Forall (λ e, passengers e = [])
      (elevators (run scenarioB (replicate 10 Tick))).
Proof.
  split; [vm_compute; reflexivity|]. split; [vm_compute; reflexivity|].
  vm_compute. repeat constructor.
Qed.

(** * Further properties of the elevator *)

(** ** Targets *)

Lemma closer_fold_nearest cur ts :
  match foldl (closer cur) None ts with
  | None => ts = []
  | Some (b, bd) =>
      bd = Z.abs (cur - b)
      ∧ ∃ l1 l2, ts = l1 ++ b :: l2
                 ∧ (∀ t, t ∈ l1 → bd < Z.abs (cur - t))
                 ∧ (∀ t, t ∈ l2 → bd ≤ Z.abs (cur - t))
  end.
Proof.
  induction ts as [|x ts IH] using rev_ind; [done|].
  rewrite foldl_app. simpl.
  destruct (foldl (closer cur) None ts) as [[b bd]|]; simpl.
  - destruct IH as (Hbd & l1 & l2 & -> & Hl1 & Hl2).
    destruct (Z.ltb_spec (Z.abs (cur - x)) bd) as [Hlt|Hge].
    + split; [done|]. exists (l1 ++ b :: l2), []. split; [done|].
      split; [|intros t Ht; by apply elem_of_nil in Ht].
      intros t Ht. apply elem_of_app in Ht as [Ht|Ht].
      * specialize (Hl1 t Ht). lia.
      * apply elem_of_cons in Ht as [->|Ht]; [lia|].
        specialize (Hl2 t Ht). lia.
    + split; [done|]. exists l1, (l2 ++ [x]).
      split; [by rewrite <- app_assoc|]. split; [done|].
      intros t Ht. apply elem_of_app in Ht as [Ht|Ht]; [by apply Hl2|].
      apply list_elem_of_singleton in Ht as ->. done.
  - subst ts. split; [done|]. exists [], []. split; [done|].
    split; intros t Ht; by apply elem_of_nil in Ht.
Qed.

(** X1: [closestTarget] answers the current floor on an empty target set;
    otherwise it answers a target at the least distance from the current
    floor, and of several such targets the one inserted first. *)
Theorem closestTarget_nearest_first e :
  (targets e = [] → closestTarget e = currentFloor e)
  ∧ (targets e ≠ [] →
     ∃ l1 l2,
       targets e = l1 ++ closestTarget e :: l2
       ∧ (∀ t, t ∈ l1 →
               Z.abs (currentFloor e - closestTarget e)
               < Z.abs (currentFloor e - t))
       ∧ (∀ t, t ∈ l2 →
               Z.abs (currentFloor e - closestTarget e)
               ≤ Z.abs (currentFloor e - t))).
Proof.
  unfold closestTarget. split.
  - intros ->. reflexivity.
  - intros Hne.
    assert (Hsz : (JSSet.size (targets e) =? 0) = false).
    { apply not_true_is_false. rewrite size_zero_iff. done. }
    rewrite Hsz.
    pose proof (closer_fold_nearest (currentFloor e) (targets e)) as Hfold.
    destruct (foldl (closer (currentFloor e)) None (targets e)) as [[b bd]|];
      [|done].
    destruct Hfold as (-> & l1 & l2 & Hts & Hl1 & Hl2). eauto.
Qed.

Lemma JSSet_add_idem x s : JSSet.add x (JSSet.add x s) = JSSet.add x s.
Proof.
  unfold JSSet.add at 1.
  assert (H : JSSet.has x (JSSet.add x s) = true).
  { unfold JSSet.has. apply bool_decide_eq_true. apply JSSet_add_elem. }
  by rewrite H.
Qed.

Lemma JSSet_add_present x s : x ∈ s → JSSet.add x s = s.
Proof.
  intros Hx. unfold JSSet.add, JSSet.has.
  by rewrite bool_decide_eq_true_2.
Qed.

Lemma addTarget_targets floor e :
  1 ≤ floor ≤ totalFloors e →
  targets (addTarget floor e) = JSSet.add floor (targets e).
Proof.
  intros Hrange. unfold addTarget.
  assert (Htest : (floor <? 1) || (totalFloors e <? floor) = false).
  { rewrite orb_false_iff, !Z.ltb_ge. lia. }
  rewrite Htest. simpl.
  destruct (state e); simpl; try done.
  by destruct (currentFloor e =? floor).
Qed.

(** X2: [addTarget] ignores a floor outside [1, totalFloors]; a floor within
    becomes a target and every earlier target stays one; a second call with
    the same floor changes nothing; and no call touches the passengers, the
    floor or the limits. *)
Theorem addTarget_idempotent floor e :
  (floor < 1 ∨ totalFloors e < floor → addTarget floor e = e)
  ∧ (1 ≤ floor ≤ totalFloors e →
     floor ∈ targets (addTarget floor e)
     ∧ (∀ t, t ∈ targets e → t ∈ targets (addTarget floor e))
     ∧ (floor ∈ targets e → targets (addTarget floor e) = targets e))
  ∧ addTarget floor (addTarget floor e) = addTarget floor e
  ∧ passengers (addTarget floor e) = passengers e
  ∧ currentFloor (addTarget floor e) = currentFloor e
  ∧ maxPeople (addTarget floor e) = maxPeople e
  ∧ maxWeight (addTarget floor e) = maxWeight e.
Proof.
  pose proof (addTarget_cabin floor e) as [(_ & Htot & Hcur & HmaxP & HmaxW) Hpass].
  split; [|split; [|split; [|auto]]].
  - intros Hout. unfold addTarget.
    assert (Htest : (floor <? 1) || (totalFloors e <? floor) = true).
    { rewrite orb_true_iff, !Z.ltb_lt. done. }
    by rewrite Htest.
  - intros Hrange. rewrite addTarget_targets by done.
    split; [apply JSSet_add_elem|]. split; [intros t; apply JSSet_add_mono|].
    apply JSSet_add_present.
  - clear. destruct e as [id tf cf st dir mp mw ps ts dt tt].
    unfold addTarget. simpl.
    destruct ((floor <? 1) || (tf <? floor)) eqn:Htest; simpl;
      [by rewrite Htest|].
    destruct st; simpl; rewrite ?Htest; simpl;
      try (by rewrite JSSet_add_idem).
    destruct (cf =? floor) eqn:Hat; simpl; rewrite Htest; simpl;
      by rewrite JSSet_add_idem.
Qed.

(** ** States, timers and destinations along a run *)

Lemma addTarget_state_inv floor e : state_inv e → state_inv (addTarget floor e).
Proof.
  destruct e as [id tf cf st dir mp mw ps ts dt tt].
  unfold state_inv, addTarget. simpl.
  destruct (_ || _); [done|]. simpl.
  destruct st; simpl; try done.
  intros (-> & -> & ->).
  destruct (cf =? floor); simpl; [lia|].
  by destruct (cf <? floor).
Qed.

Lemma stepTick_state_inv e q :
  state_inv e → state_inv (elevator_of (stepTick e q)).
Proof.
  intros Hinv.
  destruct (decide (state e = OPEN_DOOR)) as [Hopen|Hother].
  - destruct (stepTick_open_door e q Hopen)
      as (e2 & adm & Hscan & _ & _ & _ & _ & Htimer & Hstate).
    apply Boarding_outcome in Hscan.
    destruct Hscan as (_ & _ & _ & _ & _ & _ & _ & _ & _ & Hdt2).
    pose proof (handleAlightings_fields e) as (_ & _ & _ & _ & _ & Hdt1).
    cbv zeta in *. unfold state_inv in *. rewrite Hopen in Hinv.
    rewrite Hstate, Htimer, Hdt2, Hdt1.
    destruct (Z.leb_spec (doorTimer e - 1) 0); lia.
  - destruct e as [id tf cf st dir mp mw ps ts dt tt].
    unfold state_inv, stepTick, elevator_of in *. simpl in *.
    destruct st; simpl in *; try done.
    + destruct Hinv as (-> & -> & ->). done.
    + destruct Hinv as (Hdir & ->).
      destruct dir; simpl; [| |done]; case_ifs; simpl; try done; lia.
    + subst dt. destruct (0 <? JSSet.size ts) eqn:Hsz; simpl.
      * split; [|done]. by destruct (cf <? _).
      * split; [done|]. split; [|done].
        apply size_zero_iff. apply Z.ltb_ge in Hsz. apply Z.eqb_eq.
        unfold JSSet.size in *. lia.
Qed.

Lemma addTarget_dest_inv floor e : dest_inv e → dest_inv (addTarget floor e).
Proof.
  destruct e as [id tf cf st dir mp mw ps ts dt tt].
  unfold dest_inv, addTarget. simpl.
  destruct (_ || _); [done|]. simpl. intros Hinv.
  assert (Hmono : ∀ p, p ∈ ps →
            p_to p ∈ JSSet.add floor ts ∨ p_to p = cf ∧ st = OPEN_DOOR).
  { intros p Hp. destruct (Hinv p Hp) as [Ht|Hopen]; [left|by right].
    by apply JSSet_add_mono. }
  destruct st; simpl; try done.
  - destruct (cf =? floor); simpl; intros p Hp;
      (destruct (Hmono p Hp) as [Ht|[_ Hst]]; [by left | done]).
Qed.

Lemma JSSet_delete_elem x y s : y ∈ s → y ≠ x → y ∈ JSSet.delete x s.
Proof. intros Hy Hne. unfold JSSet.delete. by apply list_elem_of_filter. Qed.

Lemma JSSet_delete_gone x s : x ∉ JSSet.delete x s.
Proof.
  unfold JSSet.delete. intros Hin.
  apply list_elem_of_filter in Hin as [Hne _]. done.
Qed.

Lemma stepTick_dest_inv e q :
  dest_inv e → dest_inv (elevator_of (stepTick e q)).
Proof.
  intros Hinv.
  destruct (decide (state e = OPEN_DOOR)) as [Hopen|Hother].
  - destruct (stepTick_open_door e q Hopen)
      as (e2 & adm & Hscan & Hpass & Htargets & Hcab & _).
    apply Boarding_outcome in Hscan.
    destruct Hscan as (Hp2 & _ & _ & Hmono & Hadm & _).
    pose proof (handleAlightings_fields e) as (Hp1 & _ & _ & _ & Ht1 & _).
    cbv zeta in *. intros p Hp. left.
    rewrite Hpass, Hp2 in Hp. rewrite Htargets.
    apply elem_of_app in Hp as [Hp|Hp].
    + rewrite Hp1 in Hp. apply list_elem_of_filter in Hp as [Hne Hp].
      apply Hmono. rewrite Ht1.
      destruct (Hinv p Hp) as [Ht|[Hat _]]; done.
    + rewrite Forall_forall in Hadm. by apply Hadm.
  - destruct e as [id tf cf st dir mp mw ps ts dt tt].
    unfold dest_inv, stepTick, elevator_of in *. simpl in *.
    assert (Hts : ∀ p, p ∈ ps → p_to p ∈ ts).
    { intros p Hp. destruct (Hinv p Hp) as [Ht|[_ Hst]]; done. }
    destruct st; simpl in *; try done.
    + case_ifs; simpl; intros p Hp; left; by apply Hts.
    + assert (Harrive : ∀ cf',
                dest_inv (elevator_of
                  (if JSSet.has cf' ts
                   then (set_doorTimer 2 (set_state OPEN_DOOR
                           (set_targets (JSSet.delete cf' ts)
                              (mkElevator id tf cf' MOVING dir mp mw ps ts dt tt))),
                         q, [])
                   else (mkElevator id tf cf' MOVING dir mp mw ps ts dt tt,
                         q, [])))).
      { intros cf'. unfold dest_inv, elevator_of.
        destruct (JSSet.has cf' ts); simpl; intros p Hp.
        - destruct (decide (p_to p = cf')) as [Heq|Hne]; [by right|].
          left. apply JSSet_delete_elem; [by apply Hts | done].
        - left. by apply Hts. }
      unfold dest_inv, elevator_of in Harrive.
      destruct dir; simpl; [| |apply (Harrive cf)].
      * destruct (cf <? tf); simpl; [apply (Harrive (cf + 1))|apply (Harrive cf)].
      * destruct (1 <? cf); simpl; [apply (Harrive (cf - 1))|apply (Harrive cf)].
    + case_ifs; simpl; intros p Hp; left; by apply Hts.
Qed.

(** X3: in every run from construction, an IDLE elevator has no direction,
    no targets and a door timer of 0; a MOVING elevator has a direction and
    a door timer of 0; an elevator in OPEN_DOOR has 1 or 2 ticks left on its
    door timer; an elevator in CLOSE_DOOR has a door timer of 0. *)
Theorem state_invariants numElevators floors opts ops :
  Forall (λ e,
      match state e with
      | IDLE => direction e = NONE ∧ targets e = [] ∧ doorTimer e = 0
      | MOVING => direction e ≠ NONE ∧ doorTimer e = 0
      | OPEN_DOOR => 1 ≤ doorTimer e ≤ 2
      | CLOSE_DOOR => doorTimer e = 0
      end)
    (elevators (run (ElevatorSystem_new numElevators floors opts) ops)).
Proof.
  apply (run_inv state_inv (λ _, True)).
  - apply addTarget_state_inv.
  - intros e q He _. by apply stepTick_state_inv.
  - split; [|done]. apply ElevatorSystem_new_Forall. intros i. done.
  - apply Forall_true. by intros [].
Qed.

Lemma cabin_invariants numElevators floors opts ops :
  Forall (λ e, state_inv e ∧ dest_inv e)
    (elevators (run (ElevatorSystem_new numElevators floors opts) ops)).
Proof.
  apply (run_inv (λ e, state_inv e ∧ dest_inv e) (λ _, True)).
  - intros floor e [Hs Hd].
    split; [by apply addTarget_state_inv | by apply addTarget_dest_inv].
  - intros e q [Hs Hd] _.
    split; [by apply stepTick_state_inv | by apply stepTick_dest_inv].
  - split; [|done]. apply ElevatorSystem_new_Forall. intros i.
    split; [done|]. intros p Hp. by apply elem_of_nil in Hp.
  - apply Forall_true. by intros [].
Qed.

(** X4: in every run from construction, the destination of every passenger
    aboard is a target of the elevator, unless the doors are open at that
    destination; so an elevator without targets whose doors are not open,
    an IDLE one in particular, carries nobody. *)
Theorem destinations_stay_targets numElevators floors opts ops :
  Forall (λ e,
      (∀ p, p ∈ passengers e →
            p_to p ∈ targets e
            ∨ (p_to p = currentFloor e ∧ state e = OPEN_DOOR))
      ∧ (targets e = [] → state e ≠ OPEN_DOOR → passengers e = [])
      ∧ (state e = IDLE → passengers e = []))
    (elevators (run (ElevatorSystem_new numElevators floors opts) ops)).
Proof.
  eapply Forall_impl; [apply cabin_invariants|].
  intros e [Hs Hd]. cbv beta.
  assert (Hempty : targets e = [] → state e ≠ OPEN_DOOR → passengers e = []).
  { intros Hts Hst. destruct (passengers e) as [|p ps] eqn:Hps; [done|].
    destruct (Hd p) as [Ht|[_ Hopen]]; [rewrite Hps; by left| |done].
    rewrite Hts in Ht. by apply elem_of_nil in Ht. }
  split; [exact Hd|]. split; [exact Hempty|].
  intros Hidle. unfold state_inv in Hs. rewrite Hidle in Hs.
  apply Hempty; [tauto | congruence].
Qed.

(** ** Doors *)

(** X5: a tick with the doors open lets out everybody whose destination is
    this floor and nobody else: when the queued requests have an origin
    different from their destination, no passenger aboard after the tick
    has this floor as destination, and every passenger bound elsewhere is
    still aboard. *)
Theorem open_door_tick_alights e q :
  state e = OPEN_DOOR →
  Forall (λ r, p_from r ≠ p_to r) q →
  let e' := elevator_of (stepTick e q) in
  currentFloor e' = currentFloor e
  ∧ Forall (λ p, p_to p ≠ currentFloor e) (passengers e')
  ∧ (∀ p, p ∈ passengers e → p_to p ≠ currentFloor e → p ∈ passengers e')
  ∧ (∀ p, p ∈ passengers e' → p ∈ passengers e ∨ p ∈ q).
Proof.
  intros Hopen Hq.
  destruct (stepTick_open_door e q Hopen)
    as (e2 & adm & Hscan & Hpass & _ & Hcab & _).
  apply Boarding_outcome in Hscan.
  destruct Hscan as (Hp2 & Hperm & _ & _ & _ & Hfrom & Hcab2 & _).
  pose proof (handleAlightings_fields e) as (Hp1 & Hcab1 & _).
  cbv zeta in *. unfold same_cabin in *.
  assert (Hfloor1 : currentFloor (handleAlightings e).1 = currentFloor e)
    by tauto.
  rewrite Hpass, Hp2, Hp1.
  split; [destruct Hcab as (_ & _ & -> & _), Hcab2 as (_ & _ & -> & _); done|].
  assert (Hadm : Forall (λ r, p_from r ≠ p_to r) adm).
  { rewrite Hperm in Hq. by apply Forall_app in Hq as [_ Hq]. }
  split; [|split].
  - apply Forall_app. split.
    + apply Forall_forall. intros p Hp.
      by apply list_elem_of_filter in Hp as [Hne _].
    + rewrite Forall_forall in Hfrom, Hadm. apply Forall_forall.
      intros p Hp. specialize (Hfrom p Hp). specialize (Hadm p Hp).
      rewrite Hfloor1 in Hfrom. congruence.
  - intros p Hp Hne. apply elem_of_app. left.
    by apply list_elem_of_filter.
  - intros p Hp. apply elem_of_app in Hp as [Hp|Hp].
    + left. by apply list_elem_of_filter in Hp as [_ Hp].
    + right. rewrite Hperm. apply elem_of_app. by right.
Qed.

Lemma open_door_tick_alights_witness :
  state arrived_top = OPEN_DOOR
  ∧ length (passengers arrived_top) = 1%nat
  ∧ Forall (λ p, p_to p ≠ currentFloor arrived_top)
      (passengers (elevator_of (stepTick arrived_top []))).
Proof.
  split; [vm_compute; reflexivity|]. split; [vm_compute; reflexivity|].
  refine (proj1 (proj2 (open_door_tick_alights arrived_top [] _ _))).
  - vm_compute. reflexivity.
  - constructor.
Defined.

(** X6: nobody boards or leaves, and the queue is not read, while the
    doors are not open: a tick in IDLE, MOVING or CLOSE_DOOR keeps the
    passengers and the queue and writes nothing on the console. *)
Theorem closed_doors_keep_passengers e q :
  state e ≠ OPEN_DOOR →
  passengers (elevator_of (stepTick e q)) = passengers e
  ∧ queue_of (stepTick e q) = q
  ∧ (stepTick e q).2 = [].
Proof.
  intros Hst. split; [by apply stepTick_passengers_other|].
  split; [by apply stepTick_queue_other|].
  unfold stepTick.
  destruct (state e); try done; destruct (direction e); case_ifs; reflexivity.
Qed.

Lemma closed_doors_keep_passengers_witness :
  state going_up ≠ OPEN_DOOR
  ∧ passengers (elevator_of (stepTick going_up two_waiting))
    = passengers going_up.
Proof.
  assert (H : state going_up ≠ OPEN_DOOR) by (vm_compute; discriminate).
  split; [exact H|].
  exact (proj1 (closed_doors_keep_passengers going_up two_waiting H)).
Defined.

Lemma Boarding_latest_first e q e' q' adm :
  Boarding e q e' q' adm → adm `sublist_of` reverse q.
Proof.
  induction 1 as [e|e q r e' q' adm Hfl _ IH|e q r e' q' adm Hfl Hd Hf _ IH
                 |e q r e' q' adm Hfl Hd _ IH|e q r e' q' adm Hfl Hd Hf Hfull _ IH
                 |e q r Hfl Hd Hf Hfull];
    rewrite ?reverse_snoc; try (by apply sublist_cons).
  - done.
  - by apply sublist_skip.
  - apply sublist_nil_l.
Qed.

(** X7: boarding is last in, first out: the passengers a boarding step
    takes, in the order they board, are a sublist of the queue read
    backwards, and they are appended behind the passengers aboard. *)
Theorem boarding_takes_latest_first e q :
  state e = OPEN_DOOR →
  let e' := elevator_of (handleBoardings e q) in
  take (length (passengers e)) (passengers e') = passengers e
  ∧ drop (length (passengers e)) (passengers e') `sublist_of` reverse q.
Proof.
  intros Hopen.
  destruct (handleBoardings_refines q e Hopen) as [adm Hadm].
  pose proof (Boarding_latest_first _ _ _ _ _ Hadm) as Hrev.
  apply Boarding_outcome in Hadm as (Hpass & _).
  cbv zeta. rewrite Hpass.
  rewrite take_app_length, drop_app_length. done.
Qed.

Lemma boarding_takes_latest_first_witness :
  drop (length (passengers single_cabin))
    (passengers (elevator_of (handleBoardings single_cabin two_waiting)))
  `sublist_of` reverse two_waiting.
Proof.
  exact (proj2 (boarding_takes_latest_first single_cabin two_waiting eq_refl)).
Defined.

(** X8: the capacity filter of assignment and the capacity test of boarding
    fit together: an elevator eligible for a request passes the boarding
    test for it, and for a request of positive weight the converse holds
    too. *)
Theorem eligible_iff_fits r e :
  (eligible r e → fits e r)
  ∧ (0 < p_weight r → fits e r → eligible r e).
Proof.
  unfold eligible, fits, isFull. split.
  - intros [Hfull Hw]. apply orb_false_iff in Hfull as [Hc Hm].
    apply Z.leb_gt in Hc. lia.
  - intros Hpos [Hc Hw]. split; [|lia].
    apply orb_false_iff. rewrite !Z.leb_gt. lia.
Qed.

(** X9: the doors stay open for two ticks.  Whatever opens the doors
    ([addTarget] on an idle elevator, or a tick) sets the timer to 2; with
    the timer at 2 the elevator is in OPEN_DOOR after one tick and in
    CLOSE_DOOR, at the same floor, after two, whatever the queue holds. *)
Theorem doors_stay_open_two_ticks e q :
  (∀ floor, state e ≠ OPEN_DOOR → state (addTarget floor e) = OPEN_DOOR →
            doorTimer (addTarget floor e) = 2)
  ∧ (state e ≠ OPEN_DOOR → state (elevator_of (stepTick e q)) = OPEN_DOOR →
     doorTimer (elevator_of (stepTick e q)) = 2)
  ∧ (state e = OPEN_DOOR → doorTimer e = 2 →
     state (stepTicks 1 e q).1 = OPEN_DOOR
     ∧ state (stepTicks 2 e q).1 = CLOSE_DOOR
     ∧ currentFloor (stepTicks 2 e q).1 = currentFloor e).
Proof.
  split; [|split].
  - intros floor. destruct e as [id tf cf st dir mp mw ps ts dt tt].
    unfold addTarget. simpl. destruct (_ || _); [done|]. simpl.
    destruct st; simpl; try done. by destruct (cf =? floor).
  - destruct e as [id tf cf st dir mp mw ps ts dt tt].
    unfold stepTick, elevator_of. simpl.
    destruct st; simpl; try done; [| |by case_ifs].
    + case_ifs; done.
    + destruct dir; case_ifs; done.
  - intros Hopen Htimer. simpl.
    destruct (stepTick_open_door e q Hopen)
      as (e2 & adm & Hscan & _ & _ & Hcab & _ & Hdt & Hst).
    apply Boarding_outcome in Hscan.
    destruct Hscan as (_ & _ & _ & _ & _ & _ & Hcab2 & _ & _ & Hdt2).
    pose proof (handleAlightings_fields e) as (_ & Hcab1 & _ & _ & _ & Hdt1).
    cbv zeta in *.
    set (e1 := elevator_of (stepTick e q)) in *.
    set (q1 := queue_of (stepTick e q)) in *.
    assert (Hst1 : state e1 = OPEN_DOOR)
      by (rewrite Hst, Hdt2, Hdt1, Htimer; done).
    assert (Hdt1' : doorTimer e1 = 1) by (rewrite Hdt, Hdt2, Hdt1; lia).
    split; [exact Hst1|].
    destruct (stepTick_open_door e1 q1 Hst1)
      as (e3 & adm' & Hscan' & _ & _ & Hcab' & _ & _ & Hst').
    apply Boarding_outcome in Hscan'.
    destruct Hscan' as (_ & _ & _ & _ & _ & _ & Hcab3 & _ & _ & Hdt3).
    pose proof (handleAlightings_fields e1) as (_ & Hcab4 & _ & _ & _ & Hdt4).
    cbv zeta in *. unfold same_cabin in *.
    split.
    + rewrite Hst', Hdt3, Hdt4, Hdt1'. done.
    + destruct Hcab as (_ & _ & Hc & _), Hcab1 as (_ & _ & Hc1 & _),
        Hcab2 as (_ & _ & Hc2 & _), Hcab' as (_ & _ & Hc' & _),
        Hcab3 as (_ & _ & Hc3 & _), Hcab4 as (_ & _ & Hc4 & _).
      congruence.
Qed.

(** ** Travel *)

Lemma set_currentFloor_same e : set_currentFloor (currentFloor e) e = e.
Proof. by destruct e. Qed.

Lemma stepTick_moving_step e q (next : Z) :
  state e = MOVING →
  (direction e = UP ∧ currentFloor e < totalFloors e
   ∧ next = currentFloor e + 1)
  ∨ (direction e = DOWN ∧ 1 < currentFloor e ∧ next = currentFloor e - 1) →
  stepTick e q =
  (if JSSet.has next (targets e) then arrive next e
   else set_currentFloor next e, q, []).
Proof.
  intros Hst Hdir. unfold stepTick, arrive. rewrite Hst.
  destruct Hdir as [(-> & Hlt & ->)|(-> & Hlt & ->)];
    apply Z.ltb_lt in Hlt as ->; simpl;
    by destruct (JSSet.has _ _).
Qed.

Lemma stepTicks_S k e q :
  stepTicks (S k) e q
  = stepTicks k (elevator_of (stepTick e q)) (queue_of (stepTick e q)).
Proof. reflexivity. Qed.

(** [sgn] is 1 for UP and -1 for DOWN. *)
Lemma travel_steps q (sgn : Z) n : ∀ e,
  state e = MOVING →
  (direction e = UP ∧ sgn = 1
   ∧ currentFloor e + Z.of_nat (S n) ≤ totalFloors e)
  ∨ (direction e = DOWN ∧ sgn = -1 ∧ 1 ≤ currentFloor e - Z.of_nat (S n)) →
  JSSet.has (currentFloor e + sgn * Z.of_nat (S n)) (targets e) = true →
  (∀ k, (1 ≤ k ≤ n)%nat →
        JSSet.has (currentFloor e + sgn * Z.of_nat k) (targets e) = false) →
  stepTicks (S n) e q = (arrive (currentFloor e + sgn * Z.of_nat (S n)) e, q)
  ∧ ∀ k, (k ≤ n)%nat →
         stepTicks k e q
         = (set_currentFloor (currentFloor e + sgn * Z.of_nat k) e, q).
Proof.
  induction n as [|m IH]; intros e Hst Hdir Hhas Hfree;
    assert (Hnext :
      (direction e = UP ∧ currentFloor e < totalFloors e
       ∧ currentFloor e + sgn * Z.of_nat 1 = currentFloor e + 1)
      ∨ (direction e = DOWN ∧ 1 < currentFloor e
         ∧ currentFloor e + sgn * Z.of_nat 1 = currentFloor e - 1))
      by (destruct Hdir as [(? & -> & ?)|(? & -> & ?)]; [left|right];
          split_and!; try done; lia).
  - assert (Hstep : stepTick e q
                    = (arrive (currentFloor e + sgn * Z.of_nat 1) e, q, [])).
    { rewrite (stepTick_moving_step e q _ Hst Hnext). by rewrite Hhas. }
    split.
    + rewrite stepTicks_S. unfold elevator_of, queue_of. by rewrite Hstep.
    + intros k Hk. assert (k = 0%nat) as -> by lia. simpl.
      rewrite Z.mul_0_r, Z.add_0_r. by rewrite set_currentFloor_same.
  - set (e1 := set_currentFloor (currentFloor e + sgn * Z.of_nat 1) e).
    assert (Hstep : stepTick e q = (e1, q, [])).
    { rewrite (stepTick_moving_step e q _ Hst Hnext).
      by rewrite (Hfree 1%nat) by lia. }
    assert (Hfloor1 : ∀ k, currentFloor e1 + sgn * Z.of_nat k
                           = currentFloor e + sgn * Z.of_nat (S k)).
    { intros k. subst e1. simpl. lia. }
    destruct (IH e1) as [Harrive Hway].
    + done.
    + subst e1. simpl.
      destruct Hdir as [(? & -> & ?)|(? & -> & ?)]; [left|right];
        split_and!; try done; lia.
    + rewrite Hfloor1. exact Hhas.
    + intros k Hk. rewrite Hfloor1. apply Hfree. lia.
    + split.
      * rewrite stepTicks_S. unfold elevator_of, queue_of. rewrite Hstep.
        cbn [fst snd]. rewrite Harrive, Hfloor1. by destruct e.
      * intros k Hk. destruct k as [|k].
        -- simpl. rewrite Z.mul_0_r, Z.add_0_r.
           by rewrite set_currentFloor_same.
        -- rewrite stepTicks_S. unfold elevator_of, queue_of. rewrite Hstep.
           cbn [fst snd]. rewrite Hway by lia. rewrite Hfloor1.
           by destruct e.
Qed.

(** X10: a MOVING elevator reaches the next target floor in its direction
    of travel after exactly as many ticks as floors lie between, one floor
    per tick, and opens its doors there: for a target [t] within
    [1, totalFloors] ahead of the elevator, with no other target strictly
    between, the elevator is [k] floors further after each of the first
    ticks, and after [|t - currentFloor|] ticks it is at [t] in OPEN_DOOR
    with the door timer at 2 and [t] taken out of the targets; the queue is
    not touched on the way. *)
Theorem moving_reaches_next_target e q t :
  state e = MOVING →
  t ∈ targets e →
  1 ≤ t ≤ totalFloors e →
  (direction e = UP ∧ currentFloor e < t)
  ∨ (direction e = DOWN ∧ t < currentFloor e) →
  (∀ x, x ∈ targets e →
        ¬ (Z.min (currentFloor e) t < x < Z.max (currentFloor e) t)) →
  let d := Z.to_nat (Z.abs (t - currentFloor e)) in
  stepTicks d e q = (arrive t e, q)
  ∧ ∀ k, (k < d)%nat →
         stepTicks k e q
         = (set_currentFloor
              (currentFloor e
               + (if decide (direction e = UP) then 1 else -1) * Z.of_nat k) e,
            q).
Proof.
  intros Hst Ht Hrange Hdir Hfree d.
  set (sgn := if decide (direction e = UP) then 1 else -1).
  assert (Hd : ∃ n, d = S n
                    ∧ t = currentFloor e + sgn * Z.of_nat (S n)).
  { exists (Nat.pred d). subst d sgn.
    destruct Hdir as [[-> Hlt]|[-> Hlt]]; simpl; split; lia. }
  destruct Hd as (n & Hdn & Htn).
  destruct (travel_steps q sgn n e Hst) as [Harrive Hway].
  - subst sgn.
    destruct Hdir as [[Hup Hlt]|[Hdown Hlt]]; [left|right]; rewrite ?Hup,
      ?Hdown in *; simpl in *; split_and!; try done; lia.
  - rewrite <- Htn. unfold JSSet.has. by apply bool_decide_eq_true.
  - intros k Hk. unfold JSSet.has. apply bool_decide_eq_false.
    intros Hin. apply (Hfree _ Hin). subst sgn.
    destruct Hdir as [[Hup Hlt]|[Hdown Hlt]]; rewrite ?Hup, ?Hdown in *;
      simpl in *; lia.
  - rewrite Hdn. split; [by rewrite Harrive, <- Htn|].
    intros k Hk. apply Hway. lia.
Qed.

Lemma moving_reaches_next_target_witness :
  state going_up = MOVING ∧ currentFloor going_up = 1
  ∧ stepTicks 2 going_up [] = (arrive 3 going_up, []).
Proof.
  split; [vm_compute; reflexivity|]. split; [vm_compute; reflexivity|].
  refine (proj1 (moving_reaches_next_target going_up [] 3 _ _ _ _ _)).
  - vm_compute. reflexivity.
  - vm_compute. by left.
  - vm_compute. split; discriminate.
  - left. split; vm_compute; reflexivity.
  - intros x Hx. vm_compute in Hx.
    apply list_elem_of_singleton in Hx as ->. vm_compute. intros [H1 H2].
    discriminate H2.
Defined.

(** ** Elevators at rest *)

Lemma stepTick_at_rest e q : at_rest e → stepTick e q = (e, q, []).
Proof.
  unfold at_rest, stalled, stepTick.
  intros [[-> ->]|(-> & Hnot & Hdir)]; [done|].
  assert (Hhas : JSSet.has (currentFloor e) (targets e) = false)
    by (unfold JSSet.has; by apply bool_decide_eq_false).
  destruct Hdir as [[-> Htop]|[[-> Hbottom]| ->]].
  - apply Z.ltb_ge in Htop as ->. by rewrite Hhas.
  - apply Z.ltb_ge in Hbottom as ->. by rewrite Hhas.
  - by rewrite Hhas.
Qed.

Lemma stepElevators_at_rest els q :
  Forall at_rest els → stepElevators els q = (els, q, []).
Proof.
  induction 1 as [|el rest Hel _ IH]; [done|]. simpl.
  by rewrite (stepTick_at_rest el q Hel), IH.
Qed.

Lemma tick_at_rest s :
  pendingRequests s = [] → Forall at_rest (elevators s) →
  elevators (tick s) = elevators s ∧ pendingRequests (tick s) = [].
Proof.
  intros Hq Hrest. unfold tick. cbv zeta.
  set (s0 := set_tickCount (tickCount s + 1) s).
  assert (H1 : assignPendingLoop (length (pendingRequests s0)) s0 = s0)
    by (subst s0; simpl; by rewrite Hq).
  rewrite H1.
  assert (H2 : elevators (stepPhase s0) = elevators s
               ∧ pendingRequests (stepPhase s0) = []).
  { unfold stepPhase. subst s0. simpl.
    rewrite Hq, (stepElevators_at_rest _ _ Hrest). done. }
  destruct H2 as [Hels Hq2].
  destruct (_ =? 0); [|done].
  unfold releasePendingToIdleElevators. simpl. rewrite Hq2. done.
Qed.

(** X11: an elevator at rest never starts again by itself.  When the queue
    is empty and every elevator is either IDLE without targets or stalled
    (MOVING at the boundary in its direction of travel, that floor not
    being a target), any number of ticks leaves every elevator exactly as
    it is, its passengers and remaining targets included, and the queue
    empty. *)
Theorem at_rest_forever s n :
  pendingRequests s = [] →
  Forall at_rest (elevators s) →
  elevators (run s (replicate n Tick)) = elevators s
  ∧ pendingRequests (run s (replicate n Tick)) = [].
Proof.
  intros Hq Hrest. induction n as [|n [IHels IHq]]; [done|].
  rewrite replicate_S_end. unfold run in *. rewrite foldl_app. simpl.
  destruct (tick_at_rest (foldl apply_op s (replicate n Tick))) as [Hels Hq'];
    [done | by rewrite IHels|].
  by rewrite Hels, Hq', IHels.
Qed.

Lemma at_rest_forever_witness :
  Forall (λ e, state e = MOVING ∧ currentFloor e = 1
               ∧ targets e = [2; 3] ∧ length (passengers e) = 1%nat)
    (elevators stranded)
  ∧ elevators (run stranded (replicate 1000 Tick)) = elevators stranded.
Proof.
  split; [vm_compute; repeat constructor|].
  refine (proj1 (at_rest_forever stranded 1000 _ _)).
  - vm_compute. reflexivity.
  - assert (Hels : ∃ e, elevators stranded = [e] ∧ stalled e).
    { eexists. split; [vm_compute; reflexivity|].
      split; [reflexivity|]. split.
      - simpl. intros Hin. apply elem_of_cons in Hin as [Hin|Hin];
          [discriminate|]. apply list_elem_of_singleton in Hin. discriminate.
      - right. left. split; [reflexivity|]. simpl. lia. }
    destruct Hels as (e & -> & He). constructor; [by right | constructor].
Defined.

(** ** What assignment and ticks leave alone *)

Section ElevatorField.
Context {A : Type} (f : Elevator → A).
Hypothesis f_addTarget : ∀ floor e, f (addTarget floor e) = f e.

Lemma attempt_field r els : f <$> attempt r els = f <$> els.
Proof.
  unfold attempt.
  destruct (assignScanDirect r els 0 None) as [[best sc]|]; [|done].
  rewrite (list_fmap_alter f _ id).
  - apply list_alter_id. done.
  - apply Forall_true. intros e. apply f_addTarget.
Qed.

Lemma tryAssignElevatorDirect_field r s :
  f <$> elevators (tryAssignElevatorDirect r s).1 = f <$> elevators s.
Proof.
  rewrite (proj1 (tryAssignElevatorDirect_attempt r s)). simpl.
  apply attempt_field.
Qed.

Lemma tryAssignElevator_field r s :
  f <$> elevators (tryAssignElevator r s).1 = f <$> elevators s.
Proof.
  pose proof (attempt_field r (elevators s)) as Hatt.
  unfold tryAssignElevator, attempt in *. rewrite assignScan_Direct.
  by destruct (assignScanDirect r (elevators s) 0 None) as [[best sc]|].
Qed.

Lemma requestElevator_field uuid from to weight s :
  f <$> elevators (requestElevator uuid from to weight s) = f <$> elevators s.
Proof.
  unfold requestElevator. destruct (_ || _); [done|].
  pose proof (tryAssignElevator_field (Passenger_new uuid from to weight) s)
    as Hfield.
  by destruct (tryAssignElevator _ s) as [s1 [assigned|]].
Qed.

Lemma assignPendingLoop_field n : ∀ s,
  f <$> elevators (assignPendingLoop n s) = f <$> elevators s.
Proof.
  induction n as [|i IH]; intros s; [done|]. cbn [assignPendingLoop].
  destruct (pendingRequests s !! i) as [req|]; [|done].
  pose proof (tryAssignElevatorDirect_field req s) as Hfield.
  destruct (tryAssignElevatorDirect req s) as [s1 [assigned|]];
    rewrite IH; exact Hfield.
Qed.

Lemma releaseLoop_field n : ∀ s,
  f <$> elevators (releaseLoop n s) = f <$> elevators s.
Proof.
  induction n as [|i IH]; intros s; [done|]. cbn [releaseLoop].
  destruct (pendingRequests s !! i) as [req|]; [|done].
  pose proof (tryAssignElevatorDirect_field req s) as Hfield.
  destruct (tryAssignElevatorDirect req s) as [s1 [assigned|]];
    [destruct (findIndex _ _)|]; rewrite IH; exact Hfield.
Qed.

Hypothesis f_stepTick : ∀ e q, f (elevator_of (stepTick e q)) = f e.

Lemma stepElevators_field els : ∀ q,
  f <$> (stepElevators els q).1.1 = f <$> els.
Proof.
  induction els as [|el rest IH]; intros q; [done|]. cbn [stepElevators].
  pose proof (f_stepTick el q) as Hel. unfold elevator_of in Hel.
  destruct (stepTick el q) as [[el' q1] evs1]. specialize (IH q1).
  destruct (stepElevators rest q1) as [[rest' q2] evs2].
  cbn [fst snd] in *. by rewrite !fmap_cons, Hel, IH.
Qed.

Lemma tick_field s : f <$> elevators (tick s) = f <$> elevators s.
Proof.
  unfold tick. cbv zeta.
  set (s1 := assignPendingLoop _ _).
  assert (H1 : f <$> elevators s1 = f <$> elevators s)
    by (subst s1; by rewrite assignPendingLoop_field).
  assert (H2 : f <$> elevators (logStatus (stepPhase s1)) = f <$> elevators s).
  { unfold stepPhase.
    pose proof (stepElevators_field (elevators s1) (pendingRequests s1)) as H.
    destruct (stepElevators _ _) as [[els q] evs]. simpl in *. congruence. }
  destruct (_ =? 0); [|done].
  unfold releasePendingToIdleElevators. by rewrite releaseLoop_field.
Qed.

Lemma run_field ops : ∀ s, f <$> elevators (run s ops) = f <$> elevators s.
Proof.
  unfold run. induction ops as [|o ops IH]; intros s; [done|]. simpl.
  rewrite IH. destruct o; simpl.
  - apply requestElevator_field.
  - apply tick_field.
Qed.
End ElevatorField.

(** X12: no submission and no tick changes the number of elevators, their
    order, or the identifier, the floor count and the two capacity limits
    of any of them. *)
Theorem configuration_never_changes s ops :
  configuration <$> elevators (run s ops) = configuration <$> elevators s
  ∧ length (elevators (run s ops)) = length (elevators s).
Proof.
  assert (H : configuration <$> elevators (run s ops)
              = configuration <$> elevators s).
  { apply run_field.
    - intros floor e. unfold configuration.
      pose proof (addTarget_cabin floor e) as [(-> & -> & _ & -> & ->) _].
      done.
    - intros e q. unfold configuration.
      pose proof (stepTick_cabin e q) as (-> & -> & -> & -> & _). done. }
  split; [exact H|].
  apply (f_equal length) in H. by rewrite !length_fmap in H.
Qed.

(** ** The periodic sweep *)

Lemma findIndex_elem r q : r ∈ q → ∃ idx, findIndex (p_id r) q = Some idx
                                         ∧ is_Some (q !! idx).
Proof.
  induction q as [|p q IH]; intros Hin; [by apply elem_of_nil in Hin|].
  simpl. case_bool_decide as Hid; [exists 0%nat; eauto|].
  apply elem_of_cons in Hin as [->|Hin]; [done|].
  destruct (IH Hin) as (idx & -> & Hidx). exists (S idx). eauto.
Qed.

Lemma eligible_addTarget r floor e :
  eligible r e → eligible r (addTarget floor e).
Proof.
  unfold eligible, isFull, occupancyCount, occupancyWeight.
  pose proof (addTarget_cabin floor e) as [(_ & _ & _ & -> & ->) ->]. done.
Qed.

Lemma attempt_keeps_room (P : Elevator → Prop) r els :
  (∀ floor e, P e → P (addTarget floor e)) →
  (∃ e, e ∈ els ∧ P e) → ∃ e, e ∈ attempt r els ∧ P e.
Proof.
  intros HP (e & He & HPe). unfold attempt.
  destruct (assignScanDirect r els 0 None) as [[best sc]|]; [|eauto].
  apply list_elem_of_lookup in He as [j Hj].
  destruct (decide (best = j)) as [->|Hne].
  - exists (addTarget (p_from r) e). split; [|by apply HP].
    apply list_elem_of_lookup. exists j.
    by rewrite list_lookup_alter_eq, Hj.
  - exists e. split; [|done]. apply list_elem_of_lookup. exists j.
    by rewrite list_lookup_alter_ne.
Qed.

Lemma releaseLoop_empties n : ∀ s,
  length (pendingRequests s) = n →
  (∃ e, e ∈ elevators s ∧ ∀ r, r ∈ pendingRequests s → eligible r e) →
  pendingRequests (releaseLoop n s) = [].
Proof.
  induction n as [|i IH]; intros s Hlen Hroom.
  { simpl. by apply nil_length_inv. }
  cbn [releaseLoop].
  destruct (lookup_lt_is_Some_2 (pendingRequests s) i) as [req Hreq]; [lia|].
  rewrite Hreq.
  assert (Hin : req ∈ pendingRequests s)
    by (apply list_elem_of_lookup; eauto).
  pose proof (attempt_outcome req (elevators s)) as Hout.
  destruct (tryAssignElevatorDirect_attempt req s) as [Hs1 Hwon].
  destruct (tryAssignElevatorDirect req s) as [s1 won].
  simpl in Hs1, Hwon. subst s1 won.
  destruct (assignScanDirect req (elevators s) 0 None) as [[best sc]|]; simpl.
  - destruct (findIndex_elem req _ Hin) as (idx & -> & Hidx).
    apply IH.
    + simpl. rewrite length_delete by done. lia.
    + simpl.
      destruct (attempt_keeps_room
                  (λ e, ∀ r, r ∈ pendingRequests s → eligible r e)
                  req (elevators s)) as (e' & He' & Hroom').
      * intros floor e He r Hr. by apply eligible_addTarget, He.
      * exact Hroom.
      * exists e'. split; [done|]. intros r Hr. apply Hroom'.
        eapply elem_of_sublist; [exact Hr | apply sublist_delete].
  - exfalso. destruct Hout as [Hnone _].
    destruct Hroom as (e & He & Hall). by apply (Hnone e He), Hall.
Qed.

(** X13: the periodic sweep drops waiting requests.  When some elevator is
    eligible for every queued request, [releasePendingToIdleElevators]
    leaves the queue empty although no passenger list has changed: every
    waiting request is taken out of the queue without having boarded. *)
Theorem sweep_empties_queue s :
  (∃ e, e ∈ elevators s ∧ ∀ r, r ∈ pendingRequests s → eligible r e) →
  pendingRequests (releasePendingToIdleElevators s) = []
  ∧ passengers <$> elevators (releasePendingToIdleElevators s)
    = passengers <$> elevators s.
Proof.
  intros Hroom. unfold releasePendingToIdleElevators. split.
  - by apply releaseLoop_empties.
  - apply releaseLoop_field. intros floor e. apply addTarget_cabin.
Qed.

Lemma sweep_empties_queue_witness :
  pendingRequests waiting_with_room = [Passenger_new "p" 1 3 None]
  ∧ Forall (λ e, passengers e = []) (elevators waiting_with_room)
  ∧ pendingRequests (releasePendingToIdleElevators waiting_with_room) = [].
Proof.
  split; [vm_compute; reflexivity|]. split; [vm_compute; repeat constructor|].
  refine (proj1 (sweep_empties_queue waiting_with_room _)).
  assert (Hels : ∃ e, elevators waiting_with_room = [e]
                      ∧ eligible (Passenger_new "p" 1 3 None) e).
  { eexists. split; [vm_compute; reflexivity|]. split; [reflexivity|].
    vm_compute. discriminate. }
  destruct Hels as (e & Hels & He). exists e. rewrite Hels.
  split; [by left|].
  intros r Hr.
  assert (Hq : pendingRequests waiting_with_room
               = [Passenger_new "p" 1 3 None]) by (vm_compute; reflexivity).
  rewrite Hq in Hr. by apply list_elem_of_singleton in Hr as ->.
Defined.

(** ** Requests are never duplicated *)

Lemma stepTick_holding e q :
  queue_of (stepTick e q) ++ passengers (elevator_of (stepTick e q))
  ⊆+ q ++ passengers e.
Proof.
  destruct (decide (state e = OPEN_DOOR)) as [Hopen|Hother].
  - destruct (stepTick_open_door e q Hopen)
      as (e2 & adm & Hscan & Hpass & _).
    apply Boarding_outcome in Hscan as (Hp2 & Hperm & _).
    pose proof (handleAlightings_fields e) as (Hp1 & _).
    cbv zeta in *. rewrite Hpass, Hp2, Hp1.
    set (rest := filter _ (passengers e)).
    transitivity ((queue_of (stepTick e q) ++ adm) ++ rest).
    + apply Permutation_submseteq.
      by rewrite (Permutation_app_comm rest adm), app_assoc.
    + rewrite <- Hperm. apply submseteq_skips_l.
      apply sublist_submseteq, sublist_filter.
  - rewrite stepTick_queue_other, stepTick_passengers_other by done. done.
Qed.

Lemma stepElevators_holding els : ∀ q,
  (stepElevators els q).1.2 ++ concat (passengers <$> (stepElevators els q).1.1)
  ⊆+ q ++ concat (passengers <$> els).
Proof.
  induction els as [|el rest IH]; intros q; [done|]. cbn [stepElevators].
  pose proof (stepTick_holding el q) as Hel.
  unfold elevator_of, queue_of in Hel.
  destruct (stepTick el q) as [[el' q1] evs1]. specialize (IH q1).
  destruct (stepElevators rest q1) as [[rest' q2] evs2].
  cbn [fst snd] in *. rewrite !fmap_cons, !concat_cons.
  transitivity (passengers el' ++ q1 ++ concat (passengers <$> rest)).
  - rewrite (app_assoc q2), (Permutation_app_comm q2), <- app_assoc.
    by apply submseteq_skips_l.
  - rewrite !app_assoc. apply submseteq_app; [|done].
    by rewrite (Permutation_app_comm (passengers el')).
Qed.

Lemma releaseLoop_pending n : ∀ s,
  pendingRequests (releaseLoop n s) `sublist_of` pendingRequests s.
Proof.
  induction n as [|i IH]; intros s; [done|]. cbn [releaseLoop].
  destruct (pendingRequests s !! i) as [req|]; [|done].
  destruct (tryAssignElevatorDirect_attempt req s) as [Hs1 _].
  destruct (tryAssignElevatorDirect req s) as [s1 [won|]];
    simpl in Hs1; subst s1; [|etransitivity; [apply IH|done]].
  destruct (findIndex _ _) as [idx|]; [|etransitivity; [apply IH|done]].
  etransitivity; [apply IH|]. simpl. apply sublist_delete.
Qed.

Lemma passengers_addTarget floor e :
  passengers (addTarget floor e) = passengers e.
Proof. apply addTarget_cabin. Qed.

Lemma tick_holding s : holding (tick s) ⊆+ holding s.
Proof.
  unfold tick. cbv zeta.
  set (s0 := set_tickCount (tickCount s + 1) s).
  set (s1 := assignPendingLoop (length (pendingRequests s0)) s0).
  assert (H1 : holding s1 = holding s).
  { unfold holding. subst s1.
    rewrite (assignPendingLoop_field passengers passengers_addTarget).
    by rewrite (proj1 (assignPendingLoop_spec _ s0 (Nat.le_refl _))). }
  assert (H3 : holding (logStatus (stepPhase s1)) ⊆+ holding s).
  { rewrite <- H1. unfold holding, stepPhase.
    pose proof (stepElevators_holding (elevators s1) (pendingRequests s1)) as H.
    by destruct (stepElevators _ _) as [[els q] evs]. }
  destruct (_ =? 0); [|done].
  etransitivity; [|exact H3].
  unfold holding, releasePendingToIdleElevators.
  rewrite (releaseLoop_field passengers passengers_addTarget).
  apply submseteq_app; [|done].
  apply sublist_submseteq, releaseLoop_pending.
Qed.

Lemma requestElevator_holding uuid from to weight s :
  holding (requestElevator uuid from to weight s)
  ⊆+ holding s ++ [Passenger_new uuid from to weight].
Proof.
  unfold requestElevator.
  destruct (_ || _); [by apply submseteq_inserts_r|].
  pose proof (tryAssignElevator_field passengers passengers_addTarget
                (Passenger_new uuid from to weight) s) as Hpass.
  pose proof (tryAssignElevator_pending (Passenger_new uuid from to weight) s)
    as Hq.
  destruct (tryAssignElevator _ s) as [s1 [assigned|]];
    unfold holding; simpl in *; rewrite Hpass, Hq;
    rewrite <- !app_assoc; apply submseteq_skips_l;
    by rewrite Permutation_app_comm.
Qed.

Lemma run_holding ops : ∀ s,
  holding (run s ops) ⊆+ holding s ++ submitted ops.
Proof.
  unfold run.
  induction ops as [|o ops IH]; intros s; simpl; [by rewrite app_nil_r|].
  etransitivity; [apply IH|].
  destruct o as [uuid from to weight|]; simpl.
  - change (?x :: ?l) with ([x] ++ l). rewrite app_assoc.
    apply submseteq_app; [|done]. apply requestElevator_holding.
  - apply submseteq_app; [|done]. apply tick_holding.
Qed.

(** X14: requests are conserved.  After any run from construction, the
    requests in the queue and aboard the elevators, taken together, are
    among the requests submitted, each at most as often as it was
    submitted; so when the submitted identifiers are pairwise different, no
    request is in two places at once (in the queue and in an elevator, in
    two elevators, or twice in one of them). *)
Theorem requests_never_duplicated numElevators floors opts ops :
  let s := run (ElevatorSystem_new numElevators floors opts) ops in
  pendingRequests s ++ concat (passengers <$> elevators s) ⊆+ submitted ops
  ∧ (NoDup (p_id <$> submitted ops) →
     NoDup (p_id <$> pendingRequests s ++ concat (passengers <$> elevators s))).
Proof.
  intros s.
  assert (Hsub : holding s ⊆+ submitted ops).
  { etransitivity; [apply run_holding|].
    assert (Hnew : holding (ElevatorSystem_new numElevators floors opts) = []).
    { unfold holding. simpl. rewrite <- list_fmap_compose.
      induction (seqZ 1 (default 3 numElevators)); [done|]. by simpl. }
    by rewrite Hnew. }
  split; [exact Hsub|].
  intros Hids.
  apply (fmap_submseteq p_id) in Hsub.
  apply submseteq_Permutation in Hsub as [k Hk].
  rewrite Hk in Hids. by apply NoDup_app in Hids as [Hids _].
Qed.

Lemma requests_never_duplicated_witness :
  NoDup (p_id <$> pendingRequests (run sample_system sample_ops)
                  ++ concat (passengers
                               <$> elevators (run sample_system sample_ops))).
Proof.
  refine (proj2 (requests_never_duplicated (Some 3) (Some 12)
                   (mkOpts None None None (Some 700)) sample_ops) _).
  vm_compute. repeat constructor; intros Hin;
    repeat (apply elem_of_cons in Hin as [Hin|Hin]; [discriminate|]);
    by apply elem_of_nil in Hin.
Defined.

(** ** Targets and requests stay within the building *)

Lemma JSSet_add_NoDup x s : NoDup s → NoDup (JSSet.add x s).
Proof.
  intros Hs. unfold JSSet.add, JSSet.has. case_bool_decide; [done|].
  apply NoDup_app. split; [done|]. split; [|apply NoDup_singleton].
  intros y Hy Hin. apply list_elem_of_singleton in Hin as ->. done.
Qed.

Lemma JSSet_add_Forall (P : Z → Prop) x s :
  P x → Forall P s → Forall P (JSSet.add x s).
Proof.
  intros Hx Hs. unfold JSSet.add. destruct (JSSet.has x s); [done|].
  apply Forall_app. split; [done|]. by constructor.
Qed.

Lemma Boarding_targets (P : Z → Prop) e q e' q' adm :
  Boarding e q e' q' adm →
  (NoDup (targets e) → NoDup (targets e'))
  ∧ (Forall P (targets e) → Forall (λ r, P (p_to r)) adm →
     Forall P (targets e')).
Proof.
  induction 1 as [e|e q r e' q' adm Hfl _ IH|e q r e' q' adm Hfl Hd Hf _ IH
                 |e q r e' q' adm Hfl Hd _ IH|e q r e' q' adm Hfl Hd Hf Hfull _ IH
                 |e q r Hfl Hd Hf Hfull]; try tauto.
  destruct IH as [IHnd IHall]. simpl in *. split.
  - intros Hnd. by apply IHnd, JSSet_add_NoDup.
  - intros Hall Hadm. apply Forall_cons in Hadm as [Hr Hadm].
    apply IHall; [|done]. by apply JSSet_add_Forall.
Qed.

Lemma addTarget_building_inv tf floor e :
  building_inv tf e → building_inv tf (addTarget floor e).
Proof.
  destruct e as [id total cf st dir mp mw ps ts dt tt].
  unfold building_inv, addTarget. simpl.
  destruct ((floor <? 1) || (total <? floor)) eqn:Htest; [done|].
  apply orb_false_iff in Htest as [H1 H2].
  apply Z.ltb_ge in H1, H2.
  intros (-> & Hnd & Hall & Hps).
  assert (Hnd' : NoDup (JSSet.add floor ts)) by by apply JSSet_add_NoDup.
  assert (Hall' : Forall (λ t, 1 ≤ t ≤ tf) (JSSet.add floor ts))
    by (apply JSSet_add_Forall; [lia | done]).
  destruct st; simpl; try done. by destruct (cf =? floor).
Qed.

Lemma stepTick_building_inv tf e q :
  building_inv tf e → Forall (valid_request tf) q →
  building_inv tf (elevator_of (stepTick e q)).
Proof.
  intros Hinv Hq.
  destruct (decide (state e = OPEN_DOOR)) as [Hopen|Hother].
  - destruct (stepTick_open_door e q Hopen)
      as (e2 & adm & Hscan & Hpass & Htargets & Hcab & _).
    pose proof (Boarding_targets (λ t, 1 ≤ t ≤ tf) _ _ _ _ _ Hscan)
      as [Hnd2 Hall2].
    apply Boarding_outcome in Hscan.
    destruct Hscan as (Hp2 & Hperm & _ & _ & _ & _ & Hcab2 & _).
    pose proof (handleAlightings_fields e) as (Hp1 & Hcab1 & _ & _ & Ht1 & _).
    cbv zeta in *. unfold building_inv, same_cabin in *.
    destruct Hinv as (Htf & Hnd & Hall & Hps).
    assert (Hadm : Forall (valid_request tf) adm).
    { rewrite Hperm in Hq. by apply Forall_app in Hq as [_ Hq]. }
    rewrite Ht1 in Hnd2, Hall2.
    rewrite Hpass, Htargets, Hp2, Hp1.
    split; [destruct Hcab as (_ & -> & _), Hcab2 as (_ & -> & _),
              Hcab1 as (_ & -> & _); done|].
    split; [by apply Hnd2|]. split.
    + apply Hall2; [done|]. eapply Forall_impl; [exact Hadm|].
      intros r (_ & Hto & _). exact Hto.
    + apply Forall_app. split; [|done].
      eapply Forall_sublist; [apply sublist_filter | done].
  - destruct e as [id total cf st dir mp mw ps ts dt tt].
    unfold building_inv, stepTick, elevator_of in *. simpl in *.
    destruct Hinv as (-> & Hnd & Hall & Hps).
    assert (Hdel : ∀ x, NoDup (JSSet.delete x ts)
                        ∧ Forall (λ t, 1 ≤ t ≤ tf) (JSSet.delete x ts)).
    { intros x. unfold JSSet.delete. split.
      - by apply NoDup_filter.
      - eapply Forall_sublist; [apply sublist_filter | done]. }
    destruct st; simpl; try done.
    + case_ifs; simpl; done.
    + destruct dir; case_ifs; simpl; split_and!; try done; apply Hdel.
    + case_ifs; simpl; done.
Qed.

Lemma assignPendingLoop_totalFloors n : ∀ s,
  sys_totalFloors (assignPendingLoop n s) = sys_totalFloors s.
Proof.
  induction n as [|i IH]; intros s; [done|]. cbn [assignPendingLoop].
  destruct (pendingRequests s !! i) as [req|]; [|done].
  destruct (tryAssignElevatorDirect_attempt req s) as [Hs1 _].
  destruct (tryAssignElevatorDirect req s) as [s1 [won|]];
    simpl in Hs1; subst s1; by rewrite IH.
Qed.

Lemma releaseLoop_totalFloors n : ∀ s,
  sys_totalFloors (releaseLoop n s) = sys_totalFloors s.
Proof.
  induction n as [|i IH]; intros s; [done|]. cbn [releaseLoop].
  destruct (pendingRequests s !! i) as [req|]; [|done].
  destruct (tryAssignElevatorDirect_attempt req s) as [Hs1 _].
  destruct (tryAssignElevatorDirect req s) as [s1 [won|]];
    simpl in Hs1; subst s1; [destruct (findIndex _ _)|]; by rewrite IH.
Qed.

Lemma tick_totalFloors s : sys_totalFloors (tick s) = sys_totalFloors s.
Proof.
  unfold tick. cbv zeta.
  set (s1 := assignPendingLoop _ _).
  assert (H1 : sys_totalFloors s1 = sys_totalFloors s)
    by (subst s1; by rewrite assignPendingLoop_totalFloors).
  assert (H3 : sys_totalFloors (logStatus (stepPhase s1)) = sys_totalFloors s).
  { unfold stepPhase. by destruct (stepElevators _ _) as [[els q] evs]. }
  destruct (_ =? 0); [|done].
  unfold releasePendingToIdleElevators. by rewrite releaseLoop_totalFloors.
Qed.

Lemma requestElevator_totalFloors uuid from to weight s :
  sys_totalFloors (requestElevator uuid from to weight s) = sys_totalFloors s.
Proof.
  unfold requestElevator, tryAssignElevator. destruct (_ || _); [done|].
  by destruct (assignScan _ _ _ _) as [[best sc]|].
Qed.

Lemma run_building_inv ops : ∀ s,
  system_inv (building_inv (sys_totalFloors s))
    (valid_request (sys_totalFloors s)) s →
  system_inv (building_inv (sys_totalFloors s))
    (valid_request (sys_totalFloors s)) (run s ops)
  ∧ sys_totalFloors (run s ops) = sys_totalFloors s.
Proof.
  unfold run.
  induction ops as [|o ops IH]; intros s Hs; [done|]. simpl.
  assert (Hstep : system_inv (building_inv (sys_totalFloors s))
                    (valid_request (sys_totalFloors s)) (apply_op s o)
                  ∧ sys_totalFloors (apply_op s o) = sys_totalFloors s).
  { destruct o as [uuid from to weight|]; simpl.
    - split; [|apply requestElevator_totalFloors].
      destruct (decide (invalid_request s from to)) as [Hinv|Hval].
      + apply invalid_request_test in Hinv.
        unfold requestElevator. by rewrite Hinv.
      + apply requestElevator_inv; [| |done].
        * intros floor e. apply addTarget_building_inv.
        * unfold invalid_request in Hval. unfold valid_request. simpl. lia.
    - split; [|apply tick_totalFloors].
      apply tick_inv; [| |done].
      + intros floor e. apply addTarget_building_inv.
      + intros e q. apply stepTick_building_inv. }
  destruct Hstep as [Hinv Htf].
  rewrite <- Htf in Hinv. destruct (IH _ Hinv) as [Hrun Htf'].
  rewrite Htf in Hrun, Htf'. done.
Qed.

(** X15: targets and requests stay within the building.  After any run
    from construction every elevator has the floor count of the system;
    its targets are floors within [1, totalFloors], each held once; and
    every request in the queue or aboard an elevator has its origin and its
    destination within [1, totalFloors], different from each other. *)
Theorem targets_within_building numElevators floors opts ops :
  let s := run (ElevatorSystem_new numElevators floors opts) ops in
  Forall (λ e,
      totalFloors e = sys_totalFloors s
      ∧ NoDup (targets e)
      ∧ Forall (λ t, 1 ≤ t ≤ totalFloors e) (targets e)
      ∧ Forall (λ p, 1 ≤ p_from p ≤ totalFloors e
                     ∧ 1 ≤ p_to p ≤ totalFloors e
                     ∧ p_from p ≠ p_to p) (passengers e))
    (elevators s)
  ∧ Forall (λ p, 1 ≤ p_from p ≤ sys_totalFloors s
                 ∧ 1 ≤ p_to p ≤ sys_totalFloors s
                 ∧ p_from p ≠ p_to p) (pendingRequests s).
Proof.
  intros s.
  destruct (run_building_inv ops
              (ElevatorSystem_new numElevators floors opts)) as [[Hels Hq] Htf].
  { split; [|done]. apply ElevatorSystem_new_Forall. intros i.
    unfold building_inv. simpl. split_and!; try done; constructor. }
  fold s in Hels, Hq, Htf. rewrite <- Htf in Hels, Hq.
  split; [|exact Hq].
  eapply Forall_impl; [exact Hels|].
  intros e (Htot & Hnd & Hall & Hps). rewrite Htot. done.
Qed.

(** ** Submission and the winning elevator *)

(** X16: a valid submission reaches the elevator that wins it.  In any
    system reached from construction, the winner has the origin floor among
    its targets afterwards and its passengers are untouched; if it was IDLE
    it opens its doors at once when it stands at the origin (timer 2) and
    otherwise starts MOVING toward the origin; if it was not IDLE its state
    and direction are kept; every other elevator is as before.  Without a
    winner no elevator changes. *)
Theorem request_reaches_winner numElevators floors opts ops uuid from to weight :
  let s := run (ElevatorSystem_new numElevators floors opts) ops in
  let p := Passenger_new uuid from to weight in
  let s' := requestElevator uuid from to weight s in
  ¬ invalid_request s from to →
  match (tryAssignElevator p s).2 with
  | Some i =>
      ∃ e e', elevators s !! i = Some e ∧ elevators s' !! i = Some e'
              ∧ from ∈ targets e'
              ∧ passengers e' = passengers e
              ∧ (state e = IDLE → currentFloor e = from →
                 state e' = OPEN_DOOR ∧ doorTimer e' = 2)
              ∧ (state e = IDLE → currentFloor e ≠ from →
                 state e' = MOVING
                 ∧ direction e' = (if currentFloor e <? from then UP else DOWN))
              ∧ (state e ≠ IDLE →
                 state e' = state e ∧ direction e' = direction e)
              ∧ ∀ j, j ≠ i → elevators s' !! j = elevators s !! j
  | None => elevators s' = elevators s
  end.
Proof.
  intros s p s' Hvalid.
  destruct (run_building_inv ops
              (ElevatorSystem_new numElevators floors opts)) as [[Hels _] Htf].
  { split; [|done]. apply ElevatorSystem_new_Forall. intros i.
    unfold building_inv. simpl. split_and!; try done; constructor. }
  fold s in Hels, Htf. rewrite <- Htf in Hels.
  assert (Hs' : s' = match tryAssignElevator p s with
                     | (s1, None) =>
                         log [LogQueued from to]
                           (set_pendingRequests (pendingRequests s1 ++ [p]) s1)
                     | (s1, Some assigned) =>
                         log [LogAssigned (p_id p) (elevatorId s1 assigned)
                                from to] s1
                     end).
  { subst s'. unfold requestElevator.
    rewrite invalid_request_test in Hvalid.
    apply not_true_is_false in Hvalid. by rewrite Hvalid. }
  pose proof (attempt_outcome p (elevators s)) as Hout.
  unfold tryAssignElevator in *. rewrite assignScan_Direct in *.
  destruct (assignScanDirect p (elevators s) 0 None) as [[i sc]|];
    simpl in *; [|by rewrite Hs'].
  destruct Hout as [(e & Hi & _) _].
  exists e, (addTarget from e).
  assert (He : building_inv (sys_totalFloors s) e).
  { rewrite Forall_forall in Hels. apply Hels.
    apply list_elem_of_lookup. eauto. }
  destruct He as (Htot & _).
  assert (Hrange : 1 ≤ from ≤ totalFloors e).
  { unfold invalid_request in Hvalid. rewrite Htot. lia. }
  rewrite Hs'. simpl.
  split; [done|]. split; [by rewrite list_lookup_alter_eq, Hi|].
  split; [rewrite addTarget_targets by done; apply JSSet_add_elem|].
  split; [apply addTarget_cabin|].
  assert (Htest : (from <? 1) || (totalFloors e <? from) = false).
  { rewrite orb_false_iff, !Z.ltb_ge. lia. }
  split_and!.
  - intros Hidle Hat. unfold addTarget. rewrite Htest. simpl. rewrite Hidle.
    apply Z.eqb_eq in Hat as ->. done.
  - intros Hidle Hat. unfold addTarget. rewrite Htest. simpl. rewrite Hidle.
    apply Z.eqb_neq in Hat as ->. done.
  - intros Hbusy. unfold addTarget. rewrite Htest. simpl.
    destruct (state e) eqn:Hst; [by destruct Hbusy|simpl; by rewrite Hst..].
  - intros j Hj. by rewrite list_lookup_alter_ne.
Qed.

Lemma request_reaches_winner_witness :
  ∃ e', elevators scenarioA !! 0%nat = Some e'
        ∧ 1 ∈ targets e' ∧ state e' = OPEN_DOOR.
Proof.
  pose proof (request_reaches_winner (Some 1) (Some 3) scenarioA_opts []
                "a" 1 3 (Some 70)) as H.
  cbv zeta in H.
  assert (Hvalid : ¬ invalid_request
                     (run (ElevatorSystem_new (Some 1) (Some 3) scenarioA_opts) [])
                     1 3).
  { unfold invalid_request. simpl. lia. }
  specialize (H Hvalid).
  assert (Hwin : (tryAssignElevator (Passenger_new "a" 1 3 (Some 70))
                    (run (ElevatorSystem_new (Some 1) (Some 3) scenarioA_opts)
                       [])).2 = Some 0%nat) by (vm_compute; reflexivity).
  rewrite Hwin in H.
  destruct H as (e & e' & He & He' & Ht & _ & Hidle & _).
  exists e'. split; [exact He'|]. split; [exact Ht|].
  assert (He0 : state e = IDLE ∧ currentFloor e = 1)
    by (vm_compute in He; injection He as <-; split; reflexivity).
  destruct He0 as [Hst Hat]. exact (proj1 (Hidle Hst Hat)).
Defined.

(** ** Boarding when everybody fits *)

Lemma waiting_here_snoc e q r :
  waiting_here e (q ++ [r])
  = waiting_here e q
    ++ (if decide (p_from r = currentFloor e) then [r] else []).
Proof.
  unfold waiting_here. by rewrite filter_app.
Qed.

Lemma waiting_here_room e q r :
  Forall nonneg_weight (q ++ [r]) →
  p_from r = currentFloor e →
  occupancyCount e + Z.of_nat (length (waiting_here e (q ++ [r]))) ≤ maxPeople e →
  occupancyWeight e + weight_of (waiting_here e (q ++ [r])) ≤ maxWeight e →
  fits e r
  ∧ occupancyCount e + 1 + Z.of_nat (length (waiting_here e q)) ≤ maxPeople e
  ∧ occupancyWeight e + p_weight r + weight_of (waiting_here e q) ≤ maxWeight e.
Proof.
  intros Hpos Hat. rewrite waiting_here_snoc.
  destruct (decide (p_from r = currentFloor e)); [|done].
  rewrite length_app, weight_of_app, weight_of_cons. simpl.
  change (weight_of []) with 0. intros Hcount Hweight.
  apply Forall_app in Hpos as [Hq Hr]. apply Forall_cons in Hr as [Hr _].
  assert (Hw : 0 ≤ weight_of (waiting_here e q)).
  { apply weight_of_nonneg. eapply Forall_sublist; [apply sublist_filter|done]. }
  unfold fits, nonneg_weight in *. lia.
Qed.

Lemma Boarding_everybody e q e' q' adm :
  Boarding e q e' q' adm →
  direction e = NONE →
  Forall nonneg_weight q →
  occupancyCount e + Z.of_nat (length (waiting_here e q)) ≤ maxPeople e →
  occupancyWeight e + weight_of (waiting_here e q) ≤ maxWeight e →
  adm = reverse (waiting_here e q)
  ∧ q' = filter (λ r, p_from r ≠ currentFloor e) q.
Proof.
  induction 1 as [e|e q r e' q' adm Hfl _ IH|e q r e' q' adm Hfl Hd Hf _ IH
                 |e q r e' q' adm Hfl Hd _ IH|e q r e' q' adm Hfl Hd Hf Hfull _ IH
                 |e q r Hfl Hd Hf Hfull];
    intros Hdir Hpos Hcount Hweight; [done|..].
  - rewrite waiting_here_snoc in *. rewrite filter_app, filter_cons.
    apply Forall_app in Hpos as [Hq _].
    destruct (decide (p_from r = currentFloor e)); [done|].
    destruct (decide (p_from r ≠ currentFloor e)); [|done].
    rewrite app_nil_r in *.
    destruct (IH Hdir Hq Hcount Hweight) as [-> ->]. done.
  - destruct (waiting_here_room _ _ _ Hpos Hfl Hcount Hweight)
      as (_ & Hcount' & Hweight').
    apply Forall_app in Hpos as [Hq _].
    rewrite waiting_here_snoc, filter_app, filter_cons.
    destruct (decide (p_from r = currentFloor e)); [|done].
    destruct (decide (p_from r ≠ currentFloor e)); [done|].
    rewrite reverse_app, app_nil_r. simpl.
    destruct IH as [-> ->]; try done.
    + by rewrite occupancyCount_board.
    + by rewrite occupancyWeight_board.
  - exfalso. apply Hd. by left.
  - by destruct (waiting_here_room _ _ _ Hpos Hfl Hcount Hweight) as (? & _).
  - by destruct (waiting_here_room _ _ _ Hpos Hfl Hcount Hweight) as (? & _).
Qed.

(** X17: an elevator with its doors open and no direction takes everybody
    who waits at its floor when they all fit: when the weights are not
    negative, and the passengers aboard together with all the requests
    waiting here stay within [maxPeople] and [maxWeight], the boarding step
    leaves in the queue exactly the requests of other floors, in their
    order, and appends the ones waiting here to the passengers, the last
    queued first. *)
Theorem boarding_takes_everybody_that_fits e q :
  state e = OPEN_DOOR →
  direction e = NONE →
  Forall (λ r, 0 ≤ p_weight r) q →
  occupancyCount e + Z.of_nat (length (waiting_here e q)) ≤ maxPeople e →
  occupancyWeight e + weight_of (waiting_here e q) ≤ maxWeight e →
  passengers (elevator_of (handleBoardings e q))
  = passengers e ++ reverse (waiting_here e q)
  ∧ queue_of (handleBoardings e q)
    = filter (λ r, p_from r ≠ currentFloor e) q.
Proof.
  intros Hopen Hdir Hpos Hcount Hweight.
  destruct (handleBoardings_refines q e Hopen) as [adm Hadm].
  destruct (Boarding_everybody _ _ _ _ _ Hadm Hdir Hpos Hcount Hweight)
    as [Hadm' Hq'].
  apply Boarding_outcome in Hadm as (Hpass & _).
  by rewrite Hpass, Hadm', Hq'.
Qed.

Lemma boarding_takes_everybody_that_fits_witness :
  passengers (elevator_of (handleBoardings
                             (openDoorImmediately
                                (Elevator_new 1 3 scenarioA_opts)) two_waiting))
  = reverse two_waiting.
Proof.
  refine (proj1 (boarding_takes_everybody_that_fits
                   (openDoorImmediately (Elevator_new 1 3 scenarioA_opts))
                   two_waiting _ _ _ _ _)).
  - reflexivity.
  - reflexivity.
  - repeat constructor; simpl; lia.
  - vm_compute. discriminate.
  - vm_compute. discriminate.
Defined.

(** * Tic-tac-toe *)

(** ** Coordinates *)

Lemma upperUnit_is_digit a :
  TicTacToe.upperUnit a ∈ ["1"; "2"; "3"]%char → TicTacToe.upperUnit a = a.
Proof.
  rewrite !elem_of_cons, elem_of_nil.
  destruct a as [[] [] [] [] [] [] [] []];
    intros [H|[H|[H|[]]]]; vm_compute in H |- *;
    first [reflexivity | discriminate H].
Qed.

Lemma indexOf_lookup x l i :
  TicTacToe.indexOf x l = Some i → l !! i = Some x.
Proof.
  revert i. induction l as [|y l IH]; intros i; simpl; [done|].
  case_bool_decide as Hy; [intros [= <-]; by subst|].
  destruct (TicTacToe.indexOf x l) as [j|]; simpl; [|done].
  intros [= <-]. simpl. by apply IH.
Qed.

Lemma lookup_indexOf x l i :
  NoDup l → l !! i = Some x → TicTacToe.indexOf x l = Some i.
Proof.
  intros Hnd. revert i. induction Hnd as [|y l Hy _ IH]; intros i; [done|].
  destruct i as [|i]; simpl.
  - intros [= ->]. by rewrite bool_decide_eq_true_2.
  - intros Hi. rewrite bool_decide_eq_false_2.
    + by rewrite (IH i Hi).
    + intros ->. apply Hy. by eapply list_elem_of_lookup_2.
Qed.

Lemma rows_NoDup : NoDup TicTacToe.rows.
Proof. apply (bool_decide_unpack _). by compute. Qed.

Lemma cols_NoDup : NoDup TicTacToe.cols.
Proof. apply (bool_decide_unpack _). by compute. Qed.

Lemma coordToIndex_two c0 c1 :
  TicTacToe.coordToIndex (String c0 (String c1 EmptyString))
  = match TicTacToe.indexOf (String (TicTacToe.upperUnit c0) EmptyString)
            TicTacToe.rows,
          TicTacToe.indexOf (String c1 EmptyString) TicTacToe.cols with
    | Some r, Some c => Some (r, c)
    | _, _ => None
    end.
Proof. reflexivity. Qed.

Lemma coordToIndex_length s :
  TicTacToe.coordToIndex s ≠ None →
  ∃ c0 c1, s = String c0 (String c1 EmptyString).
Proof.
  destruct s as [|c0 [|c1 [|c2 s]]]; try done. eauto.
Qed.

Lemma coordToIndex_bounds s r c :
  TicTacToe.coordToIndex s = Some (r, c) → (r < 3)%nat ∧ (c < 3)%nat.
Proof.
  intros Hs. destruct (coordToIndex_length s) as (c0 & c1 & ->);
    [congruence|].
  rewrite coordToIndex_two in Hs.
  destruct (TicTacToe.indexOf _ TicTacToe.rows) as [r'|] eqn:Hr; [|done].
  destruct (TicTacToe.indexOf _ TicTacToe.cols) as [c'|] eqn:Hc; [|done].
  injection Hs as <- <-.
  apply indexOf_lookup, lookup_lt_Some in Hr.
  apply indexOf_lookup, lookup_lt_Some in Hc. done.
Qed.

(** X18: [coordToIndex] accepts exactly the strings that read, in upper
    case, as the coordinate of a cell, a row letter A to C followed by a
    column digit 1 to 3, and returns the position of that cell. *)
Theorem coordToIndex_reads_coordinates s r c :
  TicTacToe.coordToIndex s = Some (r, c)
  ↔ coordinate r c = Some (TicTacToe.toUpperCase s).
Proof.
  split.
  - intros Hs. destruct (coordToIndex_length s) as (c0 & c1 & ->);
      [congruence|].
    rewrite coordToIndex_two in Hs. unfold coordinate.
    destruct (TicTacToe.indexOf _ TicTacToe.rows) as [r'|] eqn:Hr; [|done].
    destruct (TicTacToe.indexOf _ TicTacToe.cols) as [c'|] eqn:Hc; [|done].
    injection Hs as <- <-.
    apply indexOf_lookup in Hr, Hc. rewrite Hr, Hc.
    assert (Hd : TicTacToe.upperUnit c1 = c1); [|simpl; by rewrite Hd].
    apply list_elem_of_lookup_2 in Hc. unfold TicTacToe.cols in Hc.
    rewrite !elem_of_cons, elem_of_nil in Hc.
    by destruct Hc as [[= ->]|[[= ->]|[[= ->]|[]]]].
  - unfold coordinate.
    destruct (TicTacToe.rows !! r) as [a|] eqn:Hr; [|done].
    destruct (TicTacToe.cols !! c) as [d|] eqn:Hc; [|done].
    simpl. intros [= Hs].
    assert (Ha : ∃ x, a = String x EmptyString).
    { apply list_elem_of_lookup_2 in Hr. unfold TicTacToe.rows in Hr.
      rewrite !elem_of_cons, elem_of_nil in Hr.
      destruct Hr as [->|[->|[->|[]]]]; eauto. }
    assert (Hd : ∃ y, d = String y EmptyString ∧ y ∈ ["1"; "2"; "3"]%char).
    { apply list_elem_of_lookup_2 in Hc. unfold TicTacToe.cols in Hc.
      rewrite !elem_of_cons, elem_of_nil in Hc.
      destruct Hc as [->|[->|[->|[]]]]; eexists; (split; [done|]);
        rewrite !elem_of_cons; auto. }
    destruct Ha as [x ->]. destruct Hd as (y & -> & Hy).
    destruct s as [|c0 [|c1 [|c2 s]]]; try done.
    simpl in Hs. injection Hs as Hx Hy'. subst x y.
    apply upperUnit_is_digit in Hy. rewrite Hy in Hc.
    rewrite coordToIndex_two.
    by rewrite (lookup_indexOf _ _ _ rows_NoDup Hr),
      (lookup_indexOf _ _ _ cols_NoDup Hc).
Qed.

(** ** Registration *)

Lemma pairs_ind {A} (P : list A → Prop) :
  P [] → (∀ x, P [x]) → (∀ x y l, P l → P (x :: y :: l)) → ∀ l, P l.
Proof.
  intros Hnil Hone Hstep l.
  enough (P l ∧ ∀ x, P (x :: l)) by tauto.
  induction l as [|y l [IH1 IH2]]; [by split|].
  split; [apply IH2|]. intros x. by apply Hstep.
Qed.

Lemma registerFirst_outcome answers out p rest out' :
  TicTacToe.registerFirst answers out = Some (p, rest, out') →
  TicTacToe.name p ≠ "" ∧ String.length (TicTacToe.symbol p) = 1%nat
  ∧ TicTacToe.symbol p ≠ "_" ∧ rest `suffix_of` answers.
Proof.
  revert out. induction answers as [| |name1 sym1 answers IH] using pairs_ind;
    intros out; [done..|].
  assert (Hsuffix : ∀ l, l `suffix_of` answers →
                         l `suffix_of` name1 :: sym1 :: answers)
    by (intros l Hl; by do 2 apply suffix_cons_r).
  cbn [TicTacToe.registerFirst].
  case_bool_decide as Hname; [intros H; apply IH in H; destruct_and!; auto 10|].
  case_bool_decide as Hsym; cbn [orb];
    [intros H; apply IH in H; destruct_and!; auto 10|].
  destruct (String.length sym1 =? 1)%nat eqn:Hlen; cbn [negb];
    [|intros H; apply IH in H; destruct_and!; auto 10].
  case_bool_decide as Hres; [intros H; apply IH in H; destruct_and!; auto 10|].
  intros [= <- <- <-]. apply Nat.eqb_eq in Hlen. simpl.
  split_and!; try done. by apply Hsuffix.
Qed.

Lemma registerSecond_outcome p1 answers out p rest out' :
  TicTacToe.registerSecond p1 answers out = Some (p, rest, out') →
  TicTacToe.name p ≠ "" ∧ String.length (TicTacToe.symbol p) = 1%nat
  ∧ TicTacToe.symbol p ≠ "_"
  ∧ TicTacToe.symbol p ≠ TicTacToe.symbol p1
  ∧ TicTacToe.name p ≠ TicTacToe.name p1
  ∧ rest `suffix_of` answers.
Proof.
  revert out. induction answers as [| |name2 sym2 answers IH] using pairs_ind;
    intros out; [done..|].
  assert (Hsuffix : ∀ l, l `suffix_of` answers →
                         l `suffix_of` name2 :: sym2 :: answers)
    by (intros l Hl; by do 2 apply suffix_cons_r).
  cbn [TicTacToe.registerSecond].
  case_bool_decide as Hname; [intros H; apply IH in H; destruct_and!; auto 10|].
  case_bool_decide as Hsym; cbn [orb];
    [intros H; apply IH in H; destruct_and!; auto 10|].
  destruct (String.length sym2 =? 1)%nat eqn:Hlen; cbn [negb];
    [|intros H; apply IH in H; destruct_and!; auto 10].
  case_bool_decide as Hres; [intros H; apply IH in H; destruct_and!; auto 10|].
  case_bool_decide as Hused; [intros H; apply IH in H; destruct_and!; auto 10|].
  case_bool_decide as Hsame; [intros H; apply IH in H; destruct_and!; auto 10|].
  intros [= <- <- <-]. apply Nat.eqb_eq in Hlen. simpl.
  split_and!; try done. by apply Hsuffix.
Qed.

Lemma registerPlayers_outcome answers p1 p2 rest out :
  TicTacToe.registerPlayers answers = Some (p1, p2, rest, out) →
  registered p1 p2 ∧ rest `suffix_of` answers.
Proof.
  unfold TicTacToe.registerPlayers.
  destruct (TicTacToe.registerFirst answers _) as [[[q1 rest1] out1]|] eqn:H1;
    [|done].
  destruct (TicTacToe.registerSecond q1 rest1 out1) as [[[q2 rest2] out2]|]
    eqn:H2; [|done].
  intros [= <- <- <- <-].
  apply registerFirst_outcome in H1 as (? & ? & ? & Hs1).
  apply registerSecond_outcome in H2 as (? & ? & ? & ? & ? & Hs2).
  split; [unfold registered; split_and!; try done; congruence|].
  by etransitivity.
Qed.

(** X19: the two players that [registerPlayers] returns have names that
    are not empty and differ, and symbols of one character each that are
    not the underscore and differ; the answers left over are a final part
    of the answers given. *)
Theorem registerPlayers_registers answers p1 p2 rest out :
  TicTacToe.registerPlayers answers = Some (p1, p2, rest, out) →
  registered p1 p2 ∧ rest `suffix_of` answers.
Proof.
  unfold TicTacToe.registerPlayers.
  destruct (TicTacToe.registerFirst answers _) as [[[q1 rest1] out1]|] eqn:H1;
    [|done].
  destruct (TicTacToe.registerSecond q1 rest1 out1) as [[[q2 rest2] out2]|]
    eqn:H2; [|done].
  intros [= <- <- <- <-].
  apply registerFirst_outcome in H1 as (Hname1 & Hlen1 & Hsym1 & Hrest1).
  apply registerSecond_outcome in H2
    as (Hname2 & Hlen2 & Hsym2 & Hsyms & Hnames & Hrest2).
  split; [|by etransitivity].
  unfold registered. split_and!; try done; congruence.
Qed.

Lemma registerPlayers_registers_witness :
  registered (TicTacToe.mkPlayer "Ann" "X") (TicTacToe.mkPlayer "Bob" "O").
Proof.
  refine (proj1 (registerPlayers_registers
                   ["Ann"; "__"; ""; "X"; "Ann"; "X"; "Bob"; "X"; "Ann"; "O";
                    "Bob"; "O"; "a1"]
                   _ _ ["a1"] _ _)).
  vm_compute. reflexivity.
Defined.

(** ** The board *)

Lemma cell_place_eq b r c s x :
  TicTacToe.cell b r c = Some x →
  TicTacToe.cell (TicTacToe.place r c s b) r c = Some s.
Proof.
  unfold TicTacToe.cell, TicTacToe.place.
  rewrite list_lookup_alter_eq.
  destruct (b !! r) as [row|]; simpl; [|done].
  intros Hc. apply list_lookup_insert_eq. by eapply lookup_lt_Some.
Qed.

Lemma cell_place_ne b r c s r' c' :
  (r, c) ≠ (r', c') →
  TicTacToe.cell (TicTacToe.place r c s b) r' c' = TicTacToe.cell b r' c'.
Proof.
  unfold TicTacToe.cell, TicTacToe.place. intros Hne.
  destruct (decide (r = r')) as [<-|Hr].
  - rewrite list_lookup_alter_eq.
    destruct (b !! r) as [row|]; simpl; [|done].
    apply list_lookup_insert_ne. congruence.
  - by rewrite list_lookup_alter_ne.
Qed.

(** The cells that hold a symbol other than the one placed, and other than
    the one replaced, are the same before and after. *)
Lemma cell_place_other b r c s x o r' c' :
  TicTacToe.cell b r c = Some x → o ≠ s → o ≠ x →
  TicTacToe.cell (TicTacToe.place r c s b) r' c' = Some o
  ↔ TicTacToe.cell b r' c' = Some o.
Proof.
  intros Hx Hs Ho. destruct (decide ((r, c) = (r', c'))) as [[= <- <-]|Hne].
  - rewrite (cell_place_eq _ _ _ _ _ Hx), Hx. split; congruence.
  - by rewrite cell_place_ne.
Qed.

Lemma cell_place_self b r c s x r' c' :
  TicTacToe.cell b r c = Some x →
  TicTacToe.cell (TicTacToe.place r c s b) r' c' = Some s
  ↔ (r, c) = (r', c') ∨ TicTacToe.cell b r' c' = Some s.
Proof.
  intros Hx. destruct (decide ((r, c) = (r', c'))) as [[= <- <-]|Hne].
  - rewrite (cell_place_eq _ _ _ _ _ Hx). split; auto.
  - rewrite cell_place_ne by done. split; [auto|]. by intros [|].
Qed.

Lemma three_by_three_place b r c s :
  three_by_three b → three_by_three (TicTacToe.place r c s b).
Proof.
  intros [Hlen Hrows]. split; unfold TicTacToe.place.
  - by rewrite length_alter.
  - apply Forall_alter; [done|]. intros row _ Hrow.
    by rewrite length_insert.
Qed.

Lemma cell_bounds b r c x :
  three_by_three b → TicTacToe.cell b r c = Some x → (r < 3)%nat ∧ (c < 3)%nat.
Proof.
  intros [Hlen Hrows]. unfold TicTacToe.cell.
  destruct (b !! r) as [row|] eqn:Hrow; simpl; [|done].
  intros Hc. apply lookup_lt_Some in Hc.
  rewrite Forall_forall in Hrows.
  rewrite (Hrows row) in Hc by (by eapply list_elem_of_lookup_2).
  apply lookup_lt_Some in Hrow. lia.
Qed.

Lemma alter_take_drop {A} (f : A → A) (l : list A) i x :
  l !! i = Some x → alter f i l = take i l ++ f x :: drop (S i) l.
Proof.
  revert i. induction l as [|y l IH]; intros [|i]; simpl; try done.
  - by intros [= ->].
  - intros Hi. f_equal. by apply IH.
Qed.

Lemma filter_length_insert {A} (P : A → Prop) `{∀ x, Decision (P x)}
    (l : list A) i old new :
  l !! i = Some old →
  (length (filter P (<[i := new]> l)) + (if decide (P old) then 1 else 0)
   = length (filter P l) + (if decide (P new) then 1 else 0))%nat.
Proof.
  intros Hi. rewrite insert_take_drop by (by eapply lookup_lt_Some).
  rewrite <- (take_drop_middle l i old Hi) at 3.
  rewrite !filter_app, !filter_cons, !length_app.
  destruct (decide (P old)), (decide (P new)); simpl; lia.
Qed.

Lemma count_place b r c s old o :
  TicTacToe.cell b r c = Some old →
  (count o (TicTacToe.place r c s b) + (if decide (old = o) then 1 else 0)
   = count o b + (if decide (s = o) then 1 else 0))%nat.
Proof.
  unfold TicTacToe.cell, TicTacToe.place, count.
  destruct (b !! r) as [row|] eqn:Hrow; simpl; [|done]. intros Hc.
  rewrite (alter_take_drop _ _ _ _ Hrow).
  rewrite <- (take_drop_middle b r row Hrow) at 3.
  rewrite !concat_app, !concat_cons, !filter_app, !length_app.
  pose proof (filter_length_insert (λ x, x = o) row c old s Hc). lia.
Qed.

Lemma three_in_line_Exists b s :
  three_in_line b s
  ↔ Exists (Forall (λ rc, TicTacToe.cell b rc.1 rc.2 = Some s)) lines.
Proof.
  unfold three_in_line. rewrite Exists_exists.
  split; intros (l & Hl & Hcells); exists l; (split; [done|]).
  - apply Forall_forall. intros [r c] Hrc. by apply Hcells.
  - intros r c Hrc. rewrite Forall_forall in Hcells. by apply (Hcells (r, c)).
Qed.

(** [checkWin] looks for one of the eight lines. *)
Lemma checkWin_three_in_line b s :
  TicTacToe.checkWin b s = true ↔ three_in_line b s.
Proof.
  rewrite three_in_line_Exists.
  unfold TicTacToe.checkWin, lines. cbn [existsb seq].
  rewrite !orb_true_iff, !andb_true_iff, !bool_decide_eq_true.
  rewrite !Exists_cons, Exists_nil, !Forall_cons, Forall_nil. simpl.
  intuition discriminate.
Qed.

Lemma isBoardFull_full b :
  TicTacToe.isBoardFull b = true ↔ full b.
Proof.
  unfold TicTacToe.isBoardFull, full. cbn [forallb seq].
  rewrite !andb_true_iff, !negb_true_iff, !bool_decide_eq_false.
  split.
  - intros H r c Hr Hc.
    destruct r as [|[|[|r]]]; try lia; destruct c as [|[|[|c]]]; try lia;
      tauto.
  - intros H. split_and!; try done; apply H; lia.
Qed.

(** ** One round of the game *)

Lemma lock_trigger b s :
  bool_decide (TicTacToe.cell b 1 1 = Some "_")
  && (TicTacToe.playerHasCell b s 0 0 && TicTacToe.playerHasCell b s 2 2
      || TicTacToe.playerHasCell b s 0 2 && TicTacToe.playerHasCell b s 2 0)
  = true
  ↔ TicTacToe.cell b 1 1 = Some "_" ∧ diagonal_ends b s.
Proof.
  unfold TicTacToe.playerHasCell, diagonal_ends.
  by rewrite andb_true_iff, orb_true_iff, !andb_true_iff, !bool_decide_eq_true.
Qed.

(** A round either only prints, or places the symbol of the player on the
    move on an empty cell; the lock, the end of the game and the player on
    the move then follow the board after the move. *)
Lemma turn_outcome input g :
  let g' := TicTacToe.turn input g in
  (∃ lines, g' = TicTacToe.say lines g)
  ∨ ∃ r c,
      let sym := TicTacToe.symbol (TicTacToe.currentPlayer g) in
      let b := TicTacToe.place r c sym (TicTacToe.board g) in
      TicTacToe.coordToIndex
        (TicTacToe.toUpperCase (TicTacToe.removeSpaces input)) = Some (r, c)
      ∧ TicTacToe.cell (TicTacToe.board g) r c = Some "_"
      ∧ ((r, c) = (1, 1)%nat → TicTacToe.lockedForOther g = false)
      ∧ TicTacToe.board g' = b
      ∧ ((TicTacToe.cell b 1 1 = Some "_" ∧ diagonal_ends b sym)
         ∧ TicTacToe.centerLockedBy g' = Some sym
         ∨ ¬ (TicTacToe.cell b 1 1 = Some "_" ∧ diagonal_ends b sym)
           ∧ TicTacToe.centerLockedBy g' = TicTacToe.centerLockedBy g)
      ∧ ((three_in_line b sym ∨ full b)
         ∧ TicTacToe.gameEnded g' = true
         ∧ TicTacToe.currentPlayer g' = TicTacToe.currentPlayer g
         ∧ TicTacToe.otherPlayer g' = TicTacToe.otherPlayer g
         ∨ (¬ three_in_line b sym ∧ ¬ full b)
           ∧ TicTacToe.gameEnded g' = TicTacToe.gameEnded g
           ∧ TicTacToe.currentPlayer g' = TicTacToe.otherPlayer g
           ∧ TicTacToe.otherPlayer g' = TicTacToe.currentPlayer g).
Proof.
  cbv zeta. unfold TicTacToe.turn.
  destruct (TicTacToe.coordToIndex _) as [[r c]|]; [|left; eauto].
  destruct ((r =? 1)%nat && (c =? 1)%nat && TicTacToe.lockedForOther g)
    eqn:Hlock; [left; eauto|].
  case_bool_decide as Hcell; cbn [negb]; [|left; eauto].
  right. exists r, c. split; [done|]. split; [done|]. split.
  { intros [= -> ->]. by rewrite !Nat.eqb_refl in Hlock. }
  set (sym := TicTacToe.symbol (TicTacToe.currentPlayer g)).
  set (b := TicTacToe.place r c sym (TicTacToe.board g)).
  pose proof (lock_trigger b sym) as Htrigger.
  pose proof (checkWin_three_in_line b sym) as Hwin.
  pose proof (isBoardFull_full b) as Hfull.
  destruct (bool_decide (TicTacToe.cell b 1 1 = Some "_") && _);
    destruct (TicTacToe.checkWin b sym);
    destruct (TicTacToe.isBoardFull b); simpl;
    (split; [done|]); split;
    first [ left; split; [by apply Htrigger|done]
          | right; split; [rewrite <- Htrigger; by intros ?|done]
          | left; split; [left; by apply Hwin|done]
          | left; split; [right; by apply Hfull|done]
          | right; split; [rewrite <- Hwin, <- Hfull; split; by intros ?|done] ].
Qed.

Lemma say_game_inv p1 p2 lines g :
  game_inv p1 p2 g → game_inv p1 p2 (TicTacToe.say lines g).
Proof. done. Qed.

Lemma start_game_inv p1 p2 out : game_inv p1 p2 (TicTacToe.start p1 p2 out).
Proof.
  unfold game_inv. simpl. split_and!; [by left| | |done].
  - split; [done|]. repeat constructor.
  - intros r c s Hs. left.
    destruct r as [|[|[|r]]]; try done;
      destruct c as [|[|[|c]]]; try done; by injection Hs.
Qed.

Lemma turn_game_inv p1 p2 input g :
  game_inv p1 p2 g → game_inv p1 p2 (TicTacToe.turn input g).
Proof.
  intros (Hplayers & Hshape & Hcells & Hlock).
  destruct (turn_outcome input g) as [[lines ->]|(r & c & Hrc)];
    [by apply say_game_inv|].
  cbv zeta in Hrc.
  destruct Hrc as (_ & Hempty & _ & Hb & Hl & Hend).
  unfold game_inv. rewrite Hb. split_and!.
  - destruct Hend as [(_ & _ & -> & ->)|(_ & _ & -> & ->)]; tauto.
  - by apply three_by_three_place.
  - intros r' c' s.
    destruct (decide ((r, c) = (r', c'))) as [[= <- <-]|Hne].
    + rewrite (cell_place_eq _ _ _ _ _ Hempty). intros [= <-].
      destruct Hplayers as [[-> _]|[-> _]]; auto.
    + rewrite cell_place_ne by done. apply Hcells.
  - intros t. destruct Hl as [[_ ->]|[_ ->]]; [|apply Hlock].
    intros [= <-]. destruct Hplayers as [[-> _]|[-> _]]; auto.
Qed.

Lemma game_inv_symbols p1 p2 g :
  registered p1 p2 → game_inv p1 p2 g →
  let cur := TicTacToe.symbol (TicTacToe.currentPlayer g) in
  let other := TicTacToe.symbol (TicTacToe.otherPlayer g) in
  cur ≠ "_" ∧ other ≠ "_" ∧ cur ≠ other ∧ cur ≠ "" ∧ other ≠ ""
  ∧ (cur = TicTacToe.symbol p1 ∧ other = TicTacToe.symbol p2
     ∨ cur = TicTacToe.symbol p2 ∧ other = TicTacToe.symbol p1).
Proof.
  intros (_ & _ & _ & Hl1 & Hl2 & H1 & H2 & Hne) ([[-> ->]|[-> ->]] & _);
    cbv zeta; split_and!; try done; try congruence; auto;
    intros Hempty; by rewrite Hempty in *.
Qed.

(** A property of the game that holds when [main] enters its loop, that
    every round of a game that has not ended keeps, and that does not
    depend on what is printed, holds of the game that [main] reaches. *)
Section GameInvariant.

Variable I : TicTacToe.Player → TicTacToe.Player → TicTacToe.Game → Prop.

Hypothesis I_start :
  ∀ p1 p2 out, registered p1 p2 → I p1 p2 (TicTacToe.start p1 p2 out).
Hypothesis I_turn :
  ∀ p1 p2 input g,
    registered p1 p2 → game_inv p1 p2 g → TicTacToe.gameEnded g = false →
    I p1 p2 g → I p1 p2 (TicTacToe.turn input g).
Hypothesis I_say :
  ∀ p1 p2 lines g, I p1 p2 g → I p1 p2 (TicTacToe.say lines g).

Lemma play_inv p1 p2 inputs g :
  registered p1 p2 → game_inv p1 p2 g → I p1 p2 g →
  game_inv p1 p2 (TicTacToe.play inputs g)
  ∧ I p1 p2 (TicTacToe.play inputs g).
Proof.
  intros Hreg. revert g.
  induction inputs as [|input inputs IH]; intros g Hg HI; simpl;
    destruct (TicTacToe.gameEnded g) eqn:Hended; try done.
  apply IH; [by apply turn_game_inv|by apply I_turn].
Qed.

Lemma game_of_inv answers p1 p2 g :
  game_of answers p1 p2 g →
  registered p1 p2 ∧ game_inv p1 p2 g ∧ I p1 p2 g.
Proof.
  intros (rest & out & Hreg & Hmain). unfold TicTacToe.main in Hmain.
  rewrite Hreg in Hmain. cbv zeta in Hmain.
  apply registerPlayers_outcome in Hreg as [Hreg _].
  destruct (play_inv p1 p2 rest (TicTacToe.start p1 p2 out) Hreg)
    as [Hg HI]; [apply start_game_inv|by apply I_start|].
  split; [done|].
  destruct (TicTacToe.gameEnded _); injection Hmain as <-;
    [split; [by apply say_game_inv|by apply I_say]|done].
Qed.

End GameInvariant.

(** ** Cells are never overwritten *)

Lemma cell_place_keep b r c s r' c' t :
  TicTacToe.cell b r c = Some "_" →
  TicTacToe.cell b r' c' = Some t → t ≠ "_" →
  TicTacToe.cell (TicTacToe.place r c s b) r' c' = Some t.
Proof.
  intros Hempty Ht Hne. rewrite cell_place_ne; [done|].
  intros [= <- <-]. congruence.
Qed.

Lemma turn_keeps_cells input g r c s :
  TicTacToe.cell (TicTacToe.board g) r c = Some s → s ≠ "_" →
  TicTacToe.cell (TicTacToe.board (TicTacToe.turn input g)) r c = Some s.
Proof.
  intros Hs Hne.
  destruct (turn_outcome input g) as [[lines ->]|(r' & c' & Hrc)]; [done|].
  cbv zeta in Hrc. destruct Hrc as (_ & Hempty & _ & -> & _).
  by apply cell_place_keep.
Qed.

Lemma turn_keeps_shape input g :
  three_by_three (TicTacToe.board g) →
  three_by_three (TicTacToe.board (TicTacToe.turn input g)).
Proof.
  intros Hshape.
  destruct (turn_outcome input g) as [[lines ->]|(r' & c' & Hrc)]; [done|].
  cbv zeta in Hrc. destruct Hrc as (_ & _ & _ & -> & _).
  by apply three_by_three_place.
Qed.

(** X20: a cell that holds a symbol keeps it: on a board of three rows of
    three, whatever the answers, no round of the game changes a cell that
    is not empty, and the board keeps its shape. *)
Theorem cells_never_overwritten inputs g r c s :
  three_by_three (TicTacToe.board g) →
  TicTacToe.cell (TicTacToe.board g) r c = Some s → s ≠ "_" →
  three_by_three (TicTacToe.board (TicTacToe.play inputs g))
  ∧ TicTacToe.cell (TicTacToe.board (TicTacToe.play inputs g)) r c = Some s.
Proof.
  revert g. induction inputs as [|input inputs IH]; intros g Hshape Hs Hne;
    simpl; destruct (TicTacToe.gameEnded g); try done.
  apply IH; [by apply turn_keeps_shape|by apply turn_keeps_cells|done].
Qed.

Lemma cells_never_overwritten_witness :
  TicTacToe.cell (TicTacToe.board (TicTacToe.play ["a1"; " A 1 "; "b2"] opening))
    0 0 = Some "X".
Proof.
  refine (proj2 (cells_never_overwritten ["a1"; " A 1 "; "b2"] opening
                   0 0 "X" _ _ _)).
  - vm_compute. split; [reflexivity|repeat constructor].
  - vm_compute. reflexivity.
  - discriminate.
Defined.

(** ** The players move in turn *)

Lemma count_makeEmptyBoard s :
  s ≠ "_" → count s TicTacToe.makeEmptyBoard = 0%nat.
Proof.
  intros Hs. unfold count, TicTacToe.makeEmptyBoard. cbn [concat app].
  rewrite !filter_cons, filter_nil. by rewrite !decide_False by done.
Qed.

Lemma alternation_start p1 p2 out :
  registered p1 p2 → alternation p1 p2 (TicTacToe.start p1 p2 out).
Proof.
  intros (_ & _ & _ & _ & _ & H1 & H2 & _). unfold alternation.
  cbn [TicTacToe.start TicTacToe.say TicTacToe.gameEnded TicTacToe.board
         TicTacToe.currentPlayer].
  left. split; [done|]. by rewrite !count_makeEmptyBoard.
Qed.

Lemma alternation_turn p1 p2 input g :
  registered p1 p2 → game_inv p1 p2 g → TicTacToe.gameEnded g = false →
  alternation p1 p2 g → alternation p1 p2 (TicTacToe.turn input g).
Proof.
  intros Hreg Hg Hon Halt.
  destruct (turn_outcome input g) as [[lines ->]|(r & c & Hrc)]; [done|].
  cbv zeta in Hrc. destruct Hrc as (_ & Hempty & _ & Hb & _ & Hend).
  pose proof (count_place _ _ _ (TicTacToe.symbol (TicTacToe.currentPlayer g))
                _ (TicTacToe.symbol p1) Hempty) as Hn1.
  pose proof (count_place _ _ _ (TicTacToe.symbol (TicTacToe.currentPlayer g))
                _ (TicTacToe.symbol p2) Hempty) as Hn2.
  destruct Hreg as (_ & _ & _ & _ & _ & H1 & H2 & H12).
  destruct Hg as (Hplayers & _).
  unfold alternation in *. rewrite Hon in Halt. rewrite Hb.
  destruct Hend as [(_ & -> & -> & _)|(_ & -> & -> & _)]; rewrite ?Hon;
    destruct Halt as [[Hcur ?]|[Hcur ?]]; rewrite Hcur in *;
    destruct Hplayers as [[? Hother]|[? Hother]]; try congruence;
    rewrite ?Hother; repeat case_decide; try congruence;
    first [left; split; [done|lia] | right; split; [done|lia]].
Qed.

Lemma game_alternation answers p1 p2 g :
  game_of answers p1 p2 g →
  registered p1 p2 ∧ game_inv p1 p2 g ∧ alternation p1 p2 g.
Proof.
  apply (game_of_inv alternation);
    [apply alternation_start|apply alternation_turn|done].
Qed.

(** X21: the players move in turn, the first registered first.  In the
    game that [main] has reached, the board is three by three, every cell
    is empty or holds the symbol of a player, and the first player has as
    many cells as the second or one more; while the game has not ended,
    the first player is on the move exactly when both have as many. *)
Theorem players_move_in_turn answers p1 p2 g :
  game_of answers p1 p2 g →
  let n1 := count (TicTacToe.symbol p1) (TicTacToe.board g) in
  let n2 := count (TicTacToe.symbol p2) (TicTacToe.board g) in
  three_by_three (TicTacToe.board g)
  ∧ (∀ r c s, TicTacToe.cell (TicTacToe.board g) r c = Some s →
              s = "_" ∨ s = TicTacToe.symbol p1 ∨ s = TicTacToe.symbol p2)
  ∧ (n2 ≤ n1 ≤ S n2)%nat
  ∧ (TicTacToe.gameEnded g = false →
     (TicTacToe.currentPlayer g = p1 ↔ n1 = n2)).
Proof.
  intros Hgame. cbv zeta.
  destruct (game_alternation _ _ _ _ Hgame) as (Hreg & Hg & Halt).
  destruct Hg as (_ & Hshape & Hcells & _).
  destruct Hreg as (_ & _ & Hnames & _).
  unfold alternation in Halt. split_and!; [done|done|..].
  - destruct (TicTacToe.gameEnded g), Halt as [[_ ?]|[_ ?]]; lia.
  - destruct (TicTacToe.gameEnded g), Halt as [[_ ?]|[_ ?]]; lia.
  - intros Hon. rewrite Hon in Halt.
    destruct Halt as [[-> ->]|[-> ->]]; [done|].
    split; [intros ->; done|lia].
Qed.

Lemma players_move_in_turn_witness :
  (count "O" (TicTacToe.board opening) ≤ count "X" (TicTacToe.board opening))%nat.
Proof.
  refine (proj1 (proj1 (proj2 (proj2
            (players_move_in_turn ["Ann"; "X"; "Bob"; "O"; "a1"]
               ann bob opening _))))).
  exists ["a1"], [TicTacToe.Banner; TicTacToe.Registered ann bob].
  split; vm_compute; reflexivity.
Defined.

(** ** A full board *)

Lemma elem_of_concat_cell b x :
  x ∈ concat b → ∃ r c, TicTacToe.cell b r c = Some x.
Proof.
  induction b as [|row b IH]; simpl; [by rewrite elem_of_nil|].
  rewrite elem_of_app. intros [Hx|Hx].
  - apply list_elem_of_lookup in Hx as [c Hc]. by exists 0%nat, c.
  - destruct (IH Hx) as (r & c & Hrc). by exists (S r), c.
Qed.

Lemma filter_two {A} `{EqDecision A} (l : list A) s1 s2 :
  s1 ≠ s2 → Forall (λ x, x = s1 ∨ x = s2) l →
  (length (filter (λ x, x = s1) l) + length (filter (λ x, x = s2) l)
   = length l)%nat.
Proof.
  intros Hne. induction 1 as [|x l Hx _ IH]; [done|].
  rewrite !filter_cons.
  destruct Hx as [-> | ->]; repeat case_decide; try congruence; simpl; lia.
Qed.

Lemma three_by_three_length b : three_by_three b → length (concat b) = 9%nat.
Proof.
  intros [Hlen Hrows].
  destruct b as [|r0 [|r1 [|r2 [|r3 b]]]]; try done.
  apply Forall_cons in Hrows as [H0 Hrows].
  apply Forall_cons in Hrows as [H1 Hrows].
  apply Forall_cons in Hrows as [H2 _].
  simpl. rewrite !length_app, H0, H1, H2. done.
Qed.

Lemma count_full b s1 s2 :
  three_by_three b → full b → s1 ≠ s2 →
  (∀ r c s, TicTacToe.cell b r c = Some s → s = "_" ∨ s = s1 ∨ s = s2) →
  (count s1 b + count s2 b = 9)%nat.
Proof.
  intros Hshape Hfull Hne Hcells. unfold count.
  rewrite filter_two, three_by_three_length; [done..|].
  apply Forall_forall. intros x Hx.
  apply elem_of_concat_cell in Hx as (r & c & Hrc).
  destruct (Hcells r c x Hrc) as [->|?]; [|done].
  destruct (cell_bounds _ _ _ _ Hshape Hrc). by destruct (Hfull r c).
Qed.

(** ** The end of the game *)

Lemma three_in_line_place_other b r c s o :
  TicTacToe.cell b r c = Some "_" → o ≠ s → o ≠ "_" →
  three_in_line (TicTacToe.place r c s b) o ↔ three_in_line b o.
Proof.
  intros Hempty Hs Ho. unfold three_in_line.
  split; intros (l & Hl & Hcells); exists l; (split; [done|]);
    intros r' c' Hrc; apply (cell_place_other _ _ _ _ _ _ _ _ Hempty Hs Ho);
    by apply Hcells.
Qed.

Lemma diagonal_ends_place_other b r c s o :
  TicTacToe.cell b r c = Some "_" → o ≠ s → o ≠ "_" →
  diagonal_ends (TicTacToe.place r c s b) o ↔ diagonal_ends b o.
Proof.
  intros Hempty Hs Ho. unfold diagonal_ends.
  by rewrite !(cell_place_other _ _ _ _ _ _ _ _ Hempty Hs Ho).
Qed.

Lemma diagonal_ends_place_keep b r c s t :
  TicTacToe.cell b r c = Some "_" → t ≠ "_" →
  diagonal_ends b t → diagonal_ends (TicTacToe.place r c s b) t.
Proof.
  intros Hempty Ht [[H1 H2]|[H1 H2]]; [left|right];
    split; by apply cell_place_keep.
Qed.

Lemma makeEmptyBoard_no_line s :
  s ≠ "_" → ¬ three_in_line TicTacToe.makeEmptyBoard s.
Proof.
  intros Hs (l & Hl & Hcells).
  assert (Hcell : ∃ r c, (r, c) ∈ l ∧ (r < 3)%nat ∧ (c < 3)%nat).
  { unfold lines in Hl. rewrite !elem_of_cons, elem_of_nil in Hl.
    repeat match type of Hl with _ ∨ _ => destruct Hl as [->|Hl] end;
      try done; eexists _, _; (split; [apply list_elem_of_here|lia]). }
  destruct Hcell as (r & c & Hrc & Hr & Hc). apply Hcells in Hrc.
  destruct r as [|[|[|r]]]; try lia; destruct c as [|[|[|c]]]; try lia;
    injection Hrc as <-; done.
Qed.

Lemma makeEmptyBoard_not_full : ¬ full TicTacToe.makeEmptyBoard.
Proof. intros Hfull. by apply (Hfull 0 0)%nat; [lia..|]. Qed.

Lemma decided_start p1 p2 out :
  registered p1 p2 → decided (TicTacToe.start p1 p2 out).
Proof.
  intros (_ & _ & _ & _ & _ & H1 & H2 & _). unfold decided.
  cbn [TicTacToe.start TicTacToe.say TicTacToe.gameEnded TicTacToe.board
         TicTacToe.currentPlayer TicTacToe.otherPlayer].
  split; [by apply makeEmptyBoard_no_line|].
  split; [done|].
  intros [Hline|Hfull]; [by apply makeEmptyBoard_no_line in Hline|].
  by apply makeEmptyBoard_not_full in Hfull.
Qed.

Lemma decided_turn p1 p2 input g :
  registered p1 p2 → game_inv p1 p2 g → TicTacToe.gameEnded g = false →
  decided g → decided (TicTacToe.turn input g).
Proof.
  intros Hreg Hg Hon [Hother Hiff].
  destruct (game_inv_symbols _ _ _ Hreg Hg) as (Hc & Ho & Hco & _).
  cbv zeta in *.
  destruct (turn_outcome input g) as [[lines ->]|(r & c & Hrc)]; [done|].
  cbv zeta in Hrc. destruct Hrc as (_ & Hempty & _ & Hb & _ & Hend).
  pose proof (three_in_line_place_other _ _ _ _ _ Hempty (not_eq_sym Hco) Ho)
    as Hline.
  unfold decided. rewrite Hb.
  destruct Hend as [(Hwhy & -> & -> & ->)|([Hnl Hnf] & -> & -> & ->)].
  - rewrite Hline. done.
  - rewrite Hline, Hon. split; [done|]. split; [done|]. tauto.
Qed.

Lemma game_decided answers p1 p2 g :
  game_of answers p1 p2 g → registered p1 p2 ∧ game_inv p1 p2 g ∧ decided g.
Proof.
  apply (game_of_inv (λ _ _, decided));
    [apply decided_start|apply decided_turn|done].
Qed.

(** X22: a full board holds five symbols of the first player and four of
    the second: nine rounds have been played in turn, and the first player
    has played the last one. *)
Theorem full_board_five_to_four answers p1 p2 g :
  game_of answers p1 p2 g → full (TicTacToe.board g) →
  count (TicTacToe.symbol p1) (TicTacToe.board g) = 5%nat
  ∧ count (TicTacToe.symbol p2) (TicTacToe.board g) = 4%nat
  ∧ TicTacToe.gameEnded g = true
  ∧ TicTacToe.currentPlayer g = p1.
Proof.
  intros Hgame Hfull.
  destruct (game_alternation _ _ _ _ Hgame) as (Hreg & Hg & Halt).
  destruct Hg as (_ & Hshape & Hcells & _).
  destruct Hreg as (_ & _ & _ & _ & _ & _ & _ & Hne).
  pose proof (count_full _ _ _ Hshape Hfull Hne Hcells) as Hnine.
  destruct (game_decided _ _ _ _ Hgame) as (_ & _ & [_ Hended]).
  cbv zeta in Hended.
  assert (Hover : TicTacToe.gameEnded g = true) by (apply Hended; by right).
  unfold alternation in Halt. rewrite Hover in Halt.
  destruct Halt as [[? ?]|[? ?]]; split_and!; try done; lia.
Qed.

Lemma full_board_five_to_four_witness :
  count "X" (TicTacToe.board drawn_end) = 5%nat.
Proof.
  refine (proj1 (full_board_five_to_four drawn_game ann bob drawn_end _ _)).
  - exists (drop 4 drawn_game),
      [TicTacToe.Banner; TicTacToe.Registered ann bob].
    split; vm_compute; reflexivity.
  - apply isBoardFull_full. vm_compute. reflexivity.
Defined.

(** X23: the game that [main] has reached has ended exactly when the
    player who moved last, still the current player then, has three in a
    line or the board is full; the other player never has three in a
    line. *)
Theorem game_over_when_decided answers p1 p2 g :
  game_of answers p1 p2 g →
  let b := TicTacToe.board g in
  (TicTacToe.gameEnded g = true
   ↔ three_in_line b (TicTacToe.symbol (TicTacToe.currentPlayer g)) ∨ full b)
  ∧ ¬ three_in_line b (TicTacToe.symbol (TicTacToe.otherPlayer g)).
Proof.
  intros Hgame. destruct (game_decided _ _ _ _ Hgame) as (_ & _ & [? ?]).
  done.
Qed.

Lemma game_over_when_decided_witness :
  ¬ three_in_line (TicTacToe.board sample_end) "O".
Proof.
  refine (proj2 (game_over_when_decided sample_game ann bob sample_end _)).
  exists (drop 4 sample_game),
    [TicTacToe.Banner; TicTacToe.Registered ann bob].
  split; vm_compute; reflexivity.
Defined.

(** ** The lock of the centre *)

Lemma lock_sound_turn p1 p2 input g :
  registered p1 p2 → game_inv p1 p2 g → TicTacToe.gameEnded g = false →
  lock_sound g → lock_sound (TicTacToe.turn input g).
Proof.
  intros Hreg Hg _ Hsound.
  destruct (turn_outcome input g) as [[lines ->]|(r & c & Hrc)]; [done|].
  cbv zeta in Hrc. destruct Hrc as (_ & Hempty & Hlocked & Hb & Hl & _).
  unfold lock_sound. rewrite Hb.
  destruct Hl as [[[Hcentre Hdiag] ->]|[_ ->]]; [by intros t [= <-]; auto|].
  intros t Ht. destruct (Hsound t Ht) as [Hdiag Hcentre].
  assert (Hsym : t ≠ "_" ∧ t ≠ "").
  { destruct Hreg as (_ & _ & _ & Hl1 & Hl2 & H1 & H2 & _).
    destruct Hg as (_ & _ & _ & Hlock).
    destruct (Hlock t Ht) as [-> | ->]; (split; [done|]);
      intros Hnil; by rewrite Hnil in *. }
  destruct Hsym as [Hne Hnil].
  split; [by apply diagonal_ends_place_keep|].
  destruct (decide ((r, c) = (1, 1)%nat)) as [[= -> ->]|Hrc].
  - right. rewrite (cell_place_eq _ _ _ _ _ Hempty). f_equal.
    specialize (Hlocked eq_refl). unfold TicTacToe.lockedForOther in Hlocked.
    rewrite Ht in Hlocked.
    rewrite (bool_decide_eq_false_2 _ Hnil) in Hlocked. simpl in Hlocked.
    apply negb_false_iff, bool_decide_eq_true in Hlocked. done.
  - by rewrite cell_place_ne.
Qed.

Lemma game_lock_sound answers p1 p2 g :
  game_of answers p1 p2 g →
  registered p1 p2 ∧ game_inv p1 p2 g ∧ lock_sound g.
Proof.
  apply (game_of_inv (λ _ _, lock_sound)); [done|apply lock_sound_turn|done].
Qed.

(** X24: the centre is locked to a player only.  In the game that [main]
    has reached, a lock names the symbol of a player who holds both ends of
    a diagonal, and the centre is then empty or holds that symbol: the
    other player has not taken it. *)
Theorem center_lock_sound answers p1 p2 g t :
  game_of answers p1 p2 g →
  TicTacToe.centerLockedBy g = Some t →
  (t = TicTacToe.symbol p1 ∨ t = TicTacToe.symbol p2)
  ∧ diagonal_ends (TicTacToe.board g) t
  ∧ (TicTacToe.cell (TicTacToe.board g) 1 1 = Some "_"
     ∨ TicTacToe.cell (TicTacToe.board g) 1 1 = Some t).
Proof.
  intros Hgame Ht.
  destruct (game_lock_sound _ _ _ _ Hgame) as (_ & Hg & Hsound).
  destruct Hg as (_ & _ & _ & Hlock).
  destruct (Hsound t Ht). auto.
Qed.

Lemma center_lock_sound_witness :
  diagonal_ends (TicTacToe.board sample_end) "X".
Proof.
  refine (proj1 (proj2
            (center_lock_sound sample_game ann bob sample_end "X" _ _))).
  - exists (drop 4 sample_game),
      [TicTacToe.Banner; TicTacToe.Registered ann bob].
    split; vm_compute; reflexivity.
  - vm_compute. reflexivity.
Defined.

Lemma lock_complete_turn p1 p2 input g :
  registered p1 p2 → game_inv p1 p2 g → TicTacToe.gameEnded g = false →
  lock_complete p1 p2 g → lock_complete p1 p2 (TicTacToe.turn input g).
Proof.
  intros Hreg Hg _ Hcomplete.
  destruct (game_inv_symbols _ _ _ Hreg Hg) as (Hc & _ & _ & _ & _ & Hsyms).
  cbv zeta in *.
  destruct (turn_outcome input g) as [[lines ->]|(r & c & Hrc)]; [done|].
  cbv zeta in Hrc. destruct Hrc as (_ & Hempty & _ & Hb & Hl & _).
  unfold lock_complete. rewrite Hb. intros Hcentre p Hp Hdiag.
  destruct Hl as [[_ ->]|[Hno ->]]; [eauto|].
  assert (Hne : TicTacToe.symbol p
                ≠ TicTacToe.symbol (TicTacToe.currentPlayer g)).
  { intros Heq. apply Hno. by rewrite Heq in Hdiag. }
  assert (Hp' : TicTacToe.symbol p ≠ "_").
  { destruct Hreg as (_ & _ & _ & _ & _ & H1 & H2 & _).
    by destruct Hp as [-> | ->]. }
  apply (Hcomplete) with p; [|done|].
  - destruct (decide ((r, c) = (1, 1)%nat)) as [[= -> ->]|Hrc].
    + rewrite (cell_place_eq _ _ _ _ _ Hempty) in Hcentre. congruence.
    + by rewrite cell_place_ne in Hcentre.
  - by apply (diagonal_ends_place_other _ _ _ _ _ Hempty Hne Hp').
Qed.

Lemma game_lock_complete answers p1 p2 g :
  game_of answers p1 p2 g →
  registered p1 p2 ∧ game_inv p1 p2 g ∧ lock_complete p1 p2 g.
Proof.
  apply (game_of_inv lock_complete);
    [|apply lock_complete_turn|done].
  intros q1 q2 out (_ & _ & _ & _ & _ & H1 & H2 & _) _ p Hp [[Hd _]|[Hd _]];
    injection Hd as Hd; destruct Hp as [-> | ->]; congruence.
Qed.

(** X25: both ends of a diagonal lock the centre.  In the game that
    [main] has reached, while the centre is empty and a player holds both
    ends of a diagonal, the centre is locked. *)
Theorem diagonal_locks_center answers p1 p2 g p :
  game_of answers p1 p2 g →
  TicTacToe.cell (TicTacToe.board g) 1 1 = Some "_" →
  p = p1 ∨ p = p2 →
  diagonal_ends (TicTacToe.board g) (TicTacToe.symbol p) →
  ∃ t, TicTacToe.centerLockedBy g = Some t.
Proof.
  intros Hgame Hcentre Hp Hdiag.
  destruct (game_lock_complete _ _ _ _ Hgame) as (_ & _ & Hcomplete).
  by apply (Hcomplete Hcentre p).
Qed.

Lemma diagonal_locks_center_witness :
  ∃ t, TicTacToe.centerLockedBy sample_end = Some t.
Proof.
  refine (diagonal_locks_center sample_game ann bob sample_end ann _ _ _ _).
  - exists (drop 4 sample_game),
      [TicTacToe.Banner; TicTacToe.Registered ann bob].
    split; vm_compute; reflexivity.
  - vm_compute. reflexivity.
  - by left.
  - left. split; vm_compute; reflexivity.
Defined.
